(** * UAM TypeScript SDK: envelope, canonical JSON, contact book and inbox

    A shallow embedding of the protocol layer ([protocol/crypto.ts],
    [protocol/envelope.ts], [protocol/address.ts], [protocol/contact-card.ts])
    and of the SDK layer ([sdk/contact-book.ts], [sdk/handshake.ts],
    [sdk/agent.ts]) of the UAM TypeScript SDK, with the properties of the
    protocol specification stated over it.

    Conventions.
    - A JavaScript string is the list of its UTF-16 code units ([jsstring]);
      a byte string ([Uint8Array]) is a list of numbers below 256.
    - A JavaScript value is a [value]; TypeScript annotations are erased, so
      the fields of an envelope read from the wire are [value]s.
    - A plain object is the list of its own enumerable properties in
      enumeration order.
    - Exceptions are the [Throw] results of [result]; code with effects is
      written in the state-and-exception monad [M]. *)

From Stdlib Require Import ZArith NArith List Ascii String DecimalString Lia.
From stdpp Require Import base decidable option list sorting gmap.

Local Open Scope N_scope.

(* ===================================================================== *)
(** * JavaScript strings and values                                       *)
(* ===================================================================== *)

Module JS.

(** UTF-16 code units. *)
Definition jsstring := list N.

(** Byte strings ([Uint8Array], [Buffer]). *)
Definition bytes := list N.

(** An ASCII literal as a JavaScript string. *)
Definition js (s : string) : jsstring :=
  map N_of_ascii (list_ascii_of_string s).

Definition str_eqb (a b : jsstring) : bool := bool_decide (a = b).

(** [a.startsWith(p)] *)
Fixpoint startsWith (p a : jsstring) : bool :=
  match p, a with
  | [], _ => true
  | _ :: _, [] => false
  | x :: p', y :: a' => (x =? y) && startsWith p' a'
  end.

(** Index of the first occurrence of [sep] in [a], if any. *)
Fixpoint indexOf (sep a : jsstring) : option nat :=
  if startsWith sep a then Some 0%nat
  else match a with
       | [] => None
       | _ :: a' => S <$> indexOf sep a'
       end.

(** [a.includes(sep)] *)
Definition includes (sep a : jsstring) : bool :=
  match indexOf sep a with Some _ => true | None => false end.

(** [a.split(sep)] for a non-empty separator. The recursion is on [fuel],
    which [str_split] sets to the length of the string plus one. *)
Fixpoint split_fuel (fuel : nat) (sep a : jsstring) : list jsstring :=
  match fuel with
  | O => [a]
  | S fuel' =>
      match indexOf sep a with
      | None => [a]
      | Some i => take i a :: split_fuel fuel' sep (drop (i + length sep) a)
      end
  end.

Definition str_split (sep a : jsstring) : list jsstring :=
  split_fuel (S (length a)) sep a.

(** [items.join(sep)] *)
Fixpoint join (sep : jsstring) (items : list jsstring) : jsstring :=
  match items with
  | [] => []
  | [x] => x
  | x :: rest => x ++ sep ++ join sep rest
  end.

(** The default comparison of [Array.prototype.sort]: strings are compared
    code unit by code unit. *)
Fixpoint key_leb (a b : jsstring) : bool :=
  match a, b with
  | [], _ => true
  | _ :: _, [] => false
  | x :: a', y :: b' =>
      if x <? y then true else if x =? y then key_leb a' b' else false
  end.

Definition key_le (a b : jsstring) : Prop := key_leb a b = true.

#[export] Instance key_le_dec : RelDecision key_le :=
  fun a b => decide (key_leb a b = true).

(** [keys.sort()] *)
Definition array_sort (keys : list jsstring) : list jsstring :=
  merge_sort key_le keys.

(** A JavaScript number: [NaN], an infinity, or the finite value
    [(-1)^negative * mantissa * 2^exponent]; a zero has the mantissa 0. The
    doubles are the values with a mantissa below 2^53 and an exponent from
    -1074 to 971, in any of their forms; the functions on numbers are those
    of JavaScript on the doubles. *)
Inductive number : Type :=
| NaN
| Infinity (negative : bool)
| Finite (negative : bool) (mantissa : N) (exponent : Z).

(** The number of an integer below 2^53 in absolute value. *)
Definition int (n : Z) : number := Finite (n <? 0)%Z (Z.abs_N n) 0.

(** JavaScript values that occur in JSON documents, and [undefined]. *)
#[warnings="-register-all"] Inductive value : Type :=
| JUndefined
| JNull
| JBool (b : bool)
| JNum (x : number)
| JStr (s : jsstring)
| JArr (items : list value)
| JObj (props : list (jsstring * value)).

(** A plain object: own enumerable string-keyed properties, in order. *)
Definition object := list (jsstring * value).

(** [Object.keys(o)] *)
Definition obj_keys (o : object) : list jsstring := map fst o.

(** [o[k]]: [undefined] when [o] has no own property [k]. *)
Fixpoint obj_get (o : object) (k : jsstring) : value :=
  match o with
  | [] => JUndefined
  | (k', v) :: rest => if str_eqb k' k then v else obj_get rest k
  end.

(** [keys.has(k)] for [keys = new Set(Object.keys(o))] *)
Definition obj_has (o : object) (k : jsstring) : bool :=
  bool_decide (k ∈ obj_keys o).

(** Replace the value of an existing own property, keeping its position. *)
Fixpoint obj_replace (o : object) (k : jsstring) (v : value) : object :=
  match o with
  | [] => []
  | (k', v') :: rest =>
      if str_eqb k' k then (k', v) :: rest else (k', v') :: obj_replace rest k v
  end.

(** [o[k] = v] on a plain object: an existing property keeps its place, a new
    one goes last. Assigning to ["__proto__"] runs the prototype setter and
    creates no own property. (JavaScript enumerates keys that are array
    indices before the others; the code assigns such keys only in
    [canonicalize], which sorts the keys afterwards.) *)
Definition obj_set (o : object) (k : jsstring) (v : value) : object :=
  if str_eqb k (js "__proto__") then o
  else if obj_has o k then obj_replace o k v
  else o ++ [(k, v)].

(** [v === undefined], [v === null] *)
Definition is_undefined (v : value) : bool :=
  match v with JUndefined => true | _ => false end.

Definition is_null (v : value) : bool :=
  match v with JNull => true | _ => false end.

(** [String(x)] for a number [x]: [Number::toString] in radix 10. The text
    is made of the shortest digit string [s] and the exponent [n] for which
    [0.s * 10^n] rounds to [x], the nearest to [x] when there are several. *)
Module Number.
Local Open Scope Z_scope.

(** The decimal digits of a natural number. *)
Definition digits (s : Z) : jsstring :=
  js (NilZero.string_of_uint (N.to_uint (Z.to_N s))).

(** The order of [s * 10^p] and [b * 2^q]. *)
Definition compare_scaled (s p b q : Z) : comparison :=
  s * 10 ^ Z.max p 0 * 2 ^ Z.max (- q) 0
  ?= b * 2 ^ Z.max q 0 * 10 ^ Z.max (- p) 0.

(** Mantissa and exponent of a double in normal form: a mantissa of 53
    bits, or the least exponent. *)
Definition normal (m e : Z) : Z * Z :=
  let shift := Z.max 0 (Z.min (53 - (Z.log2 m + 1)) (e + 1074)) in
  (m * 2 ^ shift, e - shift).

(** The integer [n] with [10^(n-1) <= m * 2^e < 10^n], from an estimate. *)
Fixpoint adjust_up (fuel : nat) (m e n : Z) : Z :=
  match fuel with
  | O => n
  | S fuel' =>
      match compare_scaled 1 n m e with
      | Gt => n
      | _ => adjust_up fuel' m e (n + 1)
      end
  end.

Fixpoint adjust_down (fuel : nat) (m e n : Z) : Z :=
  match fuel with
  | O => n
  | S fuel' =>
      match compare_scaled 1 (n - 1) m e with
      | Gt => adjust_down fuel' m e (n - 1)
      | _ => n
      end
  end.

Definition magnitude (m e : Z) : Z :=
  let guess := (Z.log2 m + e) * 30103 / 100000 in
  adjust_up 4 m e (adjust_down 4 m e guess).

(** [s * 10^p] rounds to the double [m * 2^e]: it lies between the
    midpoints to the neighbouring doubles, which count when the mantissa is
    even. *)
Definition rounds_to (m e s p : Z) : bool :=
  let narrow := (m =? 2 ^ 52) && (-1074 <? e) in
  let low := 4 * m - (if narrow then 1 else 2) in
  let high := 4 * m + 2 in
  let inclusive := Z.even m in
  match compare_scaled s p low (e - 2) with
  | Gt => true
  | Eq => inclusive
  | Lt => false
  end
  &&
  match compare_scaled s p high (e - 2) with
  | Lt => true
  | Eq => inclusive
  | Gt => false
  end.

(** The digit strings of [k] digits next to the value, and the choice
    between them: the nearer one, the even one when both are as near. *)
Definition shortest_at (m e n k : Z) : option (Z * Z) :=
  let p := n - k in
  let below := (m * 2 ^ Z.max e 0 * 10 ^ Z.max (- p) 0)
               / (10 ^ Z.max p 0 * 2 ^ Z.max (- e) 0) in
  let above := below + 1 in
  let up := if above =? 10 ^ k then (10 ^ (k - 1), n + 1) else (above, n) in
  let ok_below := rounds_to m e below p in
  let ok_above := rounds_to m e above p in
  if ok_below && ok_above then
    match compare_scaled (2 * below + 1) p (2 * m) e with
    | Gt => Some (below, n)
    | Lt => Some up
    | Eq => if Z.even below then Some (below, n) else Some up
    end
  else if ok_below then Some (below, n)
  else if ok_above then Some up
  else None.

Fixpoint shortest (fuel : nat) (m e n k : Z) : Z * Z :=
  match fuel with
  | O => ((m * 2 ^ Z.max e 0 * 10 ^ Z.max (k - n) 0)
          / (10 ^ Z.max (n - k) 0 * 2 ^ Z.max (- e) 0), n)
  | S fuel' =>
      match shortest_at m e n k with
      | Some sn => sn
      | None => shortest fuel' m e n (k + 1)
      end
  end.

Definition zeros (n : Z) : jsstring := repeat 48%N (Z.to_nat n).

(** The text of the positive number [0.s * 10^n]. *)
Definition layout (s n : Z) : jsstring :=
  let ds := digits s in
  let k := Z.of_nat (length ds) in
  if (k <=? n) && (n <=? 21) then ds ++ zeros (n - k)
  else if (0 <? n) && (n <=? 21) then
    take (Z.to_nat n) ds ++ js "." ++ drop (Z.to_nat n) ds
  else if (-6 <? n) && (n <=? 0) then js "0." ++ zeros (- n) ++ ds
  else
    let exponent :=
      (if 0 <=? n - 1 then js "+" else js "-") ++ digits (Z.abs (n - 1)) in
    if k =? 1 then ds ++ js "e" ++ exponent
    else take 1 ds ++ js "." ++ drop 1 ds ++ js "e" ++ exponent.

Definition toString (x : number) : jsstring :=
  match x with
  | NaN => js "NaN"
  | Infinity false => js "Infinity"
  | Infinity true => js "-Infinity"
  | Finite negative mantissa exponent =>
      if (mantissa =? 0)%N then js "0"
      else
        let '(m, e) := normal (Z.of_N mantissa) exponent in
        let n := magnitude m e in
        let '(s, n) := shortest 40 m e n 1 in
        (if negative then js "-" else []) ++ layout s n
  end.

(** [ToUint8(x)], the byte that a typed array stores for [x]: the integer
    part modulo 256, and 0 for [NaN] and the infinities. *)
Definition toUint8 (x : number) : N :=
  match x with
  | NaN | Infinity _ => 0%N
  | Finite negative mantissa exponent =>
      let magnitude :=
        if 0 <=? exponent then Z.of_N mantissa * 2 ^ exponent
        else Z.of_N mantissa / 2 ^ (- exponent) in
      Z.to_N ((if negative then - magnitude else magnitude) mod 256)
  end.

End Number.

Definition num_to_string (x : number) : jsstring := Number.toString x.

(** One lowercase hexadecimal digit. *)
Definition hex_digit (d : N) : N :=
  if d <? 10 then 48 + d else 87 + d.

(** The escape [\uXXXX] of a code unit. *)
Definition unicode_escape (c : N) : jsstring :=
  [92; 117; hex_digit (N.shiftr c 12 mod 16); hex_digit (N.shiftr c 8 mod 16);
   hex_digit (N.shiftr c 4 mod 16); hex_digit (c mod 16)].

Definition is_high_surrogate (c : N) : bool := (0xD800 <=? c) && (c <=? 0xDBFF).
Definition is_low_surrogate (c : N) : bool := (0xDC00 <=? c) && (c <=? 0xDFFF).

(** One code point that is not half of a surrogate pair, as
    [QuoteJSONString] writes it: the short escapes, [\u00XX] for the other
    control characters and for a lone surrogate, and every other character
    as it is (non-ASCII characters included). *)
Definition quote_unit (c : N) : jsstring :=
  if c =? 8 then js "\b"
  else if c =? 9 then js "\t"
  else if c =? 10 then js "\n"
  else if c =? 12 then js "\f"
  else if c =? 13 then js "\r"
  else if c =? 34 then [92; 34]
  else if c =? 92 then [92; 92]
  else if (c <? 32) || is_high_surrogate c || is_low_surrogate c
       then unicode_escape c
  else [c].

Fixpoint quote_units (s : jsstring) : jsstring :=
  match s with
  | [] => []
  | c :: rest =>
      if is_high_surrogate c then
        match rest with
        | lo :: rest' =>
            if is_low_surrogate lo then c :: lo :: quote_units rest'
            else unicode_escape c ++ quote_units rest
        | [] => unicode_escape c
        end
      else quote_unit c ++ quote_units rest
  end.

(** [JSON.stringify(s)] for a string [s]. *)
Definition quote (s : jsstring) : jsstring := [34] ++ quote_units s ++ [34].

(** [JSON.stringify(v)] without indentation; [None] is the [undefined] that
    [JSON.stringify] returns for [undefined]. A property whose value
    serializes to [undefined] is left out; in an array it becomes [null]; a
    number that is not finite is written [null]. *)
Fixpoint stringify (v : value) : option jsstring :=
  match v with
  | JUndefined => None
  | JNull => Some (js "null")
  | JBool true => Some (js "true")
  | JBool false => Some (js "false")
  | JNum (Finite negative mantissa exponent) =>
      Some (num_to_string (Finite negative mantissa exponent))
  | JNum _ => Some (js "null")
  | JStr s => Some (quote s)
  | JArr items =>
      Some (js "[" ++
            join (js ",") (map (fun x => default (js "null") (stringify x)) items)
            ++ js "]")
  | JObj props =>
      Some (js "{" ++
            join (js ",")
              (omap (fun kv => match stringify (snd kv) with
                               | Some s => Some (quote (fst kv) ++ js ":" ++ s)
                               | None => None
                               end) props)
            ++ js "}")
  end.

(** [new TextEncoder().encode(s)]: UTF-8, a surrogate pair as one code
    point, a lone surrogate as U+FFFD. *)
Definition utf8_code_point (c : N) : bytes :=
  if c <? 0x80 then [c]
  else if c <? 0x800 then [0xC0 + N.shiftr c 6; 0x80 + c mod 64]
  else if c <? 0x10000 then
    [0xE0 + N.shiftr c 12; 0x80 + N.shiftr c 6 mod 64; 0x80 + c mod 64]
  else
    [0xF0 + N.shiftr c 18; 0x80 + N.shiftr c 12 mod 64;
     0x80 + N.shiftr c 6 mod 64; 0x80 + c mod 64].

Fixpoint utf8_encode (s : jsstring) : bytes :=
  match s with
  | [] => []
  | c :: rest =>
      if is_high_surrogate c then
        match rest with
        | lo :: rest' =>
            if is_low_surrogate lo then
              utf8_code_point (0x10000 + (c - 0xD800) * 0x400 + (lo - 0xDC00))
              ++ utf8_encode rest'
            else utf8_code_point 0xFFFD ++ utf8_encode rest
        | [] => utf8_code_point 0xFFFD
        end
      else if is_low_surrogate c then utf8_code_point 0xFFFD ++ utf8_encode rest
      else utf8_code_point c ++ utf8_encode rest
  end.

(** [s.toWellFormed()]: every lone surrogate becomes U+FFFD. This is the
    string that comes back from a round trip through UTF-8. *)
Fixpoint toWellFormed (s : jsstring) : jsstring :=
  match s with
  | [] => []
  | c :: rest =>
      if is_high_surrogate c then
        match rest with
        | lo :: rest' =>
            if is_low_surrogate lo then c :: lo :: toWellFormed rest'
            else 0xFFFD :: toWellFormed rest
        | [] => [0xFFFD]
        end
      else if is_low_surrogate c then 0xFFFD :: toWellFormed rest
      else c :: toWellFormed rest
  end.

End JS.
Export JS.

(* ===================================================================== *)
(** * Results, errors and the host interface                              *)
(* ===================================================================== *)

(** The exception classes of [protocol/errors.ts], and the kinds of
    exception that come from outside it: a plain [Error], the [TypeError]
    of a method call on a value that has no such method or of [Buffer.from]
    on a value it does not take, and whatever else a host library
    (libsodium, [JSON.parse], better-sqlite3, the transport) throws. A
    constructor stands for the instances of its class itself: in the source
    [EnvelopeTooLargeError] extends [InvalidEnvelopeError],
    [SignatureVerificationError] extends [SignatureError] and
    [DecryptionError] extends [EncryptionError], and no [instanceof] test
    of the code embedded here meets an instance of a subclass. No code of
    the SDK raises [KeyPinningError]. *)
Inductive error : Type :=
| UAMError (message : jsstring)
| InvalidAddressError (message : jsstring)
| InvalidEnvelopeError (message : jsstring)
| EnvelopeTooLargeError (message : jsstring)
| SignatureError (message : jsstring)
| SignatureVerificationError
| EncryptionError
| DecryptionError
| InvalidContactCardError (message : jsstring)
| KeyPinningError (message : jsstring)
| PlainError (message : jsstring)
| TypeError (message : jsstring)
| HostError.

Inductive result (A : Type) : Type :=
| Ok (a : A)
| Throw (e : error).
Arguments Ok {A} a.
Arguments Throw {A} e.

Definition bind_result {A B} (r : result A) (k : A -> result B) : result B :=
  match r with
  | Ok a => k a
  | Throw e => Throw e
  end.

(** A host call that either returns or throws. *)
Definition host {A} (o : option A) : result A :=
  match o with
  | Some a => Ok a
  | None => Throw HostError
  end.

Declare Scope result_scope.
Delimit Scope result_scope with result.
Notation "x <- r ;; k" := (bind_result r (fun x => k))
  (at level 100, r at next level, right associativity) : result_scope.
Notation "r ;;; k" := (bind_result r (fun _ => k))
  (at level 100, right associativity) : result_scope.

(** What the code calls and the repository does not define: libsodium,
    Node's [Buffer] and [crypto], [JSON.parse], [TextDecoder], and what
    the JavaScript engine and better-sqlite3 do with a value of a type that
    the code does not expect. [None] is a thrown exception. The random
    bytes that libsodium draws are explicit arguments. *)
Class Host : Type := {
  (** [sodium.crypto_sign_seed_keypair(seed)]: (privateKey, publicKey) *)
  crypto_sign_seed_keypair : bytes -> bytes * bytes;
  (** [sodium.crypto_sign_detached(message, privateKey)] *)
  crypto_sign_detached : bytes -> bytes -> option bytes;
  (** [sodium.crypto_sign_verify_detached(signature, message, publicKey)] *)
  crypto_sign_verify_detached : bytes -> bytes -> bytes -> option bool;
  crypto_sign_ed25519_sk_to_curve25519 : bytes -> option bytes;
  crypto_sign_ed25519_pk_to_curve25519 : bytes -> option bytes;
  (** [sodium.crypto_box_easy(message, nonce, publicKey, privateKey)] *)
  crypto_box_easy : bytes -> bytes -> bytes -> bytes -> option bytes;
  (** [sodium.crypto_box_open_easy(ciphertext, nonce, publicKey, privateKey)] *)
  crypto_box_open_easy : bytes -> bytes -> bytes -> bytes -> option bytes;
  (** [sodium.crypto_box_seal(message, publicKey)], with the bytes of the
      ephemeral key pair as first argument *)
  crypto_box_seal : bytes -> bytes -> bytes -> option bytes;
  (** [sodium.crypto_box_seal_open(ciphertext, publicKey, privateKey)] *)
  crypto_box_seal_open : bytes -> bytes -> bytes -> option bytes;
  (** [Buffer.from(data).toString("base64url")] *)
  to_base64url : bytes -> jsstring;
  (** [new Uint8Array(Buffer.from(s, "base64url"))] *)
  from_base64url : jsstring -> bytes;
  (** [createHash("sha256").update(data).digest("hex")] *)
  sha256_hex : bytes -> jsstring;
  (** [JSON.parse(text)] *)
  json_parse : jsstring -> option value;
  (** [new TextDecoder().decode(data)] *)
  text_decode : bytes -> jsstring;
  (** [new Uint8Array(Buffer.from(v, "base64url"))] for an object [v], or
      an array [v] with an element that is no number *)
  buffer_from : value -> option bytes;
  (** The text that a column declared [TEXT] takes for a number that
      better-sqlite3 binds as a [REAL]; [None] when SQLite takes the number
      as [NULL] *)
  sqlite_real_text : number -> option jsstring;
  (** The message of the [TypeError] that the engine or Node throws when
      [name] is called on the value [v], which has no such method, or with
      the value [v], which it does not take *)
  type_error_message : jsstring -> value -> jsstring
}.

(** What the proofs about signatures and encryption assume of the host, for
    key pairs made from 32-byte seeds and 24-byte nonces: the private key is
    the seed followed by the public key; signing, key conversion and
    encryption return; a signature verifies under the public key of its
    pair; a box opens with the converse keys and a sealed box with the
    recipient's pair; base64url decoding inverts encoding. *)
Class HostLaws (H : Host) : Prop := {
  keypair_layout : forall seed,
    length seed = 32%nat ->
    fst (crypto_sign_seed_keypair seed)
    = seed ++ snd (crypto_sign_seed_keypair seed);
  sign_defined : forall seed m,
    length seed = 32%nat ->
    is_Some (crypto_sign_detached m (fst (crypto_sign_seed_keypair seed)));
  sign_verify : forall seed m s,
    length seed = 32%nat ->
    crypto_sign_detached m (fst (crypto_sign_seed_keypair seed)) = Some s ->
    crypto_sign_verify_detached s m (snd (crypto_sign_seed_keypair seed))
    = Some true;
  curve_defined : forall seed,
    length seed = 32%nat ->
    is_Some (crypto_sign_ed25519_sk_to_curve25519
               (fst (crypto_sign_seed_keypair seed))) /\
    is_Some (crypto_sign_ed25519_pk_to_curve25519
               (snd (crypto_sign_seed_keypair seed)));
  box_defined : forall seedA seedB m n skA pkB,
    length seedA = 32%nat -> length seedB = 32%nat -> length n = 24%nat ->
    crypto_sign_ed25519_sk_to_curve25519 (fst (crypto_sign_seed_keypair seedA))
    = Some skA ->
    crypto_sign_ed25519_pk_to_curve25519 (snd (crypto_sign_seed_keypair seedB))
    = Some pkB ->
    is_Some (crypto_box_easy m n pkB skA);
  box_open : forall seedA seedB m n skA pkA skB pkB c,
    length seedA = 32%nat -> length seedB = 32%nat -> length n = 24%nat ->
    crypto_sign_ed25519_sk_to_curve25519 (fst (crypto_sign_seed_keypair seedA))
    = Some skA ->
    crypto_sign_ed25519_pk_to_curve25519 (snd (crypto_sign_seed_keypair seedA))
    = Some pkA ->
    crypto_sign_ed25519_sk_to_curve25519 (fst (crypto_sign_seed_keypair seedB))
    = Some skB ->
    crypto_sign_ed25519_pk_to_curve25519 (snd (crypto_sign_seed_keypair seedB))
    = Some pkB ->
    crypto_box_easy m n pkB skA = Some c ->
    crypto_box_open_easy c n pkA skB = Some m;
  seal_defined : forall seedB eph m pkB,
    length seedB = 32%nat ->
    crypto_sign_ed25519_pk_to_curve25519 (snd (crypto_sign_seed_keypair seedB))
    = Some pkB ->
    is_Some (crypto_box_seal eph m pkB);
  seal_open : forall seedB eph m skB pkB c,
    length seedB = 32%nat ->
    crypto_sign_ed25519_sk_to_curve25519 (fst (crypto_sign_seed_keypair seedB))
    = Some skB ->
    crypto_sign_ed25519_pk_to_curve25519 (snd (crypto_sign_seed_keypair seedB))
    = Some pkB ->
    crypto_box_seal eph m pkB = Some c ->
    crypto_box_seal_open c pkB skB = Some m;
  base64url_decode_encode : forall data,
    from_base64url (to_base64url data) = data
}.

(** Typing. The annotations of TypeScript are erased: a field of a wire
    document holds whatever value the document has, and the SDK hands it on
    to string methods, to [Buffer.from] and to better-sqlite3. A function
    named [f_any] is the function [f] of the source applied to a value of
    any type, where [f] itself has the arguments that the source declares;
    on a string [f_any] is [f]. *)

(** [v.m(...)] for a string method [name]: the string, or the [TypeError]
    of the call on a value that is no string. *)
Definition string_method {H : Host} (name : jsstring) (v : value)
    : result jsstring :=
  match v with
  | JStr s => Ok s
  | _ => Throw (TypeError (type_error_message name v))
  end.

(* ===================================================================== *)
(** * protocol/types.ts                                                   *)
(* ===================================================================== *)

Module Types.

Definition UAM_VERSION : jsstring := js "0.1".

Definition MAX_ENVELOPE_SIZE : N := 65536.

Module MessageType.
Definition MESSAGE := js "message".
Definition HANDSHAKE_REQUEST := js "handshake.request".
Definition HANDSHAKE_ACCEPT := js "handshake.accept".
Definition HANDSHAKE_DENY := js "handshake.deny".
Definition RECEIPT_DELIVERED := js "receipt.delivered".
Definition RECEIPT_READ := js "receipt.read".
Definition RECEIPT_FAILED := js "receipt.failed".
Definition SESSION_REQUEST := js "session.request".
Definition SESSION_ACCEPT := js "session.accept".
Definition SESSION_DECLINE := js "session.decline".
Definition SESSION_END := js "session.end".

(** The enumeration, in declaration order. *)
Definition all : list jsstring :=
  [MESSAGE; HANDSHAKE_REQUEST; HANDSHAKE_ACCEPT; HANDSHAKE_DENY;
   RECEIPT_DELIVERED; RECEIPT_READ; RECEIPT_FAILED;
   SESSION_REQUEST; SESSION_ACCEPT; SESSION_DECLINE; SESSION_END].
End MessageType.

Section WithHost.
Context {H : Host}.

Definition b64Encode (data : bytes) : jsstring := to_base64url data.

Definition b64Decode (s : jsstring) : bytes := from_base64url s.

(** The numbers of an array of numbers. *)
Definition numbers (items : list value) : option (list number) :=
  mapM (fun v => match v with JNum x => Some x | _ => None end) items.

(** [b64Decode(v)] for a value of any type: the annotation [s: string] is
    erased, and [Buffer.from] takes an array as the bytes themselves (each
    number by [ToUint8]), an object as the host reads it, and throws a
    [TypeError] for [undefined], [null], a boolean or a number. *)
Definition b64Decode_any (v : value) : result bytes :=
  match v with
  | JStr s => Ok (b64Decode s)
  | JArr items =>
      match numbers items with
      | Some xs => Ok (map Number.toUint8 xs)
      | None => host (buffer_from v)
      end
  | JObj _ => host (buffer_from v)
  | _ => Throw (TypeError (type_error_message (js "Buffer.from") v))
  end.

End WithHost.

End Types.
Export Types.

(* ===================================================================== *)
(** * protocol/crypto.ts                                                  *)
(* ===================================================================== *)

Module Crypto.

(** [sortedStringify]. The object case renders every property value once and
    then writes the properties in the order of the sorted keys;
    [sortedStringify_object] states it the way the source reads, with
    [sortedStringify(obj[k])] under the sorted keys. *)
Fixpoint sortedStringify (v : value) : jsstring :=
  match v with
  | JNull | JUndefined => js "null"
  | JStr s => quote s
  | JNum x => num_to_string x
  | JBool true => js "true"
  | JBool false => js "false"
  | JArr items =>
      js "[" ++ join (js ",") (map sortedStringify items) ++ js "]"
  | JObj obj =>
      let rendered := map (fun kv => (fst kv, sortedStringify (snd kv))) obj in
      let ks := array_sort (obj_keys obj) in
      let pairs :=
        map (fun k => quote k ++ js ":" ++
                      default (js "null") (snd <$> find (fun kr => str_eqb (fst kr) k) rendered))
            ks in
      js "{" ++ join (js ",") pairs ++ js "}"
  end.

(** The loop of [canonicalize] that fills [filtered]. *)
Definition canonical_filter (data : object) : object :=
  fold_left
    (fun filtered kv =>
       if negb (str_eqb (fst kv) (js "signature"))
          && negb (is_null (snd kv)) && negb (is_undefined (snd kv))
       then obj_set filtered (fst kv) (snd kv)
       else filtered)
    data [].

Definition canonicalize (data : object) : bytes :=
  let filtered := canonical_filter data in
  let json := sortedStringify (JObj filtered) in
  utf8_encode json.

Section WithHost.
Context {H : Host}.

Definition serializeVerifyKey (key : bytes) : jsstring := b64Encode key.

Definition deserializeVerifyKey (s : jsstring) : bytes := b64Decode s.

Definition publicKeyFingerprint (verifyKey : bytes) : jsstring :=
  sha256_hex verifyKey.

(** [signMessage]: a libsodium exception is not caught. *)
Definition signMessage (data signingKey : bytes) : result jsstring :=
  (signature <- host (crypto_sign_detached data signingKey) ;;
   Ok (b64Encode signature))%result.

(** [deserializeVerifyKey(v)] for a value of any type. *)
Definition deserializeVerifyKey_any (v : value) : result bytes := b64Decode_any v.

(** [verifySignature]: every exception of the body becomes a
    [SignatureVerificationError]. The signature is whatever the envelope
    holds. *)
Definition verifySignature (data : bytes) (signatureB64 : value)
    (verifyKey : bytes) : result unit :=
  match b64Decode_any signatureB64 with
  | Ok sigBytes =>
      match crypto_sign_verify_detached sigBytes data verifyKey with
      | Some true => Ok tt
      | Some false => Throw SignatureVerificationError
      | None => Throw SignatureVerificationError
      end
  | Throw _ => Throw SignatureVerificationError
  end.

(** [generateNonce], with the 24 random bytes as argument. *)
Definition generateNonce (random24 : bytes) : jsstring := b64Encode random24.

(** [encryptPayload], with the random nonce as argument. *)
Definition encryptPayload (nonce plaintext senderSigningKey recipientVerifyKey : bytes)
    : result jsstring :=
  match crypto_sign_ed25519_sk_to_curve25519 senderSigningKey with
  | None => Throw EncryptionError
  | Some senderCurve =>
      match crypto_sign_ed25519_pk_to_curve25519 recipientVerifyKey with
      | None => Throw EncryptionError
      | Some recipientCurve =>
          match crypto_box_easy plaintext nonce recipientCurve senderCurve with
          | None => Throw EncryptionError
          | Some encrypted => Ok (b64Encode (nonce ++ encrypted))
          end
      end
  end.

(** [sodium.crypto_box_NONCEBYTES] *)
Definition crypto_box_NONCEBYTES : nat := 24.

(** [decryptPayload]: every exception of the body becomes a
    [DecryptionError]. *)
Definition decryptPayload (ciphertextB64 : value)
    (recipientSigningKey senderVerifyKey : bytes) : result bytes :=
  match b64Decode_any ciphertextB64 with
  | Ok combined =>
      let nonce := take crypto_box_NONCEBYTES combined in
      let ciphertext := drop crypto_box_NONCEBYTES combined in
      match crypto_sign_ed25519_sk_to_curve25519 recipientSigningKey with
      | None => Throw DecryptionError
      | Some recipientCurve =>
          match crypto_sign_ed25519_pk_to_curve25519 senderVerifyKey with
          | None => Throw DecryptionError
          | Some senderCurve =>
              match crypto_box_open_easy ciphertext nonce senderCurve recipientCurve with
              | None => Throw DecryptionError
              | Some plaintext => Ok plaintext
              end
          end
      end
  | Throw _ => Throw DecryptionError
  end.

(** [encryptPayloadAnonymous], with the bytes of the ephemeral key pair as
    argument; a libsodium exception is not caught. *)
Definition encryptPayloadAnonymous (ephemeral plaintext recipientVerifyKey : bytes)
    : result jsstring :=
  (recipientCurve <- host (crypto_sign_ed25519_pk_to_curve25519 recipientVerifyKey) ;;
   ciphertext <- host (crypto_box_seal ephemeral plaintext recipientCurve) ;;
   Ok (b64Encode ciphertext))%result.

(** [decryptPayloadAnonymous] *)
Definition decryptPayloadAnonymous (ciphertextB64 : value)
    (recipientSigningKey : bytes) : result bytes :=
  match b64Decode_any ciphertextB64 with
  | Ok ciphertext =>
      match crypto_sign_ed25519_sk_to_curve25519 recipientSigningKey with
      | None => Throw DecryptionError
      | Some recipientCurveSk =>
          let recipientVerifyKey := drop 32 recipientSigningKey in
          match crypto_sign_ed25519_pk_to_curve25519 recipientVerifyKey with
          | None => Throw DecryptionError
          | Some recipientCurvePk =>
              match crypto_box_seal_open ciphertext recipientCurvePk recipientCurveSk with
              | None => Throw DecryptionError
              | Some plaintext => Ok plaintext
              end
          end
      end
  | Throw _ => Throw DecryptionError
  end.

End WithHost.

End Crypto.
Export Crypto.

(* ===================================================================== *)
(** * protocol/address.ts                                                 *)
(* ===================================================================== *)

Module Address.

Record Address : Type := {
  agent : jsstring;
  domain : jsstring
}.

(** The getter [full]. *)
Definition full (a : Address) : jsstring := agent a ++ js "::" ++ domain a.

Definition MAX_AGENT_LEN : nat := 64.
Definition MAX_ADDRESS_LEN : nat := 128.

(** White space and line terminators, which [String.prototype.trim] strips. *)
Definition is_white_space (c : N) : bool :=
  ((9 <=? c) && (c <=? 13)) || (c =? 32) || (c =? 0xA0) || (c =? 0x1680)
  || ((0x2000 <=? c) && (c <=? 0x200A)) || (c =? 0x2028) || (c =? 0x2029)
  || (c =? 0x202F) || (c =? 0x205F) || (c =? 0x3000) || (c =? 0xFEFF).

Fixpoint trimStart (s : jsstring) : jsstring :=
  match s with
  | c :: rest => if is_white_space c then trimStart rest else s
  | [] => []
  end.

(** [raw.trim()] *)
Definition trim (s : jsstring) : jsstring :=
  rev (trimStart (rev (trimStart s))).

(** [s.toLowerCase()], as far as [parseAddress] can observe it: ASCII
    capitals, the Kelvin sign (which lowers to [k]) and the dotted capital I
    (which lowers to [i] and a combining dot) are mapped; every other
    character lowers to a character outside ASCII of the same length, and is
    left as it is. *)
Definition lower_unit (c : N) : jsstring :=
  if (65 <=? c) && (c <=? 90) then [c + 32]
  else if c =? 0x212A then [107]
  else if c =? 0x130 then [105; 0x307]
  else [c].

Definition toLowerCase (s : jsstring) : jsstring := concat (map lower_unit s).

Definition is_alnum (c : N) : bool :=
  ((97 <=? c) && (c <=? 122)) || ((48 <=? c) && (c <=? 57)).

(** [[a-z0-9_-]] *)
Definition is_agent_char (c : N) : bool := is_alnum c || (c =? 95) || (c =? 45).

(** [[a-z0-9.-]] *)
Definition is_domain_char (c : N) : bool := is_alnum c || (c =? 46) || (c =? 45).

(** A non-empty run of [inner] characters of at most [max] characters that
    starts and ends with [[a-z0-9]]: the shape of both groups of
    [ADDRESS_RE]. *)
Definition label (inner : N -> bool) (max : nat) (s : jsstring) : bool :=
  match s with
  | [] => false
  | first :: _ =>
      is_alnum first && is_alnum (List.last s 0) && forallb inner s
      && (length s <=? max)%nat
  end.

Fixpoint span_agent (s : jsstring) : jsstring * jsstring :=
  match s with
  | c :: rest =>
      if is_agent_char c
      then let '(a, r) := span_agent rest in (c :: a, r)
      else ([], s)
  | [] => ([], [])
  end.

(** [ADDRESS_RE.exec(s)]: the groups [agent] and [domain]. No agent character
    is a colon, so the agent group is the longest run of agent characters at
    the start, and the match is the only one possible. *)
Definition ADDRESS_RE_exec (s : jsstring) : option (jsstring * jsstring) :=
  let '(a, rest) := span_agent s in
  if label is_agent_char 64 a && startsWith (js "::") rest
     && label is_domain_char 255 (drop 2 rest)
  then Some (a, drop 2 rest)
  else None.

Definition parseAddress (raw : jsstring) : result Address :=
  let normalized := toLowerCase (trim raw) in
  if (MAX_ADDRESS_LEN <? length normalized)%nat then
    Throw (InvalidAddressError
             (js "Address exceeds 128 characters: " ++ quote raw))
  else
    match ADDRESS_RE_exec normalized with
    | None =>
        Throw (InvalidAddressError (js "Invalid UAM address: " ++ quote raw))
    | Some (a, d) =>
        if (MAX_AGENT_LEN <? length a)%nat then
          Throw (InvalidAddressError
                   (js "Agent name exceeds 64 characters: " ++ quote raw))
        else Ok {| agent := a; domain := d |}
    end.

Section WithHost.
Context {H : Host}.

(** [parseAddress(v)] for a value of any type: the annotation
    [raw: string] is erased, and [raw.trim()] throws a [TypeError] for a
    value that is no string. *)
Definition parseAddress_any (raw : value) : result Address :=
  (raw <- string_method (js "trim") raw ;; parseAddress raw)%result.

End WithHost.

End Address.
Export Address.

(* ===================================================================== *)
(** * protocol/envelope.ts                                                *)
(* ===================================================================== *)

Module Envelope.

Definition REQUIRED_WIRE_FIELDS : list jsstring :=
  [js "uam_version"; js "message_id"; js "from"; js "to"; js "timestamp";
   js "type"; js "nonce"; js "payload"; js "signature"].

(** [MessageEnvelope]. The interface is a compile-time annotation: a field
    holds whatever value the wire dict had, and [JUndefined] when an
    optional field is absent. *)
Record MessageEnvelope : Type := {
  uamVersion : value;
  messageId : value;
  fromAddress : value;
  toAddress : value;
  timestamp : value;
  type : value;
  nonce : value;
  payload : value;
  signature : value;
  threadId : value;
  replyTo : value;
  expires : value;
  mediaType : value;
  metadata : value;
  attachments : value
}.

(** [if (x !== undefined) d[k] = x] *)
Definition set_if_defined (d : object) (k : jsstring) (x : value) : object :=
  if negb (is_undefined x) then obj_set d k x else d.

Definition buildSignableDict (envelope : MessageEnvelope) : object :=
  let d : object :=
    [(js "uam_version", uamVersion envelope);
     (js "message_id", messageId envelope);
     (js "from", fromAddress envelope);
     (js "to", toAddress envelope);
     (js "timestamp", timestamp envelope);
     (js "type", type envelope);
     (js "nonce", nonce envelope);
     (js "payload", payload envelope)] in
  let d := set_if_defined d (js "thread_id") (threadId envelope) in
  let d := set_if_defined d (js "reply_to") (replyTo envelope) in
  let d := set_if_defined d (js "expires") (expires envelope) in
  let d := set_if_defined d (js "media_type") (mediaType envelope) in
  let d := set_if_defined d (js "metadata") (metadata envelope) in
  d.

Definition toWireDict (envelope : MessageEnvelope) : object :=
  let d := buildSignableDict envelope in
  let d := obj_set d (js "signature") (signature envelope) in
  let d := set_if_defined d (js "attachments") (attachments envelope) in
  d.

(** The loop of [fromWireDict] that collects the missing fields. *)
Definition missing_fields (required : list jsstring) (d : object) : list jsstring :=
  List.filter (fun field => negb (obj_has d field)) required.

Definition fromWireDict (d : object) : result MessageEnvelope :=
  let missing := missing_fields REQUIRED_WIRE_FIELDS d in
  if (0 <? length missing)%nat then
    let missing := array_sort missing in
    Throw (InvalidEnvelopeError
             (js "Missing required fields: " ++
              default [] (stringify (JArr (map JStr missing)))))
  else
    Ok {| uamVersion := obj_get d (js "uam_version");
          messageId := obj_get d (js "message_id");
          fromAddress := obj_get d (js "from");
          toAddress := obj_get d (js "to");
          timestamp := obj_get d (js "timestamp");
          type := obj_get d (js "type");
          nonce := obj_get d (js "nonce");
          payload := obj_get d (js "payload");
          signature := obj_get d (js "signature");
          threadId := obj_get d (js "thread_id");
          replyTo := obj_get d (js "reply_to");
          expires := obj_get d (js "expires");
          mediaType := obj_get d (js "media_type");
          metadata := obj_get d (js "metadata");
          attachments := obj_get d (js "attachments") |}.

(** The size that [validateEnvelopeSize] measures: the UTF-8 length of the
    wire JSON. *)
Definition wire_size (envelope : MessageEnvelope) : N :=
  let wire := toWireDict envelope in
  let json := default [] (stringify (JObj wire)) in
  N.of_nat (length (utf8_encode json)).

Definition validateEnvelopeSize (envelope : MessageEnvelope) : result unit :=
  let size := wire_size envelope in
  if MAX_ENVELOPE_SIZE <? size then
    Throw (EnvelopeTooLargeError
             (js "Envelope size " ++ num_to_string (int (Z.of_N size)) ++
              js " bytes exceeds maximum " ++
              num_to_string (int (Z.of_N MAX_ENVELOPE_SIZE)) ++ js " bytes"))
  else Ok tt.

(** The [options] argument of [createEnvelope]; [JUndefined] for an option
    that is not given. *)
Record EnvelopeOptions : Type := {
  opt_threadId : value;
  opt_replyTo : value;
  opt_expires : value;
  opt_mediaType : value;
  opt_metadata : value;
  opt_attachments : value
}.

Definition no_options : EnvelopeOptions :=
  {| opt_threadId := JUndefined; opt_replyTo := JUndefined;
     opt_expires := JUndefined; opt_mediaType := JUndefined;
     opt_metadata := JUndefined; opt_attachments := JUndefined |}.

(** What one call of [createEnvelope] draws from its environment:
    [randomUUID()], the 24 bytes of [generateNonce], the clock reading of
    [utcTimestamp], and the random bytes libsodium uses for the box nonce
    and for the ephemeral key of a sealed box. *)
Record Entropy : Type := {
  uuid : jsstring;
  nonce_bytes : bytes;
  clock_iso : jsstring;
  box_nonce : bytes;
  seal_ephemeral : bytes
}.

Section WithHost.
Context {H : Host}.

Definition createEnvelope (rnd : Entropy)
    (fromAddress toAddress messageType : jsstring)
    (payloadPlaintext signingKey recipientVerifyKey : bytes)
    (options : EnvelopeOptions) : result MessageEnvelope :=
  (let typeValue := messageType in
   (* Step 1: Validate addresses *)
   _ <- parseAddress fromAddress ;;
   _ <- parseAddress toAddress ;;
   (* Step 2: Generate identifiers *)
   let messageId := uuid rnd in
   let nonce := generateNonce (nonce_bytes rnd) in
   let timestamp := clock_iso rnd in
   (* Step 3: Encrypt payload *)
   encryptedPayload <-
     (if str_eqb typeValue MessageType.HANDSHAKE_REQUEST
      then encryptPayloadAnonymous (seal_ephemeral rnd) payloadPlaintext
             recipientVerifyKey
      else encryptPayload (box_nonce rnd) payloadPlaintext signingKey
             recipientVerifyKey) ;;
   let tempEnvelope :=
     {| uamVersion := JStr UAM_VERSION;
        messageId := JStr messageId;
        fromAddress := JStr fromAddress;
        toAddress := JStr toAddress;
        timestamp := JStr timestamp;
        type := JStr typeValue;
        nonce := JStr nonce;
        payload := JStr encryptedPayload;
        signature := JStr [];
        threadId := opt_threadId options;
        replyTo := opt_replyTo options;
        expires := opt_expires options;
        mediaType := opt_mediaType options;
        metadata := opt_metadata options;
        attachments := opt_attachments options |} in
   (* Step 4: Build signable dict, canonicalize, and sign *)
   let signable := buildSignableDict tempEnvelope in
   signature <- signMessage (canonicalize signable) signingKey ;;
   (* Step 5: Build final envelope *)
   let finalEnvelope :=
     {| uamVersion := JStr UAM_VERSION;
        messageId := JStr messageId;
        fromAddress := JStr fromAddress;
        toAddress := JStr toAddress;
        timestamp := JStr timestamp;
        type := JStr typeValue;
        nonce := JStr nonce;
        payload := JStr encryptedPayload;
        signature := JStr signature;
        threadId := opt_threadId options;
        replyTo := opt_replyTo options;
        expires := opt_expires options;
        mediaType := opt_mediaType options;
        metadata := opt_metadata options;
        attachments := opt_attachments options |} in
   (* Step 6: Validate size *)
   _ <- validateEnvelopeSize finalEnvelope ;;
   Ok finalEnvelope)%result.

(** [createEnvelope] with a recipient address of any type: after the
    sender's address has been parsed, [parseAddress(toAddress)] throws a
    [TypeError] for a value that is no string. *)
Definition createEnvelope_any (rnd : Entropy) (fromAddress : jsstring)
    (toAddress : value) (messageType : jsstring)
    (payloadPlaintext signingKey recipientVerifyKey : bytes)
    (options : EnvelopeOptions) : result MessageEnvelope :=
  (_ <- parseAddress fromAddress ;;
   toAddress <- string_method (js "trim") toAddress ;;
   createEnvelope rnd fromAddress toAddress messageType payloadPlaintext
     signingKey recipientVerifyKey options)%result.

Definition verifyEnvelope (envelope : MessageEnvelope) (senderVerifyKey : bytes)
    : result unit :=
  let signable := buildSignableDict envelope in
  verifySignature (canonicalize signable) (signature envelope) senderVerifyKey.

End WithHost.

End Envelope.
Export Envelope.

(* ===================================================================== *)
(** * protocol/contact-card.ts                                            *)
(* ===================================================================== *)

(** [v === s] for a string literal [s] *)
Definition is_str (v : value) (s : jsstring) : bool :=
  match v with
  | JStr x => str_eqb x s
  | _ => false
  end.

Module ContactCard.

Record ContactCard : Type := {
  version : value;
  address : value;
  displayName : value;
  description : value;
  system : value;
  connectionEndpoint : value;
  relay : value;
  publicKey : value;
  signature : value;
  verifiedDomain : value;
  payloadFormats : value;
  fingerprint : value;
  relays : value
}.

Definition buildSignableDict (card : ContactCard) : object :=
  let d : object :=
    [(js "version", version card);
     (js "address", address card);
     (js "display_name", displayName card);
     (js "relay", relay card);
     (js "public_key", publicKey card)] in
  let d := set_if_defined d (js "description") (description card) in
  let d := set_if_defined d (js "system") (system card) in
  let d := set_if_defined d (js "connection_endpoint") (connectionEndpoint card) in
  let d := set_if_defined d (js "verified_domain") (verifiedDomain card) in
  d.

Definition contactCardToDict (card : ContactCard) : object :=
  let d := buildSignableDict card in
  let d := obj_set d (js "signature") (signature card) in
  let d := set_if_defined d (js "payload_formats") (payloadFormats card) in
  let d := set_if_defined d (js "fingerprint") (fingerprint card) in
  let d := set_if_defined d (js "relays") (relays card) in
  d.

Definition required : list jsstring :=
  [js "version"; js "address"; js "display_name"; js "relay";
   js "public_key"; js "signature"].

Section WithHost.
Context {H : Host}.

(** [err instanceof Error ? err.message : String(err)] for the exception
    that [parseAddress(card.address)] raises: an [InvalidAddressError] or a
    [TypeError]. *)
Definition error_message (e : error) : jsstring :=
  match e with
  | InvalidAddressError m | InvalidEnvelopeError m | EnvelopeTooLargeError m
  | InvalidContactCardError m | UAMError m | PlainError m
  | SignatureError m | KeyPinningError m | TypeError m => m
  | _ => []
  end.

Definition verifyContactCard (card : ContactCard) : result unit :=
  match parseAddress_any (address card) with
  | Throw err =>
      Throw (InvalidContactCardError
               (js "Invalid address in contact card: " ++ error_message err))
  | Ok _ =>
      (vk <- deserializeVerifyKey_any (publicKey card) ;;
       let signable := buildSignableDict card in
       verifySignature (canonicalize signable) (signature card) vk)%result
  end.

(** [contactCardFromDict(d, { verify })] *)
Definition contactCardFromDict (d : object) (verify : bool) : result ContactCard :=
  let missing := missing_fields required d in
  if (0 <? length missing)%nat then
    let missing := array_sort missing in
    Throw (InvalidContactCardError
             (js "Missing required fields: " ++
              default [] (stringify (JArr (map JStr missing)))))
  else
    let card :=
      {| version := obj_get d (js "version");
         address := obj_get d (js "address");
         displayName := obj_get d (js "display_name");
         description := obj_get d (js "description");
         system := obj_get d (js "system");
         connectionEndpoint := obj_get d (js "connection_endpoint");
         relay := obj_get d (js "relay");
         publicKey := obj_get d (js "public_key");
         signature := obj_get d (js "signature");
         verifiedDomain := obj_get d (js "verified_domain");
         payloadFormats := obj_get d (js "payload_formats");
         fingerprint := obj_get d (js "fingerprint");
         relays := obj_get d (js "relays") |} in
    (_ <- (if verify then verifyContactCard card else Ok tt) ;;
     Ok card)%result.

(** [createContactCard] without options. *)
Definition createContactCard (address displayName relay : jsstring)
    (signingKey : bytes) : result ContactCard :=
  (_ <- parseAddress address ;;
   let verifyKey := drop 32 signingKey in
   let pubKeyB64 := serializeVerifyKey verifyKey in
   let fp := publicKeyFingerprint verifyKey in
   let payloadFormats :=
     JArr [JStr (js "text/plain"); JStr (js "text/markdown")] in
   let tempCard :=
     {| version := JStr UAM_VERSION;
        address := JStr address;
        displayName := JStr displayName;
        description := JUndefined;
        system := JUndefined;
        connectionEndpoint := JUndefined;
        relay := JStr relay;
        publicKey := JStr pubKeyB64;
        signature := JStr [];
        verifiedDomain := JUndefined;
        payloadFormats := payloadFormats;
        fingerprint := JStr fp;
        relays := JUndefined |} in
   let signable := buildSignableDict tempCard in
   signature <- signMessage (canonicalize signable) signingKey ;;
   Ok {| version := JStr UAM_VERSION;
         address := JStr address;
         displayName := JStr displayName;
         description := JUndefined;
         system := JUndefined;
         connectionEndpoint := JUndefined;
         relay := JStr relay;
         publicKey := JStr pubKeyB64;
         signature := JStr signature;
         verifiedDomain := JUndefined;
         payloadFormats := payloadFormats;
         fingerprint := JStr fp;
         relays := JUndefined |})%result.

End WithHost.

End ContactCard.

(* ===================================================================== *)
(** * sdk/contact-book.ts                                                 *)
(* ===================================================================== *)

Module ContactBook.

(** A row of the table [contacts]; times are clock readings in seconds. *)
Record ContactRow : Type := {
  public_key : jsstring;
  display_name : option jsstring;
  trust_state : jsstring;
  trust_source : option jsstring;
  relay : option jsstring;
  relays_json : option jsstring;
  pinned_at : option N;
  first_seen : N;
  last_seen : N
}.

(** A row of the table [pending_handshakes], which is also the entry that
    [getPending] returns for it. The address is [None] for [NULL], which
    the primary key of a table with row ids admits. *)
Record PendingEntry : Type := {
  entry_address : option jsstring;
  contactCard : jsstring;
  receivedAt : N
}.

(** The SQLite file. The tables [contacts] and [blocked_patterns] are maps
    from their primary key: the statements embedded here read their rows by
    key or as a set, and none of them reads a row of [contacts] whose
    address is [NULL], which is left out. The table [pending_handshakes] is
    the list of its rows by row id, the order in which the [SELECT] of
    [getPending] reads them. *)
Record Database : Type := {
  contacts : gmap jsstring ContactRow;
  pending_handshakes : list PendingEntry;
  (** pattern to [blocked_at] *)
  blocked_patterns : gmap jsstring N
}.

Definition empty_database : Database :=
  {| contacts := ∅; pending_handshakes := []; blocked_patterns := ∅ |}.

(** The text that SQLite keeps for a string: better-sqlite3 hands it over in
    UTF-8, in which a lone surrogate is written as U+FFFD. *)
Definition TEXT (s : jsstring) : jsstring := toWellFormed s.

(** The object: [db] is the file on disk, [_db] tells whether the handle
    [this._db] is open (not [null]). The three sets hold strings as
    JavaScript compares them. *)
Record ContactBook : Type := {
  db : Database;
  _db : bool;
  _knownAddresses : gset jsstring;
  _blockedExact : gset jsstring;
  _blockedDomains : gset jsstring
}.

(** [new ContactBook(dataDir)] over the file [file]. *)
Definition new (file : Database) : ContactBook :=
  {| db := file; _db := false; _knownAddresses := ∅;
     _blockedExact := ∅; _blockedDomains := ∅ |}.

Definition _cacheBlockPattern (pattern : jsstring) (book : ContactBook) : ContactBook :=
  if startsWith (js "*::") pattern then
    {| db := db book; _db := _db book;
       _knownAddresses := _knownAddresses book;
       _blockedExact := _blockedExact book;
       _blockedDomains := {[ drop 3 pattern ]} ∪ _blockedDomains book |}
  else
    {| db := db book; _db := _db book;
       _knownAddresses := _knownAddresses book;
       _blockedExact := {[ pattern ]} ∪ _blockedExact book;
       _blockedDomains := _blockedDomains book |}.

Definition _uncacheBlockPattern (pattern : jsstring) (book : ContactBook) : ContactBook :=
  if startsWith (js "*::") pattern then
    {| db := db book; _db := _db book;
       _knownAddresses := _knownAddresses book;
       _blockedExact := _blockedExact book;
       _blockedDomains := _blockedDomains book ∖ {[ drop 3 pattern ]} |}
  else
    {| db := db book; _db := _db book;
       _knownAddresses := _knownAddresses book;
       _blockedExact := _blockedExact book ∖ {[ pattern ]};
       _blockedDomains := _blockedDomains book |}.

(** [open()]: the tables exist in [db]; the caches are loaded from them. *)
Definition open (book : ContactBook) : ContactBook :=
  let loaded :=
    {| db := db book; _db := true;
       _knownAddresses := dom (contacts (db book));
       _blockedExact := ∅; _blockedDomains := ∅ |} in
  fold_left (fun book pattern => _cacheBlockPattern pattern book)
    (map fst (map_to_list (blocked_patterns (db book)))) loaded.

Definition close (book : ContactBook) : ContactBook :=
  {| db := db book; _db := false;
     _knownAddresses := _knownAddresses book;
     _blockedExact := _blockedExact book;
     _blockedDomains := _blockedDomains book |}.

Definition with_contacts (book : ContactBook)
    (contacts' : gmap jsstring ContactRow) : ContactBook :=
  {| db := {| contacts := contacts';
              pending_handshakes := pending_handshakes (db book);
              blocked_patterns := blocked_patterns (db book) |};
     _db := _db book;
     _knownAddresses := _knownAddresses book;
     _blockedExact := _blockedExact book;
     _blockedDomains := _blockedDomains book |}.

Definition with_pending (book : ContactBook)
    (pending' : list PendingEntry) : ContactBook :=
  {| db := {| contacts := contacts (db book);
              pending_handshakes := pending';
              blocked_patterns := blocked_patterns (db book) |};
     _db := _db book;
     _knownAddresses := _knownAddresses book;
     _blockedExact := _blockedExact book;
     _blockedDomains := _blockedDomains book |}.

Definition with_blocked (book : ContactBook)
    (blocked' : gmap jsstring N) : ContactBook :=
  {| db := {| contacts := contacts (db book);
              pending_handshakes := pending_handshakes (db book);
              blocked_patterns := blocked' |};
     _db := _db book;
     _knownAddresses := _knownAddresses book;
     _blockedExact := _blockedExact book;
     _blockedDomains := _blockedDomains book |}.

Definition not_open {A} : result A :=
  Throw (PlainError (js "ContactBook not open. Call open() first.")).

(** SQL [COALESCE(a, b)] *)
Definition COALESCE {A} (a b : option A) : option A :=
  match a with
  | Some _ => a
  | None => b
  end.

(** ** The statements

    The SQL statements of the class on their bound parameters: a parameter
    is the text of a string, or [None] for [NULL]. *)

(** [SELECT ... FROM contacts WHERE address = ?]: no row has an address
    equal to [NULL]. *)
Definition select_contact (file : Database) (address : option jsstring)
    : option ContactRow :=
  a ← address; contacts file !! a.

(** [INSERT INTO contacts (...) VALUES (?, ?, ?, ?, ?, ?, ?) ON
    CONFLICT(address) DO UPDATE SET ...] at clock reading [now]. The
    columns [public_key] and [trust_state] are [NOT NULL]: SQLite refuses
    the row otherwise. A row with the address [NULL] conflicts with no
    row and is inserted; the table of the model leaves it out. *)
Definition upsert_contact (now : N) (file : Database)
    (address publicKey displayName trustState trustSource relay relaysJson
       : option jsstring) : result Database :=
  match publicKey, trustState with
  | Some publicKey, Some trustState =>
      match address with
      | None => Ok file
      | Some address =>
          let row :=
            match contacts file !! address with
            | None =>
                {| public_key := publicKey;
                   display_name := displayName;
                   trust_state := trustState;
                   trust_source := trustSource;
                   relay := relay;
                   relays_json := relaysJson;
                   pinned_at := None;
                   first_seen := now;
                   last_seen := now |}
            | Some old =>
                {| public_key := publicKey;
                   display_name := displayName;
                   trust_state := trustState;
                   trust_source := COALESCE trustSource (trust_source old);
                   relay := COALESCE relay (ContactBook.relay old);
                   relays_json := COALESCE relaysJson (relays_json old);
                   pinned_at := pinned_at old;
                   first_seen := first_seen old;
                   last_seen := now |}
            end in
          Ok {| contacts := <[address := row]> (contacts file);
                pending_handshakes := pending_handshakes file;
                blocked_patterns := blocked_patterns file |}
      end
  | _, _ => Throw HostError
  end.

(** [UPDATE contacts SET pinned_at = datetime('now'), trust_state =
    'pinned' WHERE address = ?] *)
Definition update_pinned (now : N) (file : Database) (address : option jsstring)
    : Database :=
  match address with
  | None => file
  | Some address =>
      {| contacts :=
           alter (fun row =>
                    {| public_key := public_key row;
                       display_name := display_name row;
                       trust_state := js "pinned";
                       trust_source := trust_source row;
                       relay := ContactBook.relay row;
                       relays_json := relays_json row;
                       pinned_at := Some now;
                       first_seen := first_seen row;
                       last_seen := last_seen row |})
             address (contacts file);
         pending_handshakes := pending_handshakes file;
         blocked_patterns := blocked_patterns file |}
  end.

(** The rows of [pending_handshakes] whose address is not [address]; all of
    them when [address] is [NULL]. *)
Definition other_pending (address : option jsstring) (rows : list PendingEntry)
    : list PendingEntry :=
  match address with
  | None => rows
  | Some a =>
      List.filter (fun row => negb (bool_decide (entry_address row = Some a))) rows
  end.

(** [INSERT OR REPLACE INTO pending_handshakes (address, contact_card)
    VALUES (?, ?)] at clock reading [now]: a row with the same address goes
    and the new row gets the next row id. The column [contact_card] is
    [NOT NULL]. *)
Definition replace_pending (now : N) (file : Database)
    (address contactCard : option jsstring) : result Database :=
  match contactCard with
  | Some contactCard =>
      Ok {| contacts := contacts file;
            pending_handshakes :=
              other_pending address (pending_handshakes file)
              ++ [{| entry_address := address; contactCard := contactCard;
                     receivedAt := now |}];
            blocked_patterns := blocked_patterns file |}
  | None => Throw HostError
  end.

(** [DELETE FROM pending_handshakes WHERE address = ?] *)
Definition delete_pending (file : Database) (address : option jsstring)
    : Database :=
  {| contacts := contacts file;
     pending_handshakes := other_pending address (pending_handshakes file);
     blocked_patterns := blocked_patterns file |}.

(** ** The methods, with the arguments that the source declares *)

Definition isKnown (book : ContactBook) (address : jsstring) : bool :=
  bool_decide (address ∈ _knownAddresses book).

Definition isBlocked (book : ContactBook) (address : jsstring) : bool :=
  if bool_decide (address ∈ _blockedExact book) then true
  else if includes (js "::") address then
    match str_split (js "::") address with
    | _ :: domain :: _ => bool_decide (domain ∈ _blockedDomains book)
    | _ => false
    end
  else false.

Definition getPublicKey (book : ContactBook) (address : jsstring) : option jsstring :=
  if negb (_db book) then None
  else public_key <$> select_contact (db book) (Some (TEXT address)).

Definition getTrustState (book : ContactBook) (address : jsstring) : option jsstring :=
  if negb (_db book) then None
  else trust_state <$> select_contact (db book) (Some (TEXT address)).

(** The [options] of [addContact]; [None] is [undefined] or [null]. *)
Record ContactOptions : Type := {
  displayName : option jsstring;
  trustState : option jsstring;
  trustSource : option jsstring;
  relay_url : option jsstring;
  relays : option (list jsstring)
}.

Definition no_options : ContactOptions :=
  {| displayName := None; trustState := None; trustSource := None;
     relay_url := None; relays := None |}.

(** [addContact(address, publicKey, options)] at clock reading [now]. *)
Definition addContact (now : N) (book : ContactBook)
    (address publicKey : jsstring) (options : ContactOptions)
    : result ContactBook :=
  if negb (_db book) then not_open
  else
    let displayName := displayName options in
    let trustState := default (js "trusted") (trustState options) in
    let trustSource := trustSource options in
    let relay := relay_url options in
    let relaysJson :=
      match relays options with
      | Some rs => stringify (JArr (map JStr rs))
      | None => None
      end in
    (file <- upsert_contact now (db book) (Some (TEXT address))
               (Some (TEXT publicKey)) (TEXT <$> displayName)
               (Some (TEXT trustState)) (TEXT <$> trustSource)
               (TEXT <$> relay) (TEXT <$> relaysJson) ;;
     Ok {| db := file; _db := _db book;
           _knownAddresses := {[ address ]} ∪ _knownAddresses book;
           _blockedExact := _blockedExact book;
           _blockedDomains := _blockedDomains book |})%result.


Definition getPending (book : ContactBook) : list PendingEntry :=
  if negb (_db book) then []
  else pending_handshakes (db book).


(** [getExpiredPending(days)] at clock reading [now]:
    [datetime(received_at, '+days days') < datetime('now')]. *)
Definition getExpiredPending (now : N) (book : ContactBook) (days : N)
    : list PendingEntry :=
  if negb (_db book) then []
  else
    List.filter (fun e => receivedAt e + days * 86400 <? now)
      (pending_handshakes (db book)).

Definition setPinnedAt (now : N) (book : ContactBook) (address : jsstring)
    : result ContactBook :=
  if negb (_db book) then not_open
  else
    Ok (with_contacts book
          (contacts (update_pinned now (db book) (Some (TEXT address))))).

Definition isTrustedOrVerified (book : ContactBook) (address : jsstring) : bool :=
  let state := getTrustState book address in
  bool_decide (state = Some (js "trusted"))
  || bool_decide (state = Some (js "verified"))
  || bool_decide (state = Some (js "pinned")).

(** [INSERT OR IGNORE]: an existing pattern keeps its [blocked_at]. *)
Definition addBlock (now : N) (book : ContactBook) (pattern : jsstring)
    : result ContactBook :=
  if negb (_db book) then not_open
  else
    let blocked :=
      match blocked_patterns (db book) !! TEXT pattern with
      | Some _ => blocked_patterns (db book)
      | None => <[TEXT pattern := now]> (blocked_patterns (db book))
      end in
    Ok (_cacheBlockPattern pattern (with_blocked book blocked)).

Definition removeBlock (book : ContactBook) (pattern : jsstring)
    : result ContactBook :=
  if negb (_db book) then not_open
  else
    Ok (_uncacheBlockPattern pattern
          (with_blocked book (delete (TEXT pattern) (blocked_patterns (db book))))).

(** ** The methods on arguments of any type *)

Section WithHost.
Context {H : Host}.

(** What better-sqlite3 binds for a value. A string is bound as text,
    [null] and [undefined] as [NULL], a number as a [REAL], which a column
    or a comparison of type [TEXT] takes as text; a boolean, an array and
    an object are not bound. *)
Definition bind_value (v : value) : result (option jsstring) :=
  match v with
  | JStr s => Ok (Some (TEXT s))
  | JNull | JUndefined => Ok None
  | JNum x => Ok (sqlite_real_text x)
  | JBool _ | JArr _ | JObj _ => Throw HostError
  end.

Fixpoint bind_values (items : list value) : result (list (option jsstring)) :=
  match items with
  | [] => Ok []
  | v :: rest =>
      (p <- bind_value v ;; ps <- bind_values rest ;; Ok (p :: ps))%result
  end.

(** One argument of [get] or [run]: an array gives its elements as
    parameters; a plain object gives the named parameters, of which the
    statements of the class have none; any other value is one parameter. *)
Definition bind_argument (v : value) : result (list (option jsstring)) :=
  match v with
  | JArr items => bind_values items
  | JObj _ => Ok []
  | _ => (p <- bind_value v ;; Ok [p])%result
  end.

Fixpoint bind_arguments (args : list value) : result (list (option jsstring)) :=
  match args with
  | [] => Ok []
  | v :: rest =>
      (ps <- bind_argument v ;; qs <- bind_arguments rest ;; Ok (ps ++ qs))%result
  end.

Definition is_object (v : value) : bool :=
  match v with JObj _ => true | _ => false end.

(** The parameters that [stmt.get(...args)] and [stmt.run(...args)] bind
    for a statement with [count] parameters. better-sqlite3 throws when two
    arguments are plain objects, when a value is not bound, and when the
    arguments give too few or too many parameters. *)
Definition bind_parameters (args : list value) (count : nat)
    : result (list (option jsstring)) :=
  if (1 <? length (List.filter is_object args))%nat then Throw HostError
  else
    (params <- bind_arguments args ;;
     if (length params =? count)%nat then Ok params else Throw HostError)%result.

(** [isBlocked(v)]: no set holds a value that is no string; an array has
    the method [includes], which looks for an element that is the string
    [::], and no method [split]; any other value that is no string has no
    method [includes]. *)
Definition isBlocked_any (book : ContactBook) (address : value) : result bool :=
  match address with
  | JStr s => Ok (isBlocked book s)
  | JArr items =>
      if existsb (fun item => is_str item (js "::")) items
      then Throw (TypeError (type_error_message (js "split") address))
      else Ok false
  | _ => Throw (TypeError (type_error_message (js "includes") address))
  end.

Definition getPublicKey_any (book : ContactBook) (address : value)
    : result (option jsstring) :=
  if negb (_db book) then Ok None
  else
    (params <- bind_parameters [address] 1 ;;
     match params with
     | [a] => Ok (public_key <$> select_contact (db book) a)
     | _ => Throw HostError
     end)%result.

Definition getTrustState_any (book : ContactBook) (address : value)
    : result (option jsstring) :=
  if negb (_db book) then Ok None
  else
    (params <- bind_parameters [address] 1 ;;
     match params with
     | [a] => Ok (trust_state <$> select_contact (db book) a)
     | _ => Throw HostError
     end)%result.

(** [x ?? null] *)
Definition or_null (x : value) : value :=
  match x with
  | JUndefined => JNull
  | _ => x
  end.

(** [addContact(address, publicKey, { displayName, trustState,
    trustSource })] for an address, a key and a name of any type. The set
    of known addresses gets the address as it is: a value that is no string
    is equal to no string. *)
Definition addContact_any (now : N) (book : ContactBook)
    (address publicKey displayName : value)
    (trustState : jsstring) (trustSource : option jsstring)
    : result ContactBook :=
  if negb (_db book) then not_open
  else
    (params <- bind_parameters [address; publicKey; or_null displayName; JStr trustState;
                     from_option JStr JNull trustSource; JNull; JNull] 7 ;;
     match params with
     | [a; pk; dn; ts; tsrc; relay; relaysJson] =>
         file <- upsert_contact now (db book) a pk dn ts tsrc relay relaysJson ;;
         Ok {| db := file; _db := _db book;
               _knownAddresses :=
                 match address with
                 | JStr s => {[ s ]} ∪ _knownAddresses book
                 | _ => _knownAddresses book
                 end;
               _blockedExact := _blockedExact book;
               _blockedDomains := _blockedDomains book |}
     | _ => Throw HostError
     end)%result.

Definition addPending_any (now : N) (book : ContactBook)
    (address : value) (contactCardJson : jsstring) : result ContactBook :=
  if negb (_db book) then not_open
  else
    (params <- bind_parameters [address; JStr contactCardJson] 2 ;;
     match params with
     | [a; card] =>
         file <- replace_pending now (db book) a card ;;
         Ok (with_pending book (pending_handshakes file))
     | _ => Throw HostError
     end)%result.

Definition removePending_any (book : ContactBook) (address : value)
    : result ContactBook :=
  if negb (_db book) then Ok book
  else
    (params <- bind_parameters [address] 1 ;;
     match params with
     | [a] =>
         Ok (with_pending book (pending_handshakes (delete_pending (db book) a)))
     | _ => Throw HostError
     end)%result.

Definition setPinnedAt_any (now : N) (book : ContactBook) (address : value)
    : result ContactBook :=
  if negb (_db book) then not_open
  else
    (params <- bind_parameters [address] 1 ;;
     match params with
     | [a] => Ok (with_contacts book (contacts (update_pinned now (db book) a)))
     | _ => Throw HostError
     end)%result.

End WithHost.

End ContactBook.

(* ===================================================================== *)
(** * sdk/handshake.ts and sdk/agent.ts                                   *)
(* ===================================================================== *)

Module Agent.
Import ContactBook.

(** [ReceivedMessage] (sdk/message.ts) *)
Record ReceivedMessage : Type := {
  msg_messageId : value;
  msg_fromAddress : value;
  msg_toAddress : value;
  content : jsstring;
  msg_timestamp : value;
  msg_type : value;
  msg_threadId : value;
  msg_replyTo : value;
  msg_mediaType : value;
  verified : bool
}.

(** What a connected agent keeps fixed: its configuration, its address and
    token, and the key pair of its key manager. *)
Record Config : Type := {
  _address : jsstring;
  _token : jsstring;
  relayUrl : jsstring;
  relayWsUrl : jsstring;
  config_displayName : jsstring;
  _trustPolicy : jsstring;
  signingKey : bytes;
  verifyKey : bytes
}.

(** What a connected agent changes: its contact book, and what its transport
    has sent ([sent], oldest first). [tick] counts the readings of the
    environment. *)
Record State : Type := {
  _contactBook : ContactBook;
  sent : list object;
  tick : nat
}.

(** The environment of an agent, by reading number: the resolver's answer for
    an address that is a string ([None]: it throws), whether
    [transport.send] delivers a wire dict or throws, the random draws of
    [createEnvelope], and the clock in seconds. *)
Record World : Type := {
  resolvePublicKey : jsstring -> option jsstring;
  delivers : nat -> object -> bool;
  entropy : nat -> Entropy;
  clock : nat -> N
}.

(** Code with effects: a state transformer that returns or throws. *)
Definition M (A : Type) : Type := State -> result A * State.

Definition ret {A} (a : A) : M A := fun st => (Ok a, st).

Definition throw {A} (e : error) : M A := fun st => (Throw e, st).

Definition bind {A B} (m : M A) (k : A -> M B) : M B :=
  fun st =>
    match m st with
    | (Ok a, st') => k a st'
    | (Throw e, st') => (Throw e, st')
    end.

(** A pure computation that returns or throws. *)
Definition lift {A} (r : result A) : M A := fun st => (r, st).

(** [try { m } catch { }] *)
Definition try_ignore (m : M unit) : M unit :=
  fun st =>
    match m st with
    | (Ok _, st') => (Ok tt, st')
    | (Throw _, st') => (Ok tt, st')
    end.

Declare Scope M_scope.
Delimit Scope M_scope with M.
Notation "x <- m ;; k" := (bind m (fun x => k))
  (at level 100, m at next level, right associativity) : M_scope.
Notation "m ;;; k" := (bind m (fun _ => k))
  (at level 100, right associativity) : M_scope.

Definition set_book (book : ContactBook) (st : State) : State :=
  {| _contactBook := book; sent := sent st; tick := tick st |}.

Definition next_tick (st : State) : State :=
  {| _contactBook := _contactBook st; sent := sent st; tick := S (tick st) |}.

(** Read the contact book. *)
Definition book : M ContactBook := fun st => (Ok (_contactBook st), st).

(** Run an operation that returns the updated contact book or throws. *)
Definition update_book (f : ContactBook -> result ContactBook) : M unit :=
  fun st =>
    match f (_contactBook st) with
    | Ok book' => (Ok tt, set_book book' st)
    | Throw e => (Throw e, st)
    end.

Section WithWorld.
Context {H : Host} (W : World) (cfg : Config).

(** [datetime('now')] *)
Definition now : M N := fun st => (Ok (clock W (tick st)), next_tick st).

(** The draws of one [createEnvelope]. *)
Definition draw : M Entropy := fun st => (Ok (entropy W (tick st)), next_tick st).

(** [await this._transport.send(wire)] *)
Definition transport_send (wire : object) : M unit :=
  fun st =>
    if delivers W (tick st) wire
    then (Ok tt,
          {| _contactBook := _contactBook st; sent := sent st ++ [wire];
             tick := S (tick st) |})
    else (Throw HostError, next_tick st).

(** [await createEnvelope(this._address, toAddress, messageType, plaintext,
    this._keyManager.signingKey, recipientVk)] *)
Definition createEnvelopeM (toAddress : value) (messageType : jsstring)
    (plaintext recipientVk : bytes) : M MessageEnvelope :=
  (rnd <- draw ;;
   lift (createEnvelope_any rnd (_address cfg) toAddress messageType plaintext
           (signingKey cfg) recipientVk Envelope.no_options))%M.

(** [await this._resolver.resolvePublicKey(address, ...)] inside [try]:
    [None] when it throws. The resolver parses the address first, which
    throws for a value that is no string. *)
Definition resolve_any (address : value) : option jsstring :=
  match address with
  | JStr s => resolvePublicKey W s
  | _ => None
  end.

(** ** HandshakeManager *)

Definition _sendAccept (toAddress : value) (recipientVk : bytes) : M unit :=
  (card <- lift (ContactCard.createContactCard (_address cfg)
                   (config_displayName cfg) (relayWsUrl cfg) (signingKey cfg)) ;;
   let acceptPayload :=
     default [] (stringify
       (JObj [(js "status", JStr (js "accepted"));
              (js "contact_card", JObj (ContactCard.contactCardToDict card))])) in
   envelope <- createEnvelopeM toAddress MessageType.HANDSHAKE_ACCEPT
                 (utf8_encode acceptPayload) recipientVk ;;
   let wire := toWireDict envelope in
   transport_send wire)%M.

Definition _sendDeny (toAddress : value) (recipientVk : bytes) : M unit :=
  (let denyPayload :=
     default [] (stringify
       (JObj [(js "status", JStr (js "denied"));
              (js "reason", JStr (js "allowlist-only"))])) in
   envelope <- createEnvelopeM toAddress MessageType.HANDSHAKE_DENY
                 (utf8_encode denyPayload) recipientVk ;;
   let wire := toWireDict envelope in
   transport_send wire)%M.

(** [JSON.parse(text) as Record<string, unknown>], as [Object.keys] and
    property reads see it: an object as it is; [null] makes [Object.keys]
    throw; any other value has none of the keys the callers look up. *)
Definition parse_dict (text : jsstring) : result object :=
  match json_parse text with
  | None => Throw HostError
  | Some (JObj o) => Ok o
  | Some JNull => Throw (TypeError (type_error_message (js "Object.keys") JNull))
  | Some _ => Ok []
  end.

Definition _handleRequest (envelope : MessageEnvelope) (senderVk : bytes) : M unit :=
  (plaintext <- lift (decryptPayloadAnonymous (payload envelope) (signingKey cfg)) ;;
   cardDict <- lift (parse_dict (text_decode plaintext)) ;;
   card <- lift (ContactCard.contactCardFromDict cardDict true) ;;
   _ <- lift (ContactCard.verifyContactCard card) ;;
   if str_eqb (_trustPolicy cfg) (js "auto-accept") then
     t <- now ;;
     _ <- update_book (fun b =>
            addContact_any t b (ContactCard.address card)
              (ContactCard.publicKey card) (ContactCard.displayName card)
              (js "provisional") (Some (js "auto-accepted-provisional"))) ;;
     _sendAccept (fromAddress envelope) senderVk
   else if str_eqb (_trustPolicy cfg) (js "allowlist-only") then
     _sendDeny (fromAddress envelope) senderVk
   else
     t <- now ;;
     update_book (fun b =>
       addPending_any t b (fromAddress envelope)
         (default [] (stringify (JObj cardDict)))))%M.

Definition _handleAccept (envelope : MessageEnvelope) (senderVk : bytes) : M unit :=
  (let senderPkStr := serializeVerifyKey senderVk in
   t <- now ;;
   _ <- update_book (fun b =>
          addContact_any t b (fromAddress envelope) (JStr senderPkStr)
            JUndefined (js "pinned") None) ;;
   t' <- now ;;
   update_book (fun b => setPinnedAt_any t' b (fromAddress envelope)))%M.

Definition handleInbound (envelope : MessageEnvelope) (senderVk : bytes)
    : M (option ReceivedMessage) :=
  (_ <- (if is_str (type envelope) MessageType.HANDSHAKE_REQUEST then
           _handleRequest envelope senderVk
         else if is_str (type envelope) MessageType.HANDSHAKE_ACCEPT then
           _handleAccept envelope senderVk
         else if is_str (type envelope) MessageType.HANDSHAKE_DENY then
           ret tt
         else ret tt) ;;
   ret None)%M.

(** ** Agent *)

(** The test of [_processInbound] on the trust state of the sender:
    [trust !== "trusted" && trust !== "verified"]. *)
Definition unapproved (trust : option jsstring) : bool :=
  negb (bool_decide (trust = Some (js "trusted")))
  && negb (bool_decide (trust = Some (js "verified"))).

Definition _processInbound (raw : object) : M (option ReceivedMessage) :=
  (* Parse envelope *)
  (envelope <- lift (fromWireDict raw) ;;
   b <- book ;;
   (* Check block list BEFORE expensive crypto *)
   blocked <- lift (isBlocked_any b (fromAddress envelope)) ;;
   if blocked then ret None
   else
     (* Look up sender's public key for verification *)
     stored <- lift (getPublicKey_any b (fromAddress envelope)) ;;
     match (match stored with
            | Some pk => Some pk
            | None => resolve_any (fromAddress envelope)
            end) with
     | None => ret None
     | Some senderPkStr =>
         let senderVk := deserializeVerifyKey senderPkStr in
         (* Verify signature *)
         match verifyEnvelope envelope senderVk with
         | Throw SignatureVerificationError => ret None
         | Throw err => throw err
         | Ok _ =>
             (* Handle handshake messages (not user-visible) *)
             if is_str (type envelope) MessageType.HANDSHAKE_REQUEST
                || is_str (type envelope) MessageType.HANDSHAKE_ACCEPT
                || is_str (type envelope) MessageType.HANDSHAKE_DENY
             then handleInbound envelope senderVk
             else
               (* For non-auto-accept policies, filter messages from
                  unapproved senders *)
               refused <-
                 (if negb (str_eqb (_trustPolicy cfg) (js "auto-accept")) then
                    b <- book ;;
                    trust <- lift (getTrustState_any b (fromAddress envelope)) ;;
                    ret (unapproved trust)
                  else ret false) ;;
               if refused then ret None
               else
                 (* Decrypt payload *)
                 match decryptPayload (payload envelope) (signingKey cfg) senderVk with
                 | Throw DecryptionError => ret None
                 | Throw err => throw err
                 | Ok plaintextBytes =>
                     ret (Some
                       {| msg_messageId := messageId envelope;
                          msg_fromAddress := fromAddress envelope;
                          msg_toAddress := toAddress envelope;
                          content := text_decode plaintextBytes;
                          msg_timestamp := timestamp envelope;
                          msg_type := type envelope;
                          msg_threadId := threadId envelope;
                          msg_replyTo := replyTo envelope;
                          msg_mediaType := mediaType envelope;
                          verified := true |})
                 end
         end
     end)%M.

Definition _sendReadReceipt (msg : ReceivedMessage) : M unit :=
  (type <- lift (string_method (js "startsWith") (msg_type msg)) ;;
   (* Anti-loop: never generate receipts for protocol messages *)
   if startsWith (js "receipt.") type
      || startsWith (js "handshake.") type
      || startsWith (js "session.") type
   then ret tt
   else
     try_ignore
       (b <- book ;;
        senderPkStr <- lift (getPublicKey_any b (msg_fromAddress msg)) ;;
        match senderPkStr with
        | None => ret tt
        | Some senderPkStr =>
            let senderVk := deserializeVerifyKey senderPkStr in
            let receiptPayload :=
              default [] (stringify (JObj [(js "message_id", msg_messageId msg)])) in
            envelope <- createEnvelopeM (msg_fromAddress msg)
                          MessageType.RECEIPT_READ
                          (utf8_encode receiptPayload) senderVk ;;
            let wire := toWireDict envelope in
            transport_send wire
        end))%M.

(** [entry.address], which is [null] for a row whose address is [NULL]. *)
Definition address_of (e : PendingEntry) : value :=
  from_option JStr JNull (entry_address e).

(** One entry of the loop of [_sweepExpiredHandshakes]. *)
Definition sweep_entry (e : PendingEntry) : M unit :=
  (_ <- try_ignore
          (cardDict <- lift (parse_dict (contactCard e)) ;;
           card <- lift (ContactCard.contactCardFromDict cardDict true) ;;
           recipientVk <- lift (deserializeVerifyKey_any (ContactCard.publicKey card)) ;;
           let failPayload :=
             default [] (stringify
               (JObj [(js "reason", JStr (js "handshake_expired"));
                      (js "original_from", address_of e)])) in
           envelope <- createEnvelopeM (address_of e) MessageType.RECEIPT_FAILED
                         (utf8_encode failPayload) recipientVk ;;
           let wire := toWireDict envelope in
           transport_send wire) ;;
   (* Remove from pending regardless *)
   update_book (fun b => removePending_any b (address_of e)))%M.

Fixpoint for_each {A} (items : list A) (body : A -> M unit) : M unit :=
  match items with
  | [] => ret tt
  | x :: rest => (_ <- body x ;; for_each rest body)%M
  end.

Definition _sweepExpiredHandshakes : M unit :=
  (t <- now ;;
   b <- book ;;
   let expired := getExpiredPending t b 7 in
   for_each expired sweep_entry)%M.

(** One turn of the loop of [inbox]: [result] is the array built so far. *)
Definition inbox_step (raw : object) (result : list ReceivedMessage)
    : M (list ReceivedMessage) :=
  (msg <- _processInbound raw ;;
   match msg with
   | Some msg =>
       let result := result ++ [msg] in
       (* Auto-send receipt.read for user messages *)
       _ <- _sendReadReceipt msg ;;
       ret result
   | None => ret result
   end)%M.

Fixpoint inbox_loop (rawMessages : list object) (result : list ReceivedMessage)
    : M (list ReceivedMessage) :=
  match rawMessages with
  | [] => ret result
  | raw :: rest => (result' <- inbox_step raw result ;; inbox_loop rest result')%M
  end.

(** [inbox(limit)] of a connected agent, where [rawMessages] is what
    [this._transport.receive(limit)] returns. *)
Definition inbox (rawMessages : list object) : M (list ReceivedMessage) :=
  (_ <- _sweepExpiredHandshakes ;;
   inbox_loop rawMessages [])%M.

End WithWorld.

End Agent.

(* ===================================================================== *)
(** * Vocabulary of the statements                                        *)
(* ===================================================================== *)

Module Vocabulary.
Import ContactBook Agent.

(** ** Canonical JSON *)

(** The property of an entry that [canonicalize] keeps. *)
Definition kept (kv : jsstring * value) : bool :=
  negb (str_eqb (fst kv) (js "signature"))
  && negb (is_null (snd kv)) && negb (is_undefined (snd kv)).

(** One turn of the loop of [canonicalize]. *)
Definition canonical_step (filtered : object) (kv : jsstring * value) : object :=
  if kept kv then obj_set filtered (fst kv) (snd kv) else filtered.

(** A JSON text written with ['] for the double quote. *)
Definition json_text (s : string) : jsstring :=
  map (fun c => if c =? 39 then 34 else c) (js s).

(** The map of scenario E2 of the specification, in two insertion orders. *)
Definition example_map : object :=
  [(js "b", JNum (int 2)); (js "a", JNum (int 1)); (js "signature", JStr (js "x"))].

Definition example_map' : object :=
  [(js "signature", JStr (js "x")); (js "a", JNum (int 1)); (js "b", JNum (int 2))].

(** [v'] is [v] with the keys of its objects, at any depth, in another
    order. *)
Inductive shuffled : value -> value -> Prop :=
| shuffled_same v : shuffled v v
| shuffled_array xs ys :
    length xs = length ys ->
    (forall i x y, xs !! i = Some x -> ys !! i = Some y -> shuffled x y) ->
    shuffled (JArr xs) (JArr ys)
| shuffled_object o o' :
    NoDup (obj_keys o) -> NoDup (obj_keys o') ->
    (forall k, k ∈ obj_keys o <-> k ∈ obj_keys o') ->
    (forall k, shuffled (obj_get o k) (obj_get o' k)) ->
    shuffled (JObj o) (JObj o').

(** ** Addresses and the block list *)

(** No colon occurs in [s]. *)
Definition colon_free (s : jsstring) : Prop := 58 ∉ s.

#[export] Instance colon_free_dec (s : jsstring) : Decision (colon_free s) :=
  decide (58 ∉ s).

(** The block caches mirror the table [blocked_patterns]. *)
Definition caches_loaded (book : ContactBook) : Prop :=
  (∀ domain, domain ∈ _blockedDomains book
             ↔ js "*::" ++ domain ∈ dom (blocked_patterns (db book)))
  ∧ (∀ pattern, pattern ∈ _blockedExact book
                ↔ pattern ∈ dom (blocked_patterns (db book))
                  ∧ startsWith (js "*::") pattern = false).

(** ** Effects *)

(** [m] relates every state to the state it leaves, returning or throwing. *)
Definition preserves {A} (R : relation State) (m : M A) : Prop :=
  ∀ st, R st (m st).2.

(** What [m] returns, when it returns, satisfies [P]. *)
Definition returns {A} (m : M A) (P : A → Prop) : Prop :=
  ∀ st a, (m st).1 = Ok a → P a.

(** The block caches are the same in both states. *)
Definition same_blocks (st st' : State) : Prop :=
  _blockedExact (_contactBook st') = _blockedExact (_contactBook st)
  ∧ _blockedDomains (_contactBook st') = _blockedDomains (_contactBook st).

(** From [st] to [st'] the transport has sent wire dicts whose types are
    strings among [types], and no others. *)
Definition emits (types : list jsstring) (st st' : State) : Prop :=
  ∃ new, sent st' = sent st ++ new
         ∧ Forall (fun wire => ∃ t, obj_get wire (js "type") = JStr t ∧ t ∈ types)
             new.

(** The two types that handling a handshake can send. *)
Definition handshake_replies : list jsstring :=
  [MessageType.HANDSHAKE_ACCEPT; MessageType.HANDSHAKE_DENY].



Section WithWorld.
Context {H : Host} (W : World) (cfg : Config).

(** ** Keys *)

(** The key pair that [generateKeypair] makes from a seed:
    [kp.privateKey] and [kp.publicKey]. *)
Definition signing_key (seed : bytes) : bytes := fst (crypto_sign_seed_keypair seed).

Definition verify_key (seed : bytes) : bytes := snd (crypto_sign_seed_keypair seed).

(** The payload decryption that fits the type of an envelope. *)
Definition decrypt_for (messageType : jsstring) (e : MessageEnvelope)
    (recipientSigningKey senderVerifyKey : bytes) : result bytes :=
  if str_eqb messageType MessageType.HANDSHAKE_REQUEST
  then decryptPayloadAnonymous (payload e) recipientSigningKey
  else decryptPayload (payload e) recipientSigningKey senderVerifyKey.

(** ** Inbound envelopes *)

(** The key [_processInbound] verifies an envelope with: the stored key of
    the sender, or else the resolver's answer. *)
Definition sender_key (b : ContactBook) (from : value)
    : result (option jsstring) :=
  (stored <- getPublicKey_any b from ;;
   match stored with
   | Some pk => Ok (Some pk)
   | None => Ok (resolve_any W from)
   end)%result.

(** The envelope has one of the three handshake types. *)
Definition is_handshake (e : MessageEnvelope) : bool :=
  is_str (type e) MessageType.HANDSHAKE_REQUEST
  || is_str (type e) MessageType.HANDSHAKE_ACCEPT
  || is_str (type e) MessageType.HANDSHAKE_DENY.

(** The trust test of [_processInbound] lets the sender through: the
    policy is [auto-accept], or the trust state of the sender in the book
    is [trusted] or [verified]. *)
Definition passes_trust_test (b : ContactBook) (from : value) : Prop :=
  _trustPolicy cfg = js "auto-accept"
  ∨ ∃ trust, getTrustState_any b from = Ok trust ∧ unapproved trust = false.

(** The [ReceivedMessage] that [_processInbound] builds. *)
Definition received (e : MessageEnvelope) (plaintext : bytes) : ReceivedMessage :=
  {| msg_messageId := messageId e;
     msg_fromAddress := fromAddress e;
     msg_toAddress := toAddress e;
     content := text_decode plaintext;
     msg_timestamp := timestamp e;
     msg_type := type e;
     msg_threadId := threadId e;
     msg_replyTo := replyTo e;
     msg_mediaType := mediaType e;
     verified := true |}.

(** In the state [st] of the agent, the raw message is an envelope [e] that
    passes every test of [_processInbound] for a message: its sender is not
    on the block list of the agent's book, its signature verifies under the
    sender's key, it is no handshake, the sender passes the trust test on
    the agent's book, and its payload decrypts to [plaintext]. *)
Definition accepted (raw : object) (st : State) (e : MessageEnvelope)
    (plaintext : bytes) : Prop :=
  fromWireDict raw = Ok e
  ∧ isBlocked_any (_contactBook st) (fromAddress e) = Ok false
  ∧ is_handshake e = false
  ∧ passes_trust_test (_contactBook st) (fromAddress e)
  ∧ ∃ pk, sender_key (_contactBook st) (fromAddress e) = Ok (Some pk)
          ∧ verifyEnvelope e (deserializeVerifyKey pk) = Ok tt
          ∧ decryptPayload (payload e) (signingKey cfg) (deserializeVerifyKey pk)
            = Ok plaintext.

(** In the state [st], the raw message is a handshake envelope [e] that
    [_processInbound] hands to the handshake manager, with the key
    [senderVk] that its signature verifies under. *)
Definition routed (raw : object) (st : State) (e : MessageEnvelope)
    (senderVk : bytes) : Prop :=
  fromWireDict raw = Ok e
  ∧ isBlocked_any (_contactBook st) (fromAddress e) = Ok false
  ∧ is_handshake e = true
  ∧ ∃ pk, sender_key (_contactBook st) (fromAddress e) = Ok (Some pk)
          ∧ senderVk = deserializeVerifyKey pk
          ∧ verifyEnvelope e senderVk = Ok tt.

(** What [_processInbound] returns for the user in the state [st]. *)
Definition delivered (raw : object) (st : State) : option ReceivedMessage :=
  match (_processInbound W cfg raw st).1 with
  | Ok (Some msg) => Some msg
  | _ => None
  end.

(** The states in which the loop of [inbox] takes up the raw messages, one
    after the other, when it starts in [st]. *)
Fixpoint processing_states (rawMessages : list object) (st : State)
    : list State :=
  match rawMessages with
  | [] => []
  | raw :: rest =>
      st :: processing_states rest (inbox_step W cfg raw [] st).2
  end.

End WithWorld.

End Vocabulary.
Export Vocabulary.

(* ===================================================================== *)
(** * A small host for examples                                           *)
(* ===================================================================== *)

(** A host that is simple enough to compute with: the public key is the
    seed, a signature is the public key followed by the message, the
    ciphertext of a box or a sealed box is the reversed plaintext,
    base64url is the identity on code units, [JSON.parse] and [Buffer.from]
    of an object throw, and the text of a number is the one that JavaScript
    prints. It serves to run the definitions above on concrete inputs. *)
Module ToyHost.

Definition toy : Host := {|
  crypto_sign_seed_keypair := fun seed => (seed ++ seed, seed);
  crypto_sign_detached := fun m sk => Some (drop 32 sk ++ m);
  crypto_sign_verify_detached := fun s m pk => Some (bool_decide (s = pk ++ m));
  crypto_sign_ed25519_sk_to_curve25519 := fun sk => Some (take 32 sk);
  crypto_sign_ed25519_pk_to_curve25519 := fun pk => Some pk;
  crypto_box_easy := fun m _ _ _ => Some (rev m);
  crypto_box_open_easy := fun c _ _ _ => Some (rev c);
  crypto_box_seal := fun _ m _ => Some (rev m);
  crypto_box_seal_open := fun c _ _ => Some (rev c);
  to_base64url := fun data => data;
  from_base64url := fun s => s;
  sha256_hex := fun _ => js "00";
  json_parse := fun _ => None;
  text_decode := fun data => data;
  buffer_from := fun _ => None;
  sqlite_real_text := fun x => Some (num_to_string x);
  type_error_message := fun name _ => name ++ js " is not a function"
|}.

(** Two seeds of 32 bytes, and the draws of one [createEnvelope]. *)
Definition alice_seed : bytes := repeat 1 32.
Definition bob_seed : bytes := repeat 2 32.

Definition draws : Entropy :=
  {| uuid := js "00000000-0000-4000-8000-000000000000";
     nonce_bytes := repeat 7 24;
     clock_iso := js "2026-01-01T00:00:00.000Z";
     box_nonce := repeat 9 24;
     seal_ephemeral := repeat 5 32 |}.

(** The key pairs of the two seeds, as [generateKeypair] returns them. *)
Definition alice_signingKey : bytes := fst (crypto_sign_seed_keypair (Host:=toy) alice_seed).
Definition alice_verifyKey : bytes := snd (crypto_sign_seed_keypair (Host:=toy) alice_seed).
Definition bob_signingKey : bytes := fst (crypto_sign_seed_keypair (Host:=toy) bob_seed).
Definition bob_verifyKey : bytes := snd (crypto_sign_seed_keypair (Host:=toy) bob_seed).

Definition alice : jsstring := js "alice::youam.network".
Definition bob : jsstring := js "bob::youam.network".

(** The wire dict of an envelope of type [messageType] that alice makes for
    bob with the text [text]. *)
Definition wire_from_alice (messageType text : jsstring) : object :=
  match createEnvelope (H:=toy) draws alice bob messageType (utf8_encode text)
          alice_signingKey bob_verifyKey Envelope.no_options with
  | Ok envelope => toWireDict envelope
  | Throw _ => []
  end.

(** Bob's agent under a trust policy, and its environment: the resolver
    knows alice, the transport delivers, the clock counts the readings. *)
Definition bob_config (policy : jsstring) : Agent.Config :=
  {| Agent._address := bob;
     Agent._token := js "token";
     Agent.relayUrl := js "https://relay.youam.network";
     Agent.relayWsUrl := js "wss://relay.youam.network/ws";
     Agent.config_displayName := js "bob";
     Agent._trustPolicy := policy;
     Agent.signingKey := bob_signingKey;
     Agent.verifyKey := bob_verifyKey |}.

Definition world : Agent.World :=
  {| Agent.resolvePublicKey := fun address =>
       if str_eqb address alice
       then Some (serializeVerifyKey (H:=toy) alice_verifyKey)
       else None;
     Agent.delivers := fun _ _ => true;
     Agent.entropy := fun _ => draws;
     Agent.clock := fun n => N.of_nat n |}.

Definition connected (book : ContactBook.ContactBook) : Agent.State :=
  {| Agent._contactBook := book; Agent.sent := []; Agent.tick := 0 |}.

(** An open, empty contact book; and the book after alice's key was stored
    and pinned, as [_handleAccept] does it. *)
Definition empty_book : ContactBook.ContactBook :=
  ContactBook.open (ContactBook.new ContactBook.empty_database).

Definition or_else (book : ContactBook.ContactBook)
    (r : result ContactBook.ContactBook) : ContactBook.ContactBook :=
  match r with
  | Ok book' => book'
  | Throw _ => book
  end.

Definition pinned_book : ContactBook.ContactBook :=
  let book :=
    or_else empty_book
      (ContactBook.addContact 1 empty_book alice
         (serializeVerifyKey (H:=toy) alice_verifyKey)
         {| ContactBook.displayName := None;
            ContactBook.trustState := Some (js "pinned");
            ContactBook.trustSource := None;
            ContactBook.relay_url := None;
            ContactBook.relays := None |}) in
  or_else book (ContactBook.setPinnedAt 2 book alice).

(** A book in which the address [spammer::evil.com] falls under the
    wildcard pattern of its domain. *)
Definition blocking_book : ContactBook.ContactBook :=
  or_else empty_book (ContactBook.addBlock 1 empty_book (js "*::evil.com")).

(** A third agent, mallory, with a key pair of her own, and the contact card
    that she makes and signs with her key for alice's address. *)
Definition mallory_seed : bytes := repeat 3 32.
Definition mallory_signingKey : bytes := fst (crypto_sign_seed_keypair (Host:=toy) mallory_seed).
Definition mallory_verifyKey : bytes := snd (crypto_sign_seed_keypair (Host:=toy) mallory_seed).

Definition mallory : jsstring := js "mallory::youam.network".

Definition forged_card : object :=
  match ContactCard.createContactCard (H:=toy) alice (js "alice")
          (js "wss://relay.youam.network/ws") mallory_signingKey with
  | Ok card => ContactCard.contactCardToDict card
  | Throw _ => []
  end.

Definition forged_card_json : jsstring :=
  default [] (stringify (JObj forged_card)).

(** The host [toy] with a [JSON.parse] that reads the JSON text of that
    card, and no other text. *)
Definition reader : Host := {|
  crypto_sign_seed_keypair := crypto_sign_seed_keypair (Host:=toy);
  crypto_sign_detached := crypto_sign_detached (Host:=toy);
  crypto_sign_verify_detached := crypto_sign_verify_detached (Host:=toy);
  crypto_sign_ed25519_sk_to_curve25519 :=
    crypto_sign_ed25519_sk_to_curve25519 (Host:=toy);
  crypto_sign_ed25519_pk_to_curve25519 :=
    crypto_sign_ed25519_pk_to_curve25519 (Host:=toy);
  crypto_box_easy := crypto_box_easy (Host:=toy);
  crypto_box_open_easy := crypto_box_open_easy (Host:=toy);
  crypto_box_seal := crypto_box_seal (Host:=toy);
  crypto_box_seal_open := crypto_box_seal_open (Host:=toy);
  to_base64url := to_base64url (Host:=toy);
  from_base64url := from_base64url (Host:=toy);
  sha256_hex := sha256_hex (Host:=toy);
  json_parse := fun text =>
    if str_eqb text forged_card_json then Some (JObj forged_card) else None;
  text_decode := text_decode (Host:=toy);
  buffer_from := buffer_from (Host:=toy);
  sqlite_real_text := sqlite_real_text (Host:=toy);
  type_error_message := type_error_message (Host:=toy)
|}.

(** The wire dict of the [handshake.request] that mallory makes for bob
    from her own address, as [createHandshakeRequest] does it, with that
    card as payload. *)
Definition request_from_mallory : object :=
  match createEnvelope (H:=toy) draws mallory bob MessageType.HANDSHAKE_REQUEST
          (utf8_encode forged_card_json) mallory_signingKey bob_verifyKey
          Envelope.no_options with
  | Ok envelope => toWireDict envelope
  | Throw _ => []
  end.

(** The environment [world] with a resolver that knows mallory too. *)
Definition open_world : Agent.World :=
  {| Agent.resolvePublicKey := fun address =>
       if str_eqb address mallory
       then Some (serializeVerifyKey (H:=toy) mallory_verifyKey)
       else Agent.resolvePublicKey world address;
     Agent.delivers := Agent.delivers world;
     Agent.entropy := Agent.entropy world;
     Agent.clock := Agent.clock world |}.

End ToyHost.

(* ===================================================================== *)
(** * Theorems                                                            *)
(* ===================================================================== *)

(* ===================================================================== *)
(** * Facts about strings and objects                                     *)
(* ===================================================================== *)

Section KeyOrder.

Lemma key_leb_refl a : key_leb a a = true.
Proof.
  induction a as [|x a IH]; simpl; [done|].
  rewrite N.ltb_irrefl, N.eqb_refl. done.
Qed.

Lemma key_leb_total a b : key_leb a b = true ∨ key_leb b a = true.
Proof.
  revert b. induction a as [|x a IH]; intros [|y b]; simpl; auto.
  destruct (N.ltb_spec x y), (N.ltb_spec y x); auto; try lia.
  assert (x = y) as -> by lia. rewrite N.eqb_refl. apply IH.
Qed.

Lemma key_leb_trans a b c :
  key_leb a b = true → key_leb b c = true → key_leb a c = true.
Proof.
  revert b c. induction a as [|x a IH]; intros [|y b] [|z c]; simpl; try done.
  destruct (N.ltb_spec x y), (N.ltb_spec y z), (N.ltb_spec x z);
    try done; try lia;
    destruct (N.eqb_spec x y), (N.eqb_spec y z), (N.eqb_spec x z);
    try done; try lia.
  apply IH.
Qed.

Lemma key_leb_antisym a b :
  key_leb a b = true → key_leb b a = true → a = b.
Proof.
  revert b. induction a as [|x a IH]; intros [|y b]; simpl; try done.
  destruct (N.ltb_spec x y), (N.ltb_spec y x),
    (N.eqb_spec x y), (N.eqb_spec y x); try done; try lia.
  subst. intros ??. f_equal. by apply IH.
Qed.

#[export] Instance key_le_total : Total key_le.
Proof. intros a b. apply key_leb_total. Qed.

#[export] Instance key_le_trans : Transitive key_le.
Proof. intros a b c. apply key_leb_trans. Qed.

#[export] Instance key_le_antisym : AntiSymm (=) key_le.
Proof. intros a b. apply key_leb_antisym. Qed.

Lemma array_sort_sorted ks : Sorted key_le (array_sort ks).
Proof. apply (Sorted_merge_sort key_le). Qed.

Lemma array_sort_perm ks : array_sort ks ≡ₚ ks.
Proof. apply (merge_sort_Permutation key_le). Qed.

(** Sorting forgets the order the keys came in. *)
Lemma array_sort_order ks ks' : ks ≡ₚ ks' → array_sort ks = array_sort ks'.
Proof.
  intros Hp. apply (Sorted_unique key_le); try apply array_sort_sorted.
  by rewrite !array_sort_perm.
Qed.

Lemma array_sort_elem k ks : k ∈ array_sort ks ↔ k ∈ ks.
Proof. by rewrite array_sort_perm. Qed.

Lemma array_sort_nodup ks : NoDup ks → NoDup (array_sort ks).
Proof. by rewrite array_sort_perm. Qed.

End KeyOrder.

Section Objects.

Lemma str_eqb_eq a b : str_eqb a b = true ↔ a = b.
Proof. unfold str_eqb. apply bool_decide_eq_true. Qed.

Lemma str_eqb_refl a : str_eqb a a = true.
Proof. by apply str_eqb_eq. Qed.

Lemma str_eqb_neq a b : str_eqb a b = false ↔ a ≠ b.
Proof. unfold str_eqb. apply bool_decide_eq_false. Qed.

Lemma obj_has_true o k : obj_has o k = true ↔ k ∈ obj_keys o.
Proof. unfold obj_has. apply bool_decide_eq_true. Qed.

Lemma obj_has_false o k : obj_has o k = false ↔ k ∉ obj_keys o.
Proof. unfold obj_has. apply bool_decide_eq_false. Qed.

Lemma obj_keys_app o1 o2 : obj_keys (o1 ++ o2) = obj_keys o1 ++ obj_keys o2.
Proof. unfold obj_keys. apply map_app. Qed.

Lemma obj_get_absent o k : k ∉ obj_keys o → obj_get o k = JUndefined.
Proof.
  induction o as [|[k' v] o IH]; simpl; [done|].
  intros Hk. apply not_elem_of_cons in Hk as [Hne Hk].
  destruct (str_eqb k' k) eqn:E; [apply str_eqb_eq in E; congruence|].
  by apply IH.
Qed.

Lemma obj_get_elem o k v :
  NoDup (obj_keys o) → (k, v) ∈ o → obj_get o k = v.
Proof.
  induction o as [|[k' v'] o IH]; simpl; intros Hnd Hin.
  - by apply elem_of_nil in Hin.
  - apply NoDup_cons in Hnd as [Hk' Hnd].
    apply elem_of_cons in Hin as [Heq|Hin].
    + inversion Heq; subst. by rewrite str_eqb_refl.
    + destruct (str_eqb k' k) eqn:E.
      * apply str_eqb_eq in E; subst. exfalso. apply Hk'.
        apply list_elem_of_fmap. by exists (k, v).
      * by apply IH.
Qed.

(** Reading a property does not depend on the order of the properties. *)
Lemma obj_get_perm o o' k :
  NoDup (obj_keys o) → o ≡ₚ o' → obj_get o k = obj_get o' k.
Proof.
  intros Hnd Hp.
  assert (NoDup (obj_keys o')) as Hnd'.
  { unfold obj_keys in *. by rewrite <- Hp. }
  destruct (decide (k ∈ obj_keys o)) as [Hin|Hnin].
  - apply list_elem_of_fmap in Hin as [[k0 v] [-> Hin]]. simpl.
    rewrite (obj_get_elem o k0 v Hnd Hin).
    symmetry. apply obj_get_elem; [done|]. by rewrite <- Hp.
  - rewrite obj_get_absent by done.
    symmetry. apply obj_get_absent. unfold obj_keys in *. by rewrite <- Hp.
Qed.

Lemma obj_set_fresh o k v :
  k ≠ js "__proto__" → k ∉ obj_keys o → obj_set o k v = o ++ [(k, v)].
Proof.
  intros Hp Hk. unfold obj_set.
  apply str_eqb_neq in Hp. rewrite Hp.
  apply obj_has_false in Hk. by rewrite Hk.
Qed.

End Objects.

(* ===================================================================== *)
(** * Canonical JSON                                                      *)
(* ===================================================================== *)

Section Canonical.

Lemma canonical_filter_fold data :
  canonical_filter data = fold_left canonical_step data [].
Proof. reflexivity. Qed.

(** The object case of [sortedStringify], as the source has it. *)
Lemma sortedStringify_object obj :
  sortedStringify (JObj obj)
  = js "{" ++
    join (js ",")
      (map (fun k => quote k ++ js ":" ++ sortedStringify (obj_get obj k))
           (array_sort (obj_keys obj)))
    ++ js "}".
Proof.
  assert (∀ k,
    default (js "null")
      (snd <$> find (fun kr : jsstring * jsstring => str_eqb (fst kr) k)
                 (map (fun kv : jsstring * value => (fst kv, sortedStringify (snd kv))) obj))
    = sortedStringify (obj_get obj k)) as Hget.
  { intros k. induction obj as [|[k' v] obj IH]; [done|].
    cbn [map find fst snd obj_get].
    destruct (str_eqb k' k); [done|]. apply IH. }
  change (sortedStringify (JObj obj)) with
    (js "{" ++
     join (js ",")
       (map (fun k => quote k ++ js ":" ++
               default (js "null")
                 (snd <$> find (fun kr : jsstring * jsstring => str_eqb (fst kr) k)
                            (map (fun kv : jsstring * value =>
                                    (fst kv, sortedStringify (snd kv))) obj)))
            (array_sort (obj_keys obj)))
     ++ js "}").
  f_equal. f_equal. f_equal. apply map_ext. intros k. by rewrite Hget.
Qed.

(** The canonical text of an object depends on its set of properties only. *)
Lemma sortedStringify_perm o o' :
  NoDup (obj_keys o) → o ≡ₚ o' →
  sortedStringify (JObj o) = sortedStringify (JObj o').
Proof.
  intros Hnd Hp. rewrite !sortedStringify_object.
  assert (array_sort (obj_keys o) = array_sort (obj_keys o')) as <-.
  { apply array_sort_order. unfold obj_keys. by rewrite Hp. }
  f_equal. f_equal. f_equal. apply map_ext. intros k.
  by rewrite (obj_get_perm o o' k Hnd Hp).
Qed.

Lemma canonical_fold_fresh data acc :
  NoDup (obj_keys acc ++ obj_keys data) →
  fold_left canonical_step data acc
  = acc ++ List.filter (fun kv => kept kv && negb (str_eqb (fst kv) (js "__proto__"))) data.
Proof.
  revert acc. induction data as [|[k v] data IH]; intros acc Hnd; simpl.
  - by rewrite app_nil_r.
  - assert (k ∉ obj_keys acc) as Hk.
    { apply NoDup_app in Hnd as (_ & Hd & _). intros Hin.
      apply (Hd k Hin). simpl. apply elem_of_cons. by left. }
    unfold canonical_step at 2. simpl.
    destruct (kept (k, v)) eqn:Ek; simpl.
    + unfold obj_set.
      destruct (str_eqb k (js "__proto__")) eqn:Ep; simpl.
      * apply IH. simpl in Hnd.
        apply NoDup_app in Hnd as (Ha & Hd & Hdd).
        apply NoDup_cons in Hdd as [? ?].
        apply NoDup_app. split_and!; [done| |done].
        intros x Hx Hx'. apply (Hd x Hx). simpl. apply elem_of_cons. by right.
      * apply obj_has_false in Hk. rewrite Hk.
        rewrite IH.
        -- by rewrite <- app_assoc.
        -- rewrite obj_keys_app. simpl. rewrite <- app_assoc. by simpl.
    + apply IH. simpl in Hnd.
      apply NoDup_app in Hnd as (Ha & Hd & Hdd).
      apply NoDup_cons in Hdd as [? ?].
      apply NoDup_app. split_and!; [done| |done].
      intros x Hx Hx'. apply (Hd x Hx). simpl. apply elem_of_cons. by right.
Qed.

(** On an object (no key twice) the loop of [canonicalize] is a filter. *)
Lemma canonical_filter_nodup data :
  NoDup (obj_keys data) →
  canonical_filter data
  = List.filter (fun kv => kept kv && negb (str_eqb (fst kv) (js "__proto__"))) data.
Proof.
  intros Hnd. rewrite canonical_filter_fold.
  by rewrite canonical_fold_fresh.
Qed.

Lemma filter_keys_nodup (P : jsstring * value → bool) (o : object) :
  NoDup (obj_keys o) → NoDup (obj_keys (List.filter P o)).
Proof.
  induction o as [|[k v] o IH]; simpl; [done|].
  intros Hnd. apply NoDup_cons in Hnd as [Hk Hnd].
  destruct (P (k, v)); simpl; [|by apply IH].
  apply NoDup_cons. split; [|by apply IH].
  intros Hin. apply Hk.
  apply list_elem_of_fmap in Hin as [kv [-> Hin]].
  apply list_elem_of_fmap. exists kv. split; [done|].
  apply list_elem_of_In in Hin. apply filter_In in Hin as [Hin _].
  by apply list_elem_of_In.
Qed.

Lemma filter_perm (P : jsstring * value → bool) (o o' : object) :
  o ≡ₚ o' → List.filter P o ≡ₚ List.filter P o'.
Proof.
  induction 1 as [|x l l' _ IH|x y l|l l' l'' _ IH1 _ IH2]; simpl.
  - done.
  - destruct (P x); [by constructor|done].
  - destruct (P x), (P y); try done. apply perm_swap.
  - by etrans.
Qed.

Lemma canonicalize_perm m m' :
  NoDup (obj_keys m) → m ≡ₚ m' → canonicalize m = canonicalize m'.
Proof.
  intros Hnd Hp. unfold canonicalize. f_equal.
  assert (NoDup (obj_keys m')) as Hnd'.
  { unfold obj_keys in *. by rewrite <- Hp. }
  rewrite !canonical_filter_nodup by done.
  apply sortedStringify_perm.
  - by apply filter_keys_nodup.
  - by apply filter_perm.
Qed.

(** An entry that [canonicalize] does not keep may as well be absent. *)
Lemma canonicalize_dropped m1 m2 kv :
  kept kv = false → canonicalize (m1 ++ kv :: m2) = canonicalize (m1 ++ m2).
Proof.
  intros Hk. unfold canonicalize. do 2 f_equal.
  rewrite !canonical_filter_fold, !fold_left_app. simpl.
  unfold canonical_step at 2. by rewrite Hk.
Qed.

Lemma obj_replace_keys o k v : obj_keys (obj_replace o k v) = obj_keys o.
Proof.
  induction o as [|[k' v'] o IH]; simpl; [done|].
  destruct (str_eqb k' k); simpl; [done|]. by rewrite IH.
Qed.

Lemma obj_set_keys o k v x :
  x ∈ obj_keys (obj_set o k v) → x ∈ obj_keys o ∨ x = k.
Proof.
  unfold obj_set. destruct (str_eqb k (js "__proto__")); [by left|].
  destruct (obj_has o k).
  - rewrite obj_replace_keys. by left.
  - rewrite obj_keys_app. simpl. intros Hx.
    apply elem_of_app in Hx as [Hx|Hx]; [by left|].
    apply list_elem_of_singleton in Hx. by right.
Qed.

Lemma canonical_fold_keys data acc x :
  x ∈ obj_keys (fold_left canonical_step data acc) →
  x ∈ obj_keys acc ∨ ∃ v, (x, v) ∈ data ∧ kept (x, v) = true.
Proof.
  revert acc. induction data as [|[k v] data IH]; intros acc; simpl.
  - by left.
  - intros Hx. apply IH in Hx as [Hx|(w & Hin & Hw)].
    + unfold canonical_step in Hx. destruct (kept (k, v)) eqn:Ek.
      * simpl in Hx. apply obj_set_keys in Hx as [Hx| ->]; [by left|].
        right. exists v. split; [apply elem_of_cons; by left|done].
      * by left.
    + right. exists w. split; [apply elem_of_cons; by right|done].
Qed.

Lemma canonical_filter_no_signature m :
  js "signature" ∉ obj_keys (canonical_filter m).
Proof.
  rewrite canonical_filter_fold. intros Hin.
  apply canonical_fold_keys in Hin as [Hin|(v & _ & Hk)].
  - by apply elem_of_nil in Hin.
  - unfold kept in Hk. cbn [fst snd] in Hk. by rewrite str_eqb_refl in Hk.
Qed.

(** ** Keys in another order at every depth *)

Lemma shuffled_atoms v v' :
  shuffled v v' →
  is_null v = is_null v' ∧ is_undefined v = is_undefined v'.
Proof. by destruct 1. Qed.

Lemma sortedStringify_shuffled v v' :
  shuffled v v' → sortedStringify v = sortedStringify v'.
Proof.
  induction 1 as [v|xs ys Hlen _ IH|o o' Hnd Hnd' Hkeys _ IH].
  - done.
  - change (js "[" ++ join (js ",") (map sortedStringify xs) ++ js "]"
            = js "[" ++ join (js ",") (map sortedStringify ys) ++ js "]").
    f_equal. f_equal. f_equal. apply list_eq. intros i.
    rewrite !list_lookup_fmap.
    destruct (xs !! i) as [x|] eqn:Ex, (ys !! i) as [y|] eqn:Ey; cbn.
    + f_equal. by apply (IH i).
    + apply lookup_lt_Some in Ex. apply lookup_ge_None in Ey. lia.
    + apply lookup_ge_None in Ex. apply lookup_lt_Some in Ey. lia.
    + done.
  - rewrite !sortedStringify_object.
    assert (array_sort (obj_keys o) = array_sort (obj_keys o')) as <-.
    { apply array_sort_order. by apply NoDup_Permutation. }
    f_equal. f_equal. f_equal. apply map_ext. intros k. by rewrite IH.
Qed.

Lemma obj_get_in o k : k ∈ obj_keys o → (k, obj_get o k) ∈ o.
Proof.
  induction o as [|[k' v] o IH]; cbn [obj_keys map obj_get fst].
  - intros Hin. by apply elem_of_nil in Hin.
  - fold (obj_keys o). intros Hin. destruct (str_eqb k' k) eqn:E.
    + apply str_eqb_eq in E. subst k'. apply list_elem_of_here.
    + apply str_eqb_neq in E. apply list_elem_of_further, IH.
      apply elem_of_cons in Hin as [?|?]; [congruence|done].
Qed.

Lemma filter_keys_elem (P : jsstring * value → bool) (o : object) k :
  NoDup (obj_keys o) →
  k ∈ obj_keys (List.filter P o)
  ↔ k ∈ obj_keys o ∧ P (k, obj_get o k) = true.
Proof.
  intros Hnd. split.
  - intros Hin. apply list_elem_of_fmap in Hin as [[k0 v] [-> Hin]].
    apply list_elem_of_In, filter_In in Hin as [Hin HP].
    apply list_elem_of_In in Hin. cbn [fst].
    rewrite (obj_get_elem o k0 v Hnd Hin). split; [|done].
    apply list_elem_of_fmap. by exists (k0, v).
  - intros [Hin HP]. apply list_elem_of_fmap.
    exists (k, obj_get o k). split; [done|].
    apply list_elem_of_In, filter_In. split; [|done].
    by apply list_elem_of_In, obj_get_in.
Qed.

Lemma obj_get_filter (P : jsstring * value → bool) (o : object) k :
  NoDup (obj_keys o) →
  obj_get (List.filter P o) k
  = if decide (k ∈ obj_keys o)
    then if P (k, obj_get o k) then obj_get o k else JUndefined
    else JUndefined.
Proof.
  intros Hnd.
  destruct (decide (k ∈ obj_keys (List.filter P o))) as [Hin|Hnin].
  - pose proof Hin as Hin'. apply filter_keys_elem in Hin' as [Hk HP]; [|done].
    rewrite decide_True, HP by done.
    apply obj_get_elem; [by apply filter_keys_nodup|].
    apply list_elem_of_In, filter_In. split; [|done].
    by apply list_elem_of_In, obj_get_in.
  - rewrite obj_get_absent by done.
    destruct (decide (k ∈ obj_keys o)) as [Hk|Hk]; [|done].
    destruct (P (k, obj_get o k)) eqn:HP; [|done].
    exfalso. apply Hnin. by apply filter_keys_elem.
Qed.

(** [canonicalize] gives the same bytes for two maps that differ in the order
    of their keys, at the top and inside. *)
Lemma canonicalize_shuffled m m' :
  shuffled (JObj m) (JObj m') → canonicalize m = canonicalize m'.
Proof.
  intros Hs. inversion Hs as [|?|o o' Hnd Hnd' Hkeys Hvals]; subst; [done|].
  unfold canonicalize. f_equal. rewrite !canonical_filter_nodup by done.
  apply sortedStringify_shuffled.
  set (P := fun kv : jsstring * value =>
              kept kv && negb (str_eqb kv.1 (js "__proto__"))).
  assert (∀ k, P (k, obj_get m k) = P (k, obj_get m' k)) as HP.
  { intros k. unfold P, kept. cbn [fst snd].
    by destruct (shuffled_atoms _ _ (Hvals k)) as [-> ->]. }
  apply shuffled_object.
  - by apply filter_keys_nodup.
  - by apply filter_keys_nodup.
  - intros k. rewrite !filter_keys_elem by done. by rewrite Hkeys, HP.
  - intros k. rewrite !obj_get_filter by done. rewrite <- HP.
    destruct (decide (k ∈ obj_keys m)) as [Hin|Hnin].
    + rewrite decide_True by by apply Hkeys.
      destruct (P (k, obj_get m k)); [apply Hvals|apply shuffled_same].
    + rewrite decide_False by (by rewrite <- Hkeys). apply shuffled_same.
Qed.

End Canonical.

(** ** The cases of the test suite *)

Example canonicalize_sorts_keys :
  canonicalize [(js "b", JStr (js "2")); (js "a", JStr (js "1"))]
  = utf8_encode (json_text "{'a':'1','b':'2'}").
Proof. vm_compute. reflexivity. Qed.

Example canonicalize_excludes_signature :
  canonicalize [(js "a", JStr (js "1")); (js "signature", JStr (js "sig"))]
  = utf8_encode (json_text "{'a':'1'}").
Proof. vm_compute. reflexivity. Qed.

Example canonicalize_excludes_null_undefined :
  canonicalize [(js "a", JStr (js "1")); (js "b", JNull); (js "c", JUndefined)]
  = utf8_encode (json_text "{'a':'1'}").
Proof. vm_compute. reflexivity. Qed.

Example canonicalize_nested :
  canonicalize
    [(js "z", JObj [(js "b", JStr (js "2")); (js "a", JStr (js "1"))]);
     (js "a", JStr (js "x"))]
  = utf8_encode (json_text "{'a':'x','z':{'a':'1','b':'2'}}").
Proof. vm_compute. reflexivity. Qed.

Example canonicalize_empty : canonicalize [] = utf8_encode (js "{}").
Proof. vm_compute. reflexivity. Qed.

(** ** Claims C7 and C3 *)

(** C7: [canonicalize] gives the same bytes whatever the order in which the
    keys of the map were inserted (also when the keys of nested maps come in
    another order); taking out an entry whose value is [null] leaves the
    bytes as they are; and so does taking out the entry named [signature],
    which is not among the keys that are serialized. *)
Theorem canonicalize_order_null_signature (m m' : object) :
  NoDup (obj_keys m) → m ≡ₚ m' →
  canonicalize m = canonicalize m'
  ∧ (∀ m'', shuffled (JObj m) (JObj m'') → canonicalize m = canonicalize m'')
  ∧ (∀ m1 m2 k, m = m1 ++ (k, JNull) :: m2 →
       canonicalize (m1 ++ m2) = canonicalize m)
  ∧ (∀ m1 m2 v, m = m1 ++ (js "signature", v) :: m2 →
       canonicalize (m1 ++ m2) = canonicalize m)
  ∧ js "signature" ∉ obj_keys (canonical_filter m).
Proof.
  intros Hnd Hp. split_and!.
  - by apply canonicalize_perm.
  - intros m''. apply canonicalize_shuffled.
  - intros m1 m2 k ->. symmetry. apply canonicalize_dropped.
    unfold kept. cbn [fst snd is_null]. by rewrite andb_false_r.
  - intros m1 m2 v ->. symmetry. apply canonicalize_dropped.
    unfold kept. cbn [fst snd]. by rewrite str_eqb_refl.
  - apply canonical_filter_no_signature.
Qed.

Lemma canonicalize_order_null_signature_witness :
  canonicalize example_map = canonicalize example_map'
  ∧ canonicalize example_map
    = [123; 34; 97; 34; 58; 49; 44; 34; 98; 34; 58; 50; 125].
Proof.
  split.
  - refine (proj1 (canonicalize_order_null_signature example_map example_map' _ _)).
    + apply (bool_decide_unpack (NoDup (obj_keys example_map))).
      vm_compute. exact I.
    + unfold example_map, example_map'.
      etrans; [apply perm_swap|]. etrans; [apply perm_skip, perm_swap|].
      apply perm_swap.
  - vm_compute. reflexivity.
Defined.

(** A non-ASCII character that is no surrogate leaves [JSON.stringify] as it
    came in, and [TextEncoder] writes it as UTF-8 bytes above 127: there is
    no [\uXXXX] escape. *)
Lemma quote_unit_non_ascii (c : N) :
  128 ≤ c → c < 0xD800 → quote_unit c = [c].
Proof.
  intros Hlo Hhi. unfold quote_unit, is_high_surrogate, is_low_surrogate.
  repeat match goal with
         | |- context [c =? ?k] => rewrite (proj2 (N.eqb_neq c k)) by lia
         | |- context [c <? ?k] => rewrite (proj2 (N.ltb_ge c k)) by lia
         | |- context [?k <=? c] => rewrite (proj2 (N.leb_gt k c)) by lia
         end.
  reflexivity.
Qed.

(** C3 (as the code behaves): for the map with the one entry [a] whose value
    is the string of the single character U+00E9, the canonical bytes are
    the ASCII text up to the opening quote of the value, then the two UTF-8
    bytes 195 169 of the character, then the closing quote and brace. The
    text with the escape [\u00e9], which the claim promises, is not what
    comes out, and the output is not ASCII. *)
Theorem canonicalize_keeps_non_ascii :
  canonicalize [(js "a", JStr [233])]
  = [123; 34; 97; 34; 58; 34; 195; 169; 34; 125]
  ∧ canonicalize [(js "a", JStr [233])]
    ≠ [123; 34; 97; 34; 58; 34; 92; 117; 48; 48; 101; 57; 34; 125]
  ∧ ¬ Forall (fun b => b < 128) (canonicalize [(js "a", JStr [233])]).
Proof.
  assert (canonicalize [(js "a", JStr [233])]
          = [123; 34; 97; 34; 58; 34; 195; 169; 34; 125]) as E
    by (vm_compute; reflexivity).
  split_and!.
  - exact E.
  - rewrite E. discriminate.
  - rewrite E. intros Hall.
    do 6 (apply Forall_cons in Hall as [_ Hall]).
    apply Forall_cons in Hall as [Hb _]. lia.
Qed.

(* ===================================================================== *)
(** * Envelopes on the wire                                               *)
(* ===================================================================== *)

Section Wire.

Lemma stringify_strings (names : list jsstring) :
  stringify (JArr (map JStr names))
  = Some (js "[" ++ join (js ",") (map quote names) ++ js "]").
Proof.
  change (stringify (JArr (map JStr names))) with
    (Some (js "[" ++
           join (js ",")
             (map (fun x => default (js "null") (stringify x)) (map JStr names))
           ++ js "]")).
  by rewrite map_map.
Qed.

Lemma missing_fields_elem required d f :
  f ∈ missing_fields required d ↔ f ∈ required ∧ f ∉ obj_keys d.
Proof.
  unfold missing_fields. rewrite !list_elem_of_In, filter_In.
  rewrite negb_true_iff, obj_has_false. by rewrite list_elem_of_In.
Qed.

Lemma filter_nodup {A} (P : A → bool) (l : list A) :
  NoDup l → NoDup (List.filter P l).
Proof.
  induction 1 as [|x l Hx Hnd IH]; simpl; [constructor|].
  destruct (P x); [|done]. constructor; [|done].
  intros Hin. apply Hx. apply list_elem_of_In in Hin.
  apply filter_In in Hin as [Hin _]. by apply list_elem_of_In.
Qed.

Lemma REQUIRED_WIRE_FIELDS_nodup : NoDup REQUIRED_WIRE_FIELDS.
Proof.
  apply (bool_decide_unpack (NoDup REQUIRED_WIRE_FIELDS)). vm_compute. exact I.
Qed.

End Wire.

Example fromWireDict_two_fields :
  fromWireDict [(js "uam_version", JStr (js "0.1")); (js "message_id", JStr (js "x"))]
  = Throw (InvalidEnvelopeError
             (json_text "Missing required fields: ['from','nonce','payload','signature','timestamp','to','type']")).
Proof. vm_compute. reflexivity. Qed.

(** C9: [fromWireDict] fails exactly when a required field is missing, with
    an [InvalidEnvelopeError] whose message is [Missing required fields: ]
    followed by the JSON array of the missing names in ascending order; when
    none is missing it returns an envelope. *)
Theorem fromWireDict_missing_sorted (d : object) :
  ∃ names : list jsstring,
    Sorted key_le names ∧ NoDup names ∧
    (∀ f, f ∈ names ↔ f ∈ REQUIRED_WIRE_FIELDS ∧ f ∉ obj_keys d) ∧
    match fromWireDict d with
    | Throw (InvalidEnvelopeError message) =>
        names ≠ [] ∧
        message = js "Missing required fields: " ++
                  js "[" ++ join (js ",") (map quote names) ++ js "]"
    | Ok _ => names = []
    | Throw _ => False
    end.
Proof.
  exists (array_sort (missing_fields REQUIRED_WIRE_FIELDS d)).
  split_and!.
  - apply array_sort_sorted.
  - apply array_sort_nodup, filter_nodup, REQUIRED_WIRE_FIELDS_nodup.
  - intros f. by rewrite array_sort_elem, missing_fields_elem.
  - unfold fromWireDict.
    destruct (missing_fields REQUIRED_WIRE_FIELDS d) as [|f fs] eqn:E.
    + reflexivity.
    + cbn [length Nat.ltb Nat.leb]. split.
      * intros Hnil.
        assert (f ∈ array_sort (f :: fs)) as Hin
          by (apply array_sort_elem, elem_of_cons; by left).
        rewrite Hnil in Hin. by apply elem_of_nil in Hin.
      * by rewrite stringify_strings.
Qed.

(* ===================================================================== *)
(** * Creating and verifying envelopes                                    *)
(* ===================================================================== *)

Section CreateEnvelope.
Context {H : Host} {HL : HostLaws H}.

Lemma signing_key_tail seed :
  length seed = 32%nat → drop 32 (signing_key seed) = verify_key seed.
Proof.
  intros Hlen. unfold signing_key, verify_key.
  rewrite keypair_layout by done.
  rewrite drop_app_length'; done.
Qed.

Lemma signMessage_verifies seed data s :
  length seed = 32%nat →
  signMessage data (signing_key seed) = Ok s →
  verifySignature data (JStr s) (verify_key seed) = Ok tt.
Proof.
  intros Hlen. unfold signMessage, verifySignature, signing_key, verify_key.
  destruct (crypto_sign_detached data _) as [raw|] eqn:E; simpl; [|done].
  intros [= <-]. unfold b64Decode, b64Encode.
  rewrite base64url_decode_encode.
  by rewrite (sign_verify seed data raw Hlen E).
Qed.

Lemma signMessage_defined seed data :
  length seed = 32%nat → ∃ s, signMessage data (signing_key seed) = Ok s.
Proof.
  intros Hlen. unfold signMessage, signing_key.
  destruct (sign_defined seed data Hlen) as [raw ->]. simpl. eauto.
Qed.

Lemma encryptPayload_decrypts seedA seedB nonce plaintext c :
  length seedA = 32%nat → length seedB = 32%nat → length nonce = 24%nat →
  encryptPayload nonce plaintext (signing_key seedA) (verify_key seedB) = Ok c →
  decryptPayload (JStr c) (signing_key seedB) (verify_key seedA) = Ok plaintext.
Proof.
  intros HA HB Hn. unfold encryptPayload, decryptPayload, signing_key, verify_key.
  destruct (curve_defined seedA HA) as [[skA EskA] [pkA EpkA]].
  destruct (curve_defined seedB HB) as [[skB EskB] [pkB EpkB]].
  rewrite EskA, EpkB, EskB, EpkA.
  destruct (crypto_box_easy plaintext nonce pkB skA) as [enc|] eqn:E; [|done].
  intros [= <-]. cbn [b64Decode_any]. unfold b64Decode, b64Encode.
  rewrite base64url_decode_encode.
  unfold crypto_box_NONCEBYTES. rewrite <- Hn.
  rewrite take_app_length, drop_app_length.
  by rewrite (box_open seedA seedB plaintext nonce skA pkA skB pkB enc
                HA HB Hn EskA EpkA EskB EpkB E).
Qed.

Lemma encryptPayload_defined seedA seedB nonce plaintext :
  length seedA = 32%nat → length seedB = 32%nat → length nonce = 24%nat →
  ∃ c, encryptPayload nonce plaintext (signing_key seedA) (verify_key seedB) = Ok c.
Proof.
  intros HA HB Hn. unfold encryptPayload, signing_key, verify_key.
  destruct (curve_defined seedA HA) as [[skA EskA] _].
  destruct (curve_defined seedB HB) as [_ [pkB EpkB]].
  rewrite EskA, EpkB.
  destruct (box_defined seedA seedB plaintext nonce skA pkB HA HB Hn EskA EpkB)
    as [enc ->]. eauto.
Qed.

Lemma encryptPayloadAnonymous_decrypts seedB eph plaintext c :
  length seedB = 32%nat →
  encryptPayloadAnonymous eph plaintext (verify_key seedB) = Ok c →
  decryptPayloadAnonymous (JStr c) (signing_key seedB) = Ok plaintext.
Proof.
  intros HB. unfold encryptPayloadAnonymous, decryptPayloadAnonymous.
  rewrite (signing_key_tail seedB HB). unfold signing_key, verify_key.
  destruct (curve_defined seedB HB) as [[skB EskB] [pkB EpkB]].
  rewrite EskB, EpkB. simpl.
  destruct (crypto_box_seal eph plaintext pkB) as [enc|] eqn:E; simpl; [|done].
  intros [= <-]. unfold b64Decode, b64Encode.
  rewrite base64url_decode_encode.
  by rewrite (seal_open seedB eph plaintext skB pkB enc HB EskB EpkB E).
Qed.

Lemma encryptPayloadAnonymous_defined seedB eph plaintext :
  length seedB = 32%nat →
  ∃ c, encryptPayloadAnonymous eph plaintext (verify_key seedB) = Ok c.
Proof.
  intros HB. unfold encryptPayloadAnonymous, verify_key.
  destruct (curve_defined seedB HB) as [_ [pkB EpkB]].
  rewrite EpkB. simpl.
  destruct (seal_defined seedB eph plaintext pkB HB EpkB) as [enc ->].
  simpl. eauto.
Qed.

Lemma validateEnvelopeSize_ok e :
  validateEnvelopeSize e = Ok tt → wire_size e ≤ MAX_ENVELOPE_SIZE.
Proof.
  unfold validateEnvelopeSize.
  destruct (N.ltb_spec MAX_ENVELOPE_SIZE (wire_size e)); [done|]. lia.
Qed.

Lemma validateEnvelopeSize_cases e :
  validateEnvelopeSize e = Ok tt
  ∨ ∃ message, validateEnvelopeSize e = Throw (EnvelopeTooLargeError message).
Proof.
  unfold validateEnvelopeSize.
  destruct (MAX_ENVELOPE_SIZE <? wire_size e); eauto.
Qed.

End CreateEnvelope.

(** C4: an envelope that [createEnvelope] returns, made with the signing key
    of the sender and the verify key of the recipient, verifies under the
    sender's verify key, its payload decrypts to the plaintext (sealed box
    for [handshake.request], box otherwise), and its wire JSON has at most
    65,536 bytes; and for valid addresses [createEnvelope] either returns an
    envelope or throws [EnvelopeTooLargeError]. *)
Theorem createEnvelope_sound {H : Host} {HL : HostLaws H}
    (rnd : Entropy) (fromAddress toAddress messageType : jsstring)
    (plaintext seedA seedB : bytes) (options : EnvelopeOptions) :
  length seedA = 32%nat → length seedB = 32%nat →
  length (box_nonce rnd) = 24%nat →
  let created :=
    createEnvelope rnd fromAddress toAddress messageType plaintext
      (signing_key seedA) (verify_key seedB) options in
  (∀ e, created = Ok e →
     verifyEnvelope e (verify_key seedA) = Ok tt
     ∧ decrypt_for messageType e (signing_key seedB) (verify_key seedA)
       = Ok plaintext
     ∧ wire_size e ≤ 65536)
  ∧ ((∃ a, parseAddress fromAddress = Ok a) →
     (∃ a, parseAddress toAddress = Ok a) →
     (∃ e, created = Ok e)
     ∨ (∃ message, created = Throw (EnvelopeTooLargeError message))).
Proof.
  intros HA HB Hn created. subst created. unfold createEnvelope. split.
  - intros e.
    destruct (parseAddress fromAddress) as [?|?]; [|done].
    destruct (parseAddress toAddress) as [?|?]; [|done].
    cbn [bind_result].
    destruct (if str_eqb messageType MessageType.HANDSHAKE_REQUEST then _ else _)
      as [c|?] eqn:Eenc; [|done].
    cbn [bind_result].
    destruct (signMessage _ (signing_key seedA)) as [s|?] eqn:Esig; [|done].
    cbn [bind_result].
    destruct (validateEnvelopeSize _) as [[]|?] eqn:Esize; [|done].
    cbn [bind_result]. intros [= <-]. split_and!.
    + unfold verifyEnvelope. cbn [Envelope.signature].
      by apply signMessage_verifies.
    + unfold decrypt_for. cbn [payload].
      destruct (str_eqb messageType MessageType.HANDSHAKE_REQUEST).
      * by apply (encryptPayloadAnonymous_decrypts seedB (seal_ephemeral rnd)).
      * by apply (encryptPayload_decrypts seedA seedB (box_nonce rnd)).
    + by apply validateEnvelopeSize_ok.
  - intros [a ->] [b ->]. cbn [bind_result].
    assert (∃ c, (if str_eqb messageType MessageType.HANDSHAKE_REQUEST
                  then encryptPayloadAnonymous (seal_ephemeral rnd) plaintext
                         (verify_key seedB)
                  else encryptPayload (box_nonce rnd) plaintext
                         (signing_key seedA) (verify_key seedB)) = Ok c)
      as [c ->].
    { destruct (str_eqb messageType MessageType.HANDSHAKE_REQUEST).
      - by apply encryptPayloadAnonymous_defined.
      - by apply encryptPayload_defined. }
    cbn [bind_result].
    match goal with
    | |- context [signMessage ?d (signing_key seedA)] =>
        destruct (signMessage_defined seedA d HA) as [s ->]
    end.
    cbn [bind_result].
    match goal with
    | |- context [validateEnvelopeSize ?e] =>
        destruct (validateEnvelopeSize_cases e) as [-> | [message ->]]
    end; cbn [bind_result]; eauto.
Qed.

(* ===================================================================== *)
(** * The contact book                                                    *)
(* ===================================================================== *)

Section Strings.

Lemma startsWith_app p a : startsWith p (p ++ a) = true.
Proof.
  induction p as [|x p IH]; simpl; [by destruct a|].
  by rewrite N.eqb_refl.
Qed.

Lemma startsWith_true p a :
  startsWith p a = true → a = p ++ drop (length p) a.
Proof.
  revert a. induction p as [|x p IH]; intros [|y a]; simpl; try done.
  intros Hs. apply andb_true_iff in Hs as [Hx Hs].
  apply N.eqb_eq in Hx as ->. f_equal. by apply IH.
Qed.

Lemma startsWith_colon c s :
  58 ≠ c → startsWith (js "::") (c :: s) = false.
Proof.
  intros Hne. change (js "::") with [58; 58]. cbn [startsWith].
  destruct (N.eqb_spec 58 c) as [Heq|_]; [congruence|done].
Qed.

Lemma indexOf_colon_free s : colon_free s → indexOf (js "::") s = None.
Proof.
  unfold colon_free. induction s as [|c s IH]; intros Hc; [done|].
  apply not_elem_of_cons in Hc as [Hne Hc].
  cbn [indexOf]. rewrite startsWith_colon by done. by rewrite IH.
Qed.

Lemma indexOf_separator agent rest :
  colon_free agent →
  indexOf (js "::") (agent ++ js "::" ++ rest) = Some (length agent).
Proof.
  unfold colon_free. induction agent as [|c agent IH]; intros Hc.
  - change (indexOf (js "::") ([] ++ js "::" ++ rest)) with
      (if startsWith (js "::") (js "::" ++ rest) then Some 0%nat
       else S <$> indexOf (js "::") (58 :: rest)).
    by rewrite startsWith_app.
  - apply not_elem_of_cons in Hc as [Hne Hc].
    cbn [app length indexOf]. rewrite startsWith_colon by done.
    by rewrite IH.
Qed.

(** An address of the shape [agent::domain] splits into its two parts. *)
Lemma split_address agent domain :
  colon_free agent → colon_free domain →
  includes (js "::") (agent ++ js "::" ++ domain) = true
  ∧ str_split (js "::") (agent ++ js "::" ++ domain) = [agent; domain].
Proof.
  intros Ha Hd. unfold includes, str_split.
  rewrite indexOf_separator by done. split; [done|].
  cbn [split_fuel]. rewrite indexOf_separator by done.
  rewrite take_app_length.
  replace (drop (length agent + length (js "::")) (agent ++ js "::" ++ domain))
    with domain.
  2:{ rewrite app_assoc. rewrite drop_app_length'; [done|].
      by rewrite length_app. }
  rewrite !length_app. change (length (js "::")) with 2%nat.
  replace (length agent + (2 + length domain))%nat
    with (S (S (length agent + length domain))) by lia.
  cbn [split_fuel]. by rewrite indexOf_colon_free.
Qed.

End Strings.

Section BlockList.
Import ContactBook.

Lemma wildcard_pattern pattern :
  startsWith (js "*::") pattern = true → pattern = js "*::" ++ drop 3 pattern.
Proof. apply startsWith_true. Qed.

Lemma cache_fold_db patterns book :
  db (fold_left (fun book pattern => _cacheBlockPattern pattern book) patterns book)
  = db book.
Proof.
  revert book. induction patterns as [|p ps IH]; intros book; [done|].
  cbn [fold_left]. rewrite IH. unfold _cacheBlockPattern.
  by destruct (startsWith _ p).
Qed.

Lemma cache_fold_domains patterns book domain :
  domain ∈ _blockedDomains
             (fold_left (fun book pattern => _cacheBlockPattern pattern book)
                patterns book)
  ↔ domain ∈ _blockedDomains book ∨ js "*::" ++ domain ∈ patterns.
Proof.
  revert book. induction patterns as [|p ps IH]; intros book.
  - cbn [fold_left]. rewrite elem_of_nil. tauto.
  - cbn [fold_left]. rewrite IH. unfold _cacheBlockPattern.
    destruct (startsWith (js "*::") p) eqn:E; cbn [_blockedDomains].
    + rewrite elem_of_union, elem_of_singleton, elem_of_cons.
      apply wildcard_pattern in E.
      assert (domain = drop 3 p ↔ js "*::" ++ domain = p) as ->; [|tauto].
      split; [intros ->; by rewrite <- E|by intros <-].
    + rewrite elem_of_cons.
      assert (js "*::" ++ domain ≠ p); [|tauto].
      intros <-. by rewrite startsWith_app in E.
Qed.

Lemma cache_fold_exact patterns book pattern :
  pattern ∈ _blockedExact
              (fold_left (fun book pattern => _cacheBlockPattern pattern book)
                 patterns book)
  ↔ pattern ∈ _blockedExact book
    ∨ (pattern ∈ patterns ∧ startsWith (js "*::") pattern = false).
Proof.
  revert book. induction patterns as [|p ps IH]; intros book.
  - cbn [fold_left]. rewrite elem_of_nil. tauto.
  - cbn [fold_left]. rewrite IH. unfold _cacheBlockPattern.
    destruct (startsWith (js "*::") p) eqn:E; cbn [_blockedExact].
    + rewrite elem_of_cons.
      assert (pattern = p → startsWith (js "*::") pattern = false → False);
        [congruence|tauto].
    + rewrite elem_of_union, elem_of_singleton, elem_of_cons.
      assert (pattern = p → startsWith (js "*::") pattern = false);
        [congruence|tauto].
Qed.

(** [open] loads the caches. *)
Lemma open_caches_loaded book : caches_loaded (open book).
Proof.
  unfold open, caches_loaded. rewrite cache_fold_db. cbn [db]. split.
  - intros domain. rewrite cache_fold_domains. cbn [_blockedDomains].
    rewrite elem_of_dom, list_elem_of_fmap, elem_of_empty. split.
    + intros [[]|[[p t] [Hp Hin]]]. cbn [fst] in Hp. subst p.
      apply elem_of_map_to_list in Hin. by exists t.
    + intros [t Hin]. right. exists (js "*::" ++ domain, t). split; [done|].
      by apply elem_of_map_to_list.
  - intros pattern. rewrite cache_fold_exact. cbn [_blockedExact].
    rewrite elem_of_dom, list_elem_of_fmap, elem_of_empty. split.
    + intros [[]|[[[p t] [Hp Hin]] Hs]].
      cbn [fst] in Hp. subst p. split; [|done].
      apply elem_of_map_to_list in Hin. by exists t.
    + intros [[t Hin] Hs]. right. split; [|done].
      exists (pattern, t). split; [done|]. by apply elem_of_map_to_list.
Qed.

(** [addBlock] and [removeBlock] keep the caches loaded, for a pattern
    that SQLite keeps as it is (a string without lone surrogate). *)
Lemma addBlock_caches_loaded now book pattern book' :
  TEXT pattern = pattern →
  caches_loaded book → addBlock now book pattern = Ok book' →
  caches_loaded book'
  ∧ pattern ∈ dom (blocked_patterns (db book')).
Proof.
  intros Htext [Hd He]. unfold addBlock. destruct (_db book); [|done].
  rewrite Htext. cbn [negb]. intros [= <-].
  assert (dom (match blocked_patterns (db book) !! pattern with
               | Some _ => blocked_patterns (db book)
               | None => <[pattern:=now]> (blocked_patterns (db book))
               end) = {[ pattern ]} ∪ dom (blocked_patterns (db book))) as Hdom.
  { destruct (blocked_patterns (db book) !! pattern) eqn:E.
    - apply (elem_of_dom_2 (D:=gset jsstring)) in E.
      apply set_eq. intros x. rewrite elem_of_union, elem_of_singleton.
      split; [tauto|]. intros [->|?]; done.
    - by rewrite dom_insert_L. }
  unfold _cacheBlockPattern, caches_loaded, with_blocked.
  destruct (startsWith (js "*::") pattern) eqn:E;
    cbn [db _blockedDomains _blockedExact blocked_patterns]; rewrite Hdom.
  - split; [split|apply elem_of_union; left; by apply elem_of_singleton].
    + intros domain. rewrite !elem_of_union, !elem_of_singleton, Hd.
      apply wildcard_pattern in E.
      assert (domain = drop 3 pattern ↔ js "*::" ++ domain = pattern) as ->;
        [|tauto].
      split; [intros ->; by rewrite <- E|by intros <-].
    + intros p. rewrite He, elem_of_union, elem_of_singleton.
      assert (p = pattern → startsWith (js "*::") p = false → False);
        [congruence|tauto].
  - split; [split|apply elem_of_union; left; by apply elem_of_singleton].
    + intros domain. rewrite Hd, elem_of_union, elem_of_singleton.
      assert (js "*::" ++ domain ≠ pattern); [|tauto].
      intros <-. by rewrite startsWith_app in E.
    + intros p. rewrite !elem_of_union, !elem_of_singleton, He.
      assert (p = pattern → startsWith (js "*::") p = false);
        [congruence|tauto].
Qed.

Lemma removeBlock_caches_loaded book pattern book' :
  TEXT pattern = pattern →
  caches_loaded book → removeBlock book pattern = Ok book' →
  caches_loaded book'.
Proof.
  intros Htext [Hd He]. unfold removeBlock. destruct (_db book); [|done].
  rewrite Htext. cbn [negb]. intros [= <-].
  unfold _uncacheBlockPattern, caches_loaded, with_blocked.
  destruct (startsWith (js "*::") pattern) eqn:E;
    cbn [db _blockedDomains _blockedExact blocked_patterns];
    rewrite dom_delete_L.
  - split.
    + intros domain.
      rewrite !elem_of_difference, !not_elem_of_singleton, Hd.
      apply wildcard_pattern in E.
      assert (domain = drop 3 pattern ↔ js "*::" ++ domain = pattern) as ->;
        [|tauto].
      split; [intros ->; by rewrite <- E|by intros <-].
    + intros p. rewrite He, elem_of_difference, not_elem_of_singleton.
      assert (p = pattern → startsWith (js "*::") p = false → False);
        [congruence|tauto].
  - split.
    + intros domain. rewrite Hd, elem_of_difference, not_elem_of_singleton.
      assert (js "*::" ++ domain ≠ pattern); [|tauto].
      intros <-. by rewrite startsWith_app in E.
    + intros p. rewrite !elem_of_difference, !not_elem_of_singleton, He.
      tauto.
Qed.

Lemma wildcard_address agent domain :
  colon_free agent →
  startsWith (js "*::") (agent ++ js "::" ++ domain) = true →
  drop 3 (agent ++ js "::" ++ domain) = domain.
Proof.
  intros Ha. change (js "*::") with [42; 58; 58]. change (js "::") with [58; 58].
  destruct agent as [|c [|c' agent']]; cbn [app startsWith].
  - done.
  - done.
  - intros E. apply andb_true_iff in E as [_ E].
    apply andb_true_iff in E as [E _]. apply N.eqb_eq in E. exfalso.
    apply Ha. apply elem_of_cons. right. apply elem_of_cons. by left.
Qed.

Example blocks_domain_pattern :
  isBlocked ToyHost.blocking_book (js "anyone::evil.com") = true
  ∧ isBlocked ToyHost.blocking_book (js "safe::good.com") = false
  ∧ isBlocked
      (ToyHost.or_else ToyHost.blocking_book
         (removeBlock ToyHost.blocking_book (js "*::evil.com")))
      (js "anyone::evil.com") = false.
Proof. vm_compute. done. Qed.

(** An address under an exact or a wildcard pattern is blocked. *)
Lemma isBlocked_pattern book agent domain :
  colon_free agent → colon_free domain →
  caches_loaded book →
  agent ++ js "::" ++ domain ∈ dom (blocked_patterns (db book))
  ∨ js "*::" ++ domain ∈ dom (blocked_patterns (db book)) →
  isBlocked book (agent ++ js "::" ++ domain) = true.
Proof.
  intros Ha Hdm [Hd He] Hpat. unfold isBlocked.
  destruct (split_address agent domain Ha Hdm) as [-> ->].
  case_bool_decide as Hex; [done|].
  apply bool_decide_eq_true. apply Hd.
  destruct Hpat as [Hexact|Hwild]; [|done].
  destruct (startsWith (js "*::") (agent ++ js "::" ++ domain)) eqn:E.
  - pose proof (wildcard_address agent domain Ha E) as Hdrop.
    apply wildcard_pattern in E. rewrite Hdrop in E. by rewrite <- E.
  - exfalso. apply Hex. apply He. done.
Qed.

End BlockList.

(* ===================================================================== *)
(** * Addresses                                                           *)
(* ===================================================================== *)

Section Addresses.

Lemma label_forallb inner max s :
  label inner max s = true → forallb inner s = true.
Proof.
  unfold label. destruct s as [|c s]; [done|].
  intros Hl. apply andb_true_iff in Hl as [Hl _].
  by apply andb_true_iff in Hl as [_ Hl].
Qed.

Lemma forallb_colon_free (inner : N → bool) s :
  inner 58 = false → forallb inner s = true → colon_free s.
Proof.
  intros H58 Hall Hin. apply list_elem_of_In in Hin.
  rewrite forallb_forall in Hall. apply Hall in Hin. congruence.
Qed.

(** Neither part of a parsed address has a colon in it: a parsed address has
    the shape the block list splits correctly. *)
Lemma parseAddress_colon_free raw a :
  parseAddress raw = Ok a → colon_free (agent a) ∧ colon_free (domain a).
Proof.
  unfold parseAddress.
  destruct (MAX_ADDRESS_LEN <? length _)%nat; [done|].
  destruct (ADDRESS_RE_exec _) as [[ag d]|] eqn:E; [|done].
  destruct (MAX_AGENT_LEN <? length ag)%nat; [done|].
  intros [= <-]. cbn [agent domain].
  unfold ADDRESS_RE_exec in E. destruct (span_agent _) as [a0 rest].
  destruct (label is_agent_char 64 a0) eqn:La; [|done].
  destruct (startsWith (js "::") rest); [|done].
  destruct (label is_domain_char 255 (drop 2 rest)) eqn:Ld; [|done].
  cbn [andb] in E. injection E as <- <-. split.
  - apply label_forallb in La.
    by apply (forallb_colon_free is_agent_char).
  - apply label_forallb in Ld.
    by apply (forallb_colon_free is_domain_char).
Qed.

Example parseAddress_normalizes :
  parseAddress (js "  Alice::YouAM.network ")
  = Ok {| agent := js "alice"; domain := js "youam.network" |}.
Proof. vm_compute. reflexivity. Qed.

Example parseAddress_rejects_hyphen_start :
  parseAddress (js "-alice::youam.network")
  = Throw (InvalidAddressError
             (js "Invalid UAM address: " ++ quote (js "-alice::youam.network"))).
Proof. vm_compute. reflexivity. Qed.

Example parseAddress_rejects_single_colon :
  ∃ message, parseAddress (js "alice:youam.network") = Throw (InvalidAddressError message).
Proof. eexists. vm_compute. reflexivity. Qed.

End Addresses.

Section Contacts.
Import ContactBook.

(** What [addContact] does to an open book: it returns, the text of the new
    key and the given (or default) trust state are stored under the
    address, the other contacts are as before, and [pinned_at] of the
    address is as before. *)
Lemma addContact_upsert now book address publicKey options :
  _db book = true →
  ∃ book',
    addContact now book address publicKey options = Ok book'
    ∧ _db book' = true
    ∧ getPublicKey book' address = Some (TEXT publicKey)
    ∧ getTrustState book' address
      = Some (TEXT (default (js "trusted") (trustState options)))
    ∧ (∀ other, other ≠ TEXT address →
         contacts (db book') !! other = contacts (db book) !! other)
    ∧ (contacts (db book') !! TEXT address ≫= pinned_at)
      = (contacts (db book) !! TEXT address ≫= pinned_at)
    ∧ _blockedExact book' = _blockedExact book
    ∧ _blockedDomains book' = _blockedDomains book.
Proof.
  intros Hopen. unfold addContact, upsert_contact. rewrite Hopen.
  cbn [negb bind_result].
  eexists. split; [reflexivity|].
  unfold getPublicKey, getTrustState, select_contact.
  cbn [_db db contacts _blockedExact _blockedDomains negb mbind option_bind].
  rewrite !lookup_insert_eq. split_and!; try done.
  - by destruct (contacts (db book) !! TEXT address).
  - by destruct (contacts (db book) !! TEXT address).
  - intros other Hne. by rewrite lookup_insert_ne.
  - by destruct (contacts (db book) !! TEXT address).
Qed.

End Contacts.

(** C10: on an open book, [addContact] without [trustState] stores the
    contact as [trusted], a state that the inbound-message tests accept, and
    not as [unknown] or [unverified]. *)
Theorem addContact_default_trusted (now : N) (book : ContactBook.ContactBook)
    (address publicKey : jsstring) (options : ContactBook.ContactOptions) :
  ContactBook._db book = true →
  ContactBook.trustState options = None →
  ∃ book',
    ContactBook.addContact now book address publicKey options = Ok book'
    ∧ ContactBook.getTrustState book' address = Some (js "trusted")
    ∧ ContactBook.isTrustedOrVerified book' address = true
    ∧ Agent.unapproved (ContactBook.getTrustState book' address) = false
    ∧ ContactBook.getTrustState book' address ≠ Some (js "unknown")
    ∧ ContactBook.getTrustState book' address ≠ Some (js "unverified").
Proof.
  intros Hopen Hts.
  destruct (addContact_upsert now book address publicKey options Hopen)
    as (book' & Hadd & _ & _ & Htrust & _).
  rewrite Hts in Htrust. cbn [default] in Htrust.
  change (ContactBook.TEXT (js "trusted")) with (js "trusted") in Htrust.
  exists book'. unfold ContactBook.isTrustedOrVerified, Agent.unapproved.
  rewrite Htrust. split_and!; try done.
Qed.

Lemma addContact_default_trusted_witness :
  ∃ book',
    ContactBook.addContact 1 (ContactBook.open (ContactBook.new ContactBook.empty_database))
      (js "bob::youam.network") (js "pubkey_b") ContactBook.no_options = Ok book'
    ∧ ContactBook.getTrustState book' (js "bob::youam.network") = Some (js "trusted").
Proof.
  destruct (addContact_default_trusted 1
              (ContactBook.open (ContactBook.new ContactBook.empty_database))
              (js "bob::youam.network") (js "pubkey_b") ContactBook.no_options
              eq_refl eq_refl) as (book' & Hadd & Htrust & _).
  exists book'. by split.
Defined.

(* ===================================================================== *)
(** * The agent: what a computation keeps and what it returns             *)
(* ===================================================================== *)

Section Effects.
Import ContactBook Agent.

Section Rules.
Context (R : relation State) `{!PreOrder R}.

Lemma preserves_ret {A} (a : A) : preserves R (ret a).
Proof. intros st. reflexivity. Qed.

Lemma preserves_throw {A} (e : error) : preserves R (@throw A e).
Proof. intros st. reflexivity. Qed.

Lemma preserves_lift {A} (r : result A) : preserves R (lift r).
Proof. intros st. reflexivity. Qed.

Lemma preserves_book : preserves R book.
Proof. intros st. reflexivity. Qed.

Lemma preserves_bind {A B} (m : M A) (k : A → M B) (P : A → Prop) :
  preserves R m → returns m P → (∀ a, P a → preserves R (k a)) →
  preserves R (bind m k).
Proof.
  intros Hm Hr Hk st. unfold bind.
  specialize (Hm st). specialize (Hr st).
  destruct (m st) as [[a|e] st1]; cbn [fst snd] in *; [|done].
  etrans; [exact Hm|]. apply Hk. by apply Hr.
Qed.

Lemma preserves_seq {A B} (m : M A) (k : A → M B) :
  preserves R m → (∀ a, preserves R (k a)) → preserves R (bind m k).
Proof.
  intros Hm Hk. apply (preserves_bind m k (fun _ => True)); auto.
  by intros ???.
Qed.

Lemma preserves_try_ignore (m : M unit) :
  preserves R m → preserves R (try_ignore m).
Proof.
  intros Hm st. unfold try_ignore. specialize (Hm st).
  by destruct (m st) as [[a|e] st1].
Qed.

Lemma preserves_for_each {A} (items : list A) (body : A → M unit) :
  (∀ x, preserves R (body x)) → preserves R (for_each items body).
Proof.
  intros Hb. induction items as [|x items IH]; cbn [for_each].
  - apply preserves_ret.
  - apply preserves_seq; [apply Hb|]. intros _. apply IH.
Qed.

End Rules.

Lemma returns_bind {A B} (m : M A) (k : A → M B) (P : B → Prop) :
  (∀ a, returns (k a) P) → returns (bind m k) P.
Proof.
  intros Hk st b. unfold bind.
  destruct (m st) as [[a|e] st1]; [|done]. apply Hk.
Qed.

Lemma returns_ret {A} (a : A) (P : A → Prop) : P a → returns (ret a) P.
Proof. intros Ha st b [= <-]. done. Qed.

End Effects.

Ltac mstep :=
  match goal with
  | |- preserves _ (Agent.ret _) => apply preserves_ret
  | |- preserves _ (Agent.throw _) => apply preserves_throw
  | |- preserves _ (Agent.lift _) => apply preserves_lift
  | |- preserves _ Agent.book => apply preserves_book
  | |- preserves _ (Agent.try_ignore _) => apply preserves_try_ignore
  | |- preserves _ (Agent.for_each _ _) =>
      apply preserves_for_each; [typeclasses eauto|intros ?]
  | |- preserves _ (Agent.bind _ _) =>
      apply preserves_seq; [typeclasses eauto| |intros ?]
  | |- preserves _ (if ?c then _ else _) => destruct c
  | |- preserves _ (match ?x with _ => _ end) => destruct x
  end; try typeclasses eauto.

Section Relations.
Import ContactBook Agent.
Context {H : Host} (W : World) (cfg : Config).

#[export] Instance same_blocks_preorder : PreOrder same_blocks.
Proof.
  split.
  - by intros st.
  - intros st1 st2 st3 [? ?] [? ?]. split; congruence.
Qed.

#[export] Instance emits_preorder types : PreOrder (emits types).
Proof.
  split.
  - intros st. exists []. by rewrite app_nil_r.
  - intros st1 st2 st3 (n1 & E1 & F1) (n2 & E2 & F2). exists (n1 ++ n2). split.
    + by rewrite E2, E1, app_assoc.
    + by apply Forall_app.
Qed.

Lemma isBlocked_same_blocks st st' address :
  same_blocks st st' →
  isBlocked (_contactBook st') address = isBlocked (_contactBook st) address.
Proof. intros [He Hd]. unfold isBlocked. by rewrite He, Hd. Qed.

(** ** The wire dict of an envelope *)

Lemma obj_get_replace_ne o k v k' :
  k ≠ k' → obj_get (obj_replace o k v) k' = obj_get o k'.
Proof.
  intros Hne. induction o as [|[k0 v0] o IH]; [done|].
  cbn [obj_replace]. destruct (str_eqb k0 k) eqn:E; cbn [obj_get].
  - apply str_eqb_eq in E. subst k0.
    apply str_eqb_neq in Hne. by rewrite Hne.
  - by rewrite IH.
Qed.

Lemma obj_get_app_ne o k v k' :
  k ≠ k' → obj_get (o ++ [(k, v)]) k' = obj_get o k'.
Proof.
  intros Hne. induction o as [|[k0 v0] o IH]; cbn [app obj_get].
  - apply str_eqb_neq in Hne. by rewrite Hne.
  - by rewrite IH.
Qed.

Lemma obj_get_set_ne o k v k' :
  k ≠ k' → obj_get (obj_set o k v) k' = obj_get o k'.
Proof.
  intros Hne. unfold obj_set.
  destruct (str_eqb k (js "__proto__")); [done|].
  destruct (obj_has o k).
  - by apply obj_get_replace_ne.
  - by apply obj_get_app_ne.
Qed.

Lemma obj_get_set_if_defined_ne o k v k' :
  k ≠ k' → obj_get (set_if_defined o k v) k' = obj_get o k'.
Proof.
  intros Hne. unfold set_if_defined.
  destruct (negb (is_undefined v)); [|done]. by apply obj_get_set_ne.
Qed.

Lemma toWireDict_type e : obj_get (toWireDict e) (js "type") = type e.
Proof.
  unfold toWireDict, Envelope.buildSignableDict.
  rewrite !obj_get_set_if_defined_ne by (by vm_compute).
  rewrite obj_get_set_ne by (by vm_compute).
  rewrite !obj_get_set_if_defined_ne by (by vm_compute).
  reflexivity.
Qed.

Lemma createEnvelope_type rnd from to messageType plaintext sk vk options e :
  createEnvelope rnd from to messageType plaintext sk vk options = Ok e →
  type e = JStr messageType.
Proof.
  unfold createEnvelope.
  destruct (parseAddress from); [|done].
  destruct (parseAddress to); [|done]. cbn [bind_result].
  destruct (if str_eqb messageType MessageType.HANDSHAKE_REQUEST then _ else _);
    [|done].
  cbn [bind_result]. destruct (signMessage _ _); [|done].
  cbn [bind_result]. destruct (validateEnvelopeSize _); [|done].
  cbn [bind_result]. by intros [= <-].
Qed.

Lemma createEnvelope_any_type rnd from to messageType plaintext sk vk options e :
  createEnvelope_any rnd from to messageType plaintext sk vk options = Ok e →
  type e = JStr messageType.
Proof.
  unfold createEnvelope_any.
  destruct (parseAddress from); [|done]. cbn [bind_result].
  destruct (string_method _ to); [|done]. cbn [bind_result].
  apply createEnvelope_type.
Qed.

Lemma createEnvelopeM_type to messageType plaintext vk :
  returns (createEnvelopeM W cfg to messageType plaintext vk)
    (fun e => type e = JStr messageType).
Proof.
  intros st e. unfold createEnvelopeM, bind, draw, lift. cbn [fst].
  apply createEnvelope_any_type.
Qed.

End Relations.

Section AgentFrames.
Import ContactBook Agent.
Context {H : Host} (W : World) (cfg : Config).

(** ** The block caches stay as they are *)

Lemma blocks_now : preserves same_blocks (now W).
Proof. by intros st. Qed.

Lemma blocks_draw : preserves same_blocks (draw W).
Proof. by intros st. Qed.

Lemma blocks_transport_send wire : preserves same_blocks (transport_send W wire).
Proof. intros st. unfold transport_send. by destruct (delivers W _ _). Qed.

Lemma blocks_update_book (f : ContactBook → result ContactBook) :
  (∀ b b', f b = Ok b' →
     _blockedExact b' = _blockedExact b ∧ _blockedDomains b' = _blockedDomains b) →
  preserves same_blocks (update_book f).
Proof.
  intros Hf st. unfold update_book.
  destruct (f (_contactBook st)) as [b'|e] eqn:E; [|done].
  by apply Hf in E.
Qed.

Ltac bound_rows :=
  match goal with
  | |- context [bind_parameters ?args ?count] =>
      destruct (bind_parameters args count) as [params|]; [|done];
      cbn [bind_result]; repeat (destruct params as [|? params]; try done)
  end.

Lemma addContact_any_blocks now b address publicKey displayName ts tsrc b' :
  addContact_any now b address publicKey displayName ts tsrc = Ok b' →
  _blockedExact b' = _blockedExact b ∧ _blockedDomains b' = _blockedDomains b.
Proof.
  unfold addContact_any. destruct (_db b); [|done]. cbn [negb]. bound_rows.
  destruct (upsert_contact _ _ _ _ _ _ _ _ _); [|done]. cbn [bind_result].
  by intros [= <-].
Qed.

Lemma addPending_any_blocks now b address card b' :
  addPending_any now b address card = Ok b' →
  _blockedExact b' = _blockedExact b ∧ _blockedDomains b' = _blockedDomains b.
Proof.
  unfold addPending_any. destruct (_db b); [|done]. cbn [negb]. bound_rows.
  destruct (replace_pending _ _ _ _); [|done]. cbn [bind_result].
  by intros [= <-].
Qed.

Lemma setPinnedAt_any_blocks now b address b' :
  setPinnedAt_any now b address = Ok b' →
  _blockedExact b' = _blockedExact b ∧ _blockedDomains b' = _blockedDomains b.
Proof.
  unfold setPinnedAt_any. destruct (_db b); [|done]. cbn [negb]. bound_rows.
  by intros [= <-].
Qed.

Lemma removePending_any_blocks b address b' :
  removePending_any b address = Ok b' →
  _blockedExact b' = _blockedExact b ∧ _blockedDomains b' = _blockedDomains b.
Proof.
  unfold removePending_any. destruct (_db b); cbn [negb].
  - bound_rows. by intros [= <-].
  - by intros [= <-].
Qed.

Ltac blocks_prim :=
  first
    [ apply blocks_now | apply blocks_draw | apply blocks_transport_send
    | apply blocks_update_book; intros ? ?;
      first [ apply addContact_any_blocks | apply addPending_any_blocks
            | apply setPinnedAt_any_blocks | apply removePending_any_blocks ] ].

Ltac blocks_auto := repeat first [ progress cbv beta zeta | mstep | blocks_prim ].

Lemma blocks_createEnvelopeM to messageType plaintext vk :
  preserves same_blocks (createEnvelopeM W cfg to messageType plaintext vk).
Proof. unfold createEnvelopeM. blocks_auto. Qed.

Lemma blocks_sendAccept to vk : preserves same_blocks (_sendAccept W cfg to vk).
Proof.
  unfold _sendAccept. blocks_auto; apply blocks_createEnvelopeM.
Qed.

Lemma blocks_sendDeny to vk : preserves same_blocks (_sendDeny W cfg to vk).
Proof.
  unfold _sendDeny. blocks_auto; apply blocks_createEnvelopeM.
Qed.

Lemma blocks_handleInbound e vk :
  preserves same_blocks (handleInbound W cfg e vk).
Proof.
  unfold handleInbound, _handleRequest, _handleAccept.
  blocks_auto; first [apply blocks_sendAccept | apply blocks_sendDeny].
Qed.

Lemma blocks_processInbound raw :
  preserves same_blocks (_processInbound W cfg raw).
Proof.
  unfold _processInbound. blocks_auto; apply blocks_handleInbound.
Qed.

Lemma blocks_sendReadReceipt msg :
  preserves same_blocks (_sendReadReceipt W cfg msg).
Proof.
  unfold _sendReadReceipt. blocks_auto; apply blocks_createEnvelopeM.
Qed.

Lemma blocks_sweep : preserves same_blocks (_sweepExpiredHandshakes W cfg).
Proof.
  unfold _sweepExpiredHandshakes, sweep_entry.
  blocks_auto; apply blocks_createEnvelopeM.
Qed.

(** ** What the transport sends *)

Lemma emits_same types st st' : sent st' = sent st → emits types st st'.
Proof. intros E. exists []. by rewrite app_nil_r. Qed.

Lemma emits_now types : preserves (emits types) (now W).
Proof. intros st. by apply emits_same. Qed.

Lemma emits_draw types : preserves (emits types) (draw W).
Proof. intros st. by apply emits_same. Qed.

Lemma emits_update_book types f : preserves (emits types) (update_book f).
Proof.
  intros st. apply emits_same. unfold update_book.
  by destruct (f (_contactBook st)).
Qed.

Lemma emits_createEnvelopeM types to messageType plaintext vk :
  preserves (emits types) (createEnvelopeM W cfg to messageType plaintext vk).
Proof.
  unfold createEnvelopeM.
  repeat first [ progress cbv beta zeta | mstep | apply emits_draw ].
Qed.

(** Creating an envelope of a type among [types] and sending it. *)
Lemma emits_send types to messageType plaintext vk :
  messageType ∈ types →
  preserves (emits types)
    (bind (createEnvelopeM W cfg to messageType plaintext vk)
       (fun envelope => transport_send W (toWireDict envelope))).
Proof.
  intros Hin.
  apply (preserves_bind _ _ _ (fun e => type e = JStr messageType)).
  - apply emits_createEnvelopeM.
  - apply createEnvelopeM_type.
  - intros e He st. unfold transport_send.
    destruct (delivers W _ _); cbn [snd]; [|by apply emits_same].
    exists [toWireDict e]. split; [done|].
    apply Forall_singleton. exists messageType. split; [|done].
    by rewrite toWireDict_type.
Qed.

Ltac emits_prim :=
  first
    [ apply emits_now | apply emits_draw | apply emits_update_book
    | apply emits_send ].

Ltac emits_auto :=
  repeat first [ progress cbv beta zeta | emits_prim | mstep ].

Lemma emits_sendAccept types to vk :
  MessageType.HANDSHAKE_ACCEPT ∈ types →
  preserves (emits types) (_sendAccept W cfg to vk).
Proof. intros Hin. unfold _sendAccept. emits_auto. done. Qed.

Lemma emits_sendDeny types to vk :
  MessageType.HANDSHAKE_DENY ∈ types →
  preserves (emits types) (_sendDeny W cfg to vk).
Proof. intros Hin. unfold _sendDeny. emits_auto. done. Qed.

Lemma emits_handleInbound e vk :
  preserves (emits handshake_replies) (handleInbound W cfg e vk).
Proof.
  unfold handleInbound, _handleRequest, _handleAccept.
  emits_auto;
    first [ apply emits_sendAccept | apply emits_sendDeny | idtac ];
    repeat first [ apply list_elem_of_here | apply list_elem_of_further ].
Qed.

Lemma emits_processInbound raw :
  preserves (emits handshake_replies) (_processInbound W cfg raw).
Proof.
  unfold _processInbound. emits_auto; apply emits_handleInbound.
Qed.

End AgentFrames.

(* ===================================================================== *)
(** * The agent: inbound envelopes                                        *)
(* ===================================================================== *)

Section Inbound.
Import ContactBook Agent.
Context {H : Host} (W : World) (cfg : Config).

Lemma verifySignature_throws data sig vk e :
  verifySignature data sig vk = Throw e → e = SignatureVerificationError.
Proof.
  unfold verifySignature. destruct (b64Decode_any sig); [|by intros [= <-]].
  destruct (crypto_sign_verify_detached _ _ _) as [[]|]; try done;
    by intros [= <-].
Qed.

Lemma decryptPayload_throws c sk vk e :
  decryptPayload c sk vk = Throw e → e = DecryptionError.
Proof.
  unfold decryptPayload. destruct (b64Decode_any c); [|by intros [= <-]].
  cbv zeta.
  repeat match goal with
         | |- context [match ?x with _ => _ end] => destruct x
         end; try done; by intros [= <-].
Qed.

Lemma handleInbound_returns e vk :
  returns (handleInbound W cfg e vk) (fun r => r = None).
Proof.
  unfold handleInbound. apply returns_bind. intros _. by apply returns_ret.
Qed.

(** The key that [_processInbound] verifies with, read off [sender_key]. *)
Lemma sender_key_Some b from stored pk :
  getPublicKey_any b from = Ok stored →
  sender_key W b from = Ok (Some pk)
  ↔ match stored with
    | Some pk => Some pk
    | None => resolve_any W from
    end = Some pk.
Proof.
  intros Hstored. unfold sender_key. rewrite Hstored. cbn [bind_result].
  destruct stored; split; congruence.
Qed.

(** The trust test of [_processInbound], run in the state [st]. *)
Lemma trust_test_open st from :
  passes_trust_test cfg (_contactBook st) from ↔
  ((if negb (str_eqb (_trustPolicy cfg) (js "auto-accept")) then
      b <- book ;;
      trust <- lift (getTrustState_any b from) ;;
      ret (unapproved trust)
    else ret false)%M st = (Ok false, st)).
Proof.
  unfold passes_trust_test, bind, book, lift, ret.
  destruct (str_eqb (_trustPolicy cfg) (js "auto-accept")) eqn:Hpol; cbn [negb].
  - apply str_eqb_eq in Hpol. split; [done|]. by left.
  - apply str_eqb_neq in Hpol. split.
    + intros [?|(trust & -> & ->)]; done.
    + destruct (getTrustState_any (_contactBook st) from) as [trust|]; [|done].
      intros [= Hun]. right. by exists trust.
Qed.

Lemma trust_test_state st from :
  ((if negb (str_eqb (_trustPolicy cfg) (js "auto-accept")) then
      b <- book ;;
      trust <- lift (getTrustState_any b from) ;;
      ret (unapproved trust)
    else ret false)%M st).2 = st.
Proof.
  unfold bind, book, lift, ret.
  destruct (negb _); [|done].
  by destruct (getTrustState_any (_contactBook st) from).
Qed.

(** [_processInbound] returns a message exactly for the envelopes that pass
    its tests, and then leaves the state as it is. *)
Lemma processInbound_accepted raw st e plaintext :
  accepted W cfg raw st e plaintext →
  _processInbound W cfg raw st = (Ok (Some (received e plaintext)), st).
Proof.
  intros (Hwire & Hblock & Hhs & Htest & pk & Hkey & Hver & Hdec).
  apply trust_test_open in Htest.
  unfold _processInbound. unfold bind at 1, lift at 1. rewrite Hwire.
  unfold bind at 1, book at 1. unfold bind at 1, lift at 1. rewrite Hblock.
  unfold bind at 1, lift at 1.
  destruct (getPublicKey_any (_contactBook st) (fromAddress e)) as [stored|]
    eqn:Hstored.
  2:{ unfold sender_key in Hkey. by rewrite Hstored in Hkey. }
  apply (sender_key_Some _ _ _ _ Hstored) in Hkey. rewrite Hkey, Hver.
  unfold is_handshake in Hhs. rewrite Hhs.
  unfold bind at 1. rewrite Htest, Hdec. done.
Qed.

Lemma processInbound_Some raw st msg st' :
  _processInbound W cfg raw st = (Ok (Some msg), st') →
  st' = st
  ∧ ∃ e plaintext, accepted W cfg raw st e plaintext ∧ msg = received e plaintext.
Proof.
  unfold _processInbound. unfold bind at 1, lift at 1.
  destruct (fromWireDict raw) as [e|?] eqn:Hwire; [|done].
  unfold bind at 1, book at 1. unfold bind at 1, lift at 1.
  destruct (isBlocked_any (_contactBook st) (fromAddress e)) as [[]|?] eqn:Hblock;
    [done| |done].
  unfold bind at 1, lift at 1.
  destruct (getPublicKey_any (_contactBook st) (fromAddress e)) as [stored|]
    eqn:Hstored; [|done].
  destruct (match stored with
            | Some pk => Some pk
            | None => resolve_any W (fromAddress e)
            end) as [pk|] eqn:Hkey; [|done].
  destruct (verifyEnvelope e (deserializeVerifyKey pk)) as [[]|err] eqn:Hver.
  2:{ apply verifySignature_throws in Hver. by subst err. }
  destruct (is_str (type e) MessageType.HANDSHAKE_REQUEST
            || is_str (type e) MessageType.HANDSHAKE_ACCEPT
            || is_str (type e) MessageType.HANDSHAKE_DENY) eqn:Hhs.
  { intros Hr.
    pose proof (handleInbound_returns e (deserializeVerifyKey pk) st (Some msg))
      as Hnone.
    rewrite Hr in Hnone. by specialize (Hnone eq_refl). }
  unfold bind at 1.
  pose proof (trust_test_open st (fromAddress e)) as Htest.
  pose proof (trust_test_state st (fromAddress e)) as Hsame.
  revert Htest Hsame.
  match goal with
  | |- context [(if negb ?c then ?a else ?b) st] =>
      destruct ((if negb c then a else b) st) as [[[]|?] st1]
  end; cbn [snd]; intros Htest ->; [done| |done].
  destruct (decryptPayload (payload e) (signingKey cfg) (deserializeVerifyKey pk))
    as [plaintext|err] eqn:Hdec.
  2:{ apply decryptPayload_throws in Hdec. by subst err. }
  intros [= <- <-]. split; [done|].
  exists e, plaintext. split; [|done].
  unfold accepted, is_handshake. split_and!; try done.
  - by apply Htest.
  - exists pk. split_and!; try done. by apply (sender_key_Some _ _ _ _ Hstored).
Qed.

(** A handshake envelope never comes back as a message. *)
Lemma processInbound_handshake raw st e msg :
  fromWireDict raw = Ok e → is_handshake e = true →
  (_processInbound W cfg raw st).1 ≠ Ok (Some msg).
Proof.
  intros Hwire Hhs Hr.
  destruct (_processInbound W cfg raw st) as [r st'] eqn:E. cbn [fst] in Hr.
  subst r. apply processInbound_Some in E as (_ & e' & pt & Hacc & _).
  destruct Hacc as (Hwire' & _ & Hhs' & _). congruence.
Qed.

(** A handshake envelope that passes the block list and the signature check
    is what [handleInbound] of the handshake manager gets, and what
    [_processInbound] does then is what [handleInbound] does. *)
Lemma processInbound_routed raw st e senderVk :
  routed W raw st e senderVk →
  _processInbound W cfg raw st = handleInbound W cfg e senderVk st.
Proof.
  intros (Hwire & Hblock & Hhs & pk & Hkey & -> & Hver).
  unfold _processInbound. unfold bind at 1, lift at 1. rewrite Hwire.
  unfold bind at 1, book at 1. unfold bind at 1, lift at 1. rewrite Hblock.
  unfold bind at 1, lift at 1.
  destruct (getPublicKey_any (_contactBook st) (fromAddress e)) as [stored|]
    eqn:Hstored.
  2:{ unfold sender_key in Hkey. by rewrite Hstored in Hkey. }
  apply (sender_key_Some _ _ _ _ Hstored) in Hkey. rewrite Hkey, Hver.
  unfold is_handshake in Hhs. by rewrite Hhs.
Qed.

(** An envelope from a blocked sender is dropped before anything else is
    looked at, and nothing changes. *)
Lemma processInbound_blocked raw st e from :
  fromWireDict raw = Ok e → fromAddress e = JStr from →
  isBlocked (_contactBook st) from = true →
  _processInbound W cfg raw st = (Ok None, st).
Proof.
  intros Hwire Hfrom Hblock.
  unfold _processInbound, bind, lift, book, ret. rewrite Hwire, Hfrom.
  cbn [isBlocked_any]. by rewrite Hblock.
Qed.

(** ** The loop of [inbox] *)

Lemma delivered_Some raw st msg :
  delivered W cfg raw st = Some msg ↔
  ∃ e plaintext, accepted W cfg raw st e plaintext ∧ msg = received e plaintext.
Proof.
  unfold delivered. split.
  - destruct (_processInbound W cfg raw st) as [[[m|]|?] st1] eqn:E; try done.
    cbn [fst]. intros [= ->]. by apply processInbound_Some in E as [_ ?].
  - intros (e & plaintext & Hacc & ->).
    by rewrite (processInbound_accepted _ _ _ _ Hacc).
Qed.

Lemma delivered_state raw st msg :
  delivered W cfg raw st = Some msg →
  _processInbound W cfg raw st = (Ok (Some msg), st).
Proof.
  intros (e & plaintext & Hacc & ->)%delivered_Some.
  by apply processInbound_accepted.
Qed.

(** One turn of the loop: the state it leaves does not depend on the array
    built so far, and when it returns, the array has grown by the message
    that [_processInbound] returned, if any. *)
Lemma inbox_step_state raw result st :
  (inbox_step W cfg raw result st).2 = (inbox_step W cfg raw [] st).2.
Proof.
  unfold inbox_step, bind.
  destruct (_processInbound W cfg raw st) as [[[msg|]|e] st1]; try done.
  by destruct (_sendReadReceipt W cfg msg st1) as [[[]|e] st2].
Qed.

Lemma inbox_step_result raw result st result' :
  (inbox_step W cfg raw result st).1 = Ok result' →
  result' = result ++ option_list (delivered W cfg raw st).
Proof.
  unfold inbox_step, bind, delivered.
  destruct (_processInbound W cfg raw st) as [[[msg|]|e] st1]; cbn [fst].
  - destruct (_sendReadReceipt W cfg msg st1) as [[[]|e] st2]; [|done].
    by intros [= <-].
  - intros [= <-]. by rewrite app_nil_r.
  - done.
Qed.

Lemma blocks_inbox_step raw result :
  preserves same_blocks (inbox_step W cfg raw result).
Proof.
  unfold inbox_step.
  repeat first [ progress cbv beta | mstep
               | apply blocks_processInbound | apply blocks_sendReadReceipt ].
Qed.

(** The list that the loop returns: the array it starts with, and then, in
    the order of the batch, the message that [_processInbound] returns for
    each raw message in the state in which the loop takes it up. *)
Lemma inbox_loop_delivered rawMessages result st msgs st' :
  inbox_loop W cfg rawMessages result st = (Ok msgs, st') →
  msgs = result
         ++ omap (fun '(raw, st0) => delivered W cfg raw st0)
              (zip rawMessages (processing_states W cfg rawMessages st)).
Proof.
  revert result st. induction rawMessages as [|raw rest IH]; intros result st.
  - cbn [inbox_loop]. intros [= <- <-]. by rewrite app_nil_r.
  - cbn [inbox_loop processing_states zip zip_with omap list_omap].
    unfold bind at 1.
    pose proof (inbox_step_result raw result st) as Hres.
    pose proof (inbox_step_state raw result st) as Hst.
    destruct (inbox_step W cfg raw result st) as [[result'|e] st1]; [|done].
    cbn [fst snd] in *. rewrite <- Hst.
    intros Hloop. apply IH in Hloop as ->.
    rewrite (Hres _ eq_refl), <- app_assoc. f_equal.
    by destruct (delivered W cfg raw st).
Qed.

(** The block caches in the states of the loop are those of its start. *)
Lemma processing_states_blocks rawMessages st st0 :
  st0 ∈ processing_states W cfg rawMessages st → same_blocks st st0.
Proof.
  revert st. induction rawMessages as [|raw rest IH]; intros st;
    cbn [processing_states].
  - by intros ?%elem_of_nil.
  - intros [->|Hin]%elem_of_cons; [reflexivity|].
    etrans; [apply (blocks_inbox_step raw [] st)|]. by apply IH.
Qed.

(** Every message that [inbox] returns was returned by [_processInbound] for
    one of the raw messages, in a state with the block caches of the start. *)
Lemma inbox_loop_messages rawMessages result st msgs st' :
  inbox_loop W cfg rawMessages result st = (Ok msgs, st') →
  ∀ msg, msg ∈ msgs →
    msg ∈ result
    ∨ ∃ raw st0, raw ∈ rawMessages ∧ same_blocks st st0
                 ∧ _processInbound W cfg raw st0 = (Ok (Some msg), st0).
Proof.
  intros Hloop%inbox_loop_delivered msg Hin. subst msgs.
  apply elem_of_app in Hin as [?|Hin]; [by left|]. right.
  apply list_elem_of_omap in Hin as ([raw st0] & Hin & Hdel).
  exists raw, st0. split_and!.
  - by apply elem_of_zip_l in Hin.
  - apply elem_of_zip_r in Hin. by apply processing_states_blocks in Hin.
  - by apply delivered_state.
Qed.

End Inbound.

(* ===================================================================== *)
(** * The example host satisfies the laws                                 *)
(* ===================================================================== *)

Lemma toy_laws : HostLaws ToyHost.toy.
Proof.
  split; cbn.
  - done.
  - intros seed m _. eauto.
  - intros seed m s Hlen [= <-].
    rewrite drop_app_length' by done. by rewrite bool_decide_eq_true_2.
  - intros seed _. split; eauto.
  - intros. eauto.
  - intros seedA seedB m n skA pkA skB pkB c _ _ _ _ _ _ _ [= <-].
    by rewrite rev_involutive.
  - intros. eauto.
  - intros seedB eph m skB pkB c _ _ _ [= <-]. by rewrite rev_involutive.
  - done.
Qed.

Lemma createEnvelope_sound_witness :
  ∃ e,
    createEnvelope (H:=ToyHost.toy) ToyHost.draws ToyHost.alice ToyHost.bob
      MessageType.MESSAGE (utf8_encode (js "hello"))
      (signing_key (H:=ToyHost.toy) ToyHost.alice_seed)
      (verify_key (H:=ToyHost.toy) ToyHost.bob_seed) Envelope.no_options = Ok e
    ∧ verifyEnvelope (H:=ToyHost.toy) e (verify_key (H:=ToyHost.toy) ToyHost.alice_seed)
      = Ok tt
    ∧ decryptPayload (H:=ToyHost.toy) (payload e)
        (signing_key (H:=ToyHost.toy) ToyHost.bob_seed)
        (verify_key (H:=ToyHost.toy) ToyHost.alice_seed)
      = Ok (utf8_encode (js "hello"))
    ∧ wire_size e ≤ 65536.
Proof.
  destruct (createEnvelope_sound (H:=ToyHost.toy) (HL:=toy_laws)
              ToyHost.draws ToyHost.alice ToyHost.bob MessageType.MESSAGE
              (utf8_encode (js "hello")) ToyHost.alice_seed ToyHost.bob_seed
              Envelope.no_options eq_refl eq_refl eq_refl) as [Hsound _].
  eexists. split; [vm_compute; reflexivity|].
  apply Hsound. vm_compute. reflexivity.
Defined.

(* ===================================================================== *)
(** * Claims about the block list, receipts, routing and trust            *)
(* ===================================================================== *)

(** C6: when the table of block patterns holds the address itself or the
    wildcard of its domain, [isBlocked] is true for the address,
    [_processInbound] drops an envelope from it at once (before the key
    lookup, the signature check and the decryption, with no change of
    state), and no message that [inbox] returns comes from it. *)
Theorem blocked_sender_never_delivered {H : Host}
    (W : Agent.World) (cfg : Agent.Config) (st : Agent.State)
    (agent domain : jsstring) :
  colon_free agent → colon_free domain →
  caches_loaded (Agent._contactBook st) →
  agent ++ js "::" ++ domain
    ∈ dom (ContactBook.blocked_patterns (ContactBook.db (Agent._contactBook st)))
  ∨ js "*::" ++ domain
    ∈ dom (ContactBook.blocked_patterns (ContactBook.db (Agent._contactBook st))) →
  ContactBook.isBlocked (Agent._contactBook st) (agent ++ js "::" ++ domain) = true
  ∧ (∀ raw e,
       fromWireDict raw = Ok e →
       fromAddress e = JStr (agent ++ js "::" ++ domain) →
       Agent._processInbound W cfg raw st = (Ok None, st))
  ∧ (∀ rawMessages msgs st',
       Agent.inbox W cfg rawMessages st = (Ok msgs, st') →
       ∀ msg, msg ∈ msgs →
         Agent.msg_fromAddress msg ≠ JStr (agent ++ js "::" ++ domain)).
Proof.
  intros Ha Hd Hcache Hpat.
  pose proof (isBlocked_pattern _ agent domain Ha Hd Hcache Hpat) as Hblocked.
  split_and!; [done| |].
  - intros raw e Hwire Hfrom.
    by apply (processInbound_blocked W cfg raw st e (agent ++ js "::" ++ domain)).
  - intros rawMessages msgs st'. unfold Agent.inbox, Agent.bind.
    pose proof (blocks_sweep W cfg st) as Hsweep.
    destruct (Agent._sweepExpiredHandshakes W cfg st) as [[[]|err] st1];
      [|done].
    cbn [snd] in Hsweep. intros Hloop msg Hin Hfrom.
    destruct (inbox_loop_messages W cfg _ _ _ _ _ Hloop msg Hin)
      as [Hnil|(raw & st0 & _ & Hsame & Hproc)].
    { by apply elem_of_nil in Hnil. }
    apply processInbound_Some in Hproc as (_ & e & plaintext & Hacc & ->).
    destruct Hacc as (_ & Hnot & _).
    change (fromAddress e = JStr (agent ++ js "::" ++ domain)) in Hfrom.
    rewrite Hfrom in Hnot.
    change (Ok (ContactBook.isBlocked (Agent._contactBook st0)
                  (agent ++ js "::" ++ domain)) = Ok false) in Hnot.
    rewrite (isBlocked_same_blocks st1 st0) in Hnot by done.
    rewrite (isBlocked_same_blocks st st1) in Hnot by done.
    rewrite Hblocked in Hnot. discriminate Hnot.
Qed.

Lemma blocked_sender_never_delivered_witness :
  ContactBook.isBlocked ToyHost.blocking_book (js "spammer::evil.com") = true.
Proof.
  refine (proj1 (blocked_sender_never_delivered (H:=ToyHost.toy) ToyHost.world
                   (ToyHost.bob_config (js "auto-accept"))
                   (ToyHost.connected ToyHost.blocking_book)
                   (js "spammer") (js "evil.com") _ _ _ _)).
  - apply (bool_decide_unpack (colon_free (js "spammer"))). vm_compute. exact I.
  - apply (bool_decide_unpack (colon_free (js "evil.com"))). vm_compute. exact I.
  - exact (proj1 (addBlock_caches_loaded 1 ToyHost.empty_book (js "*::evil.com")
                    ToyHost.blocking_book eq_refl (open_caches_loaded _) eq_refl)).
  - right.
    exact (proj2 (addBlock_caches_loaded 1 ToyHost.empty_book (js "*::evil.com")
                    ToyHost.blocking_book eq_refl (open_caches_loaded _) eq_refl)).
Defined.

Section Receipts.
Import ContactBook Agent.
Context {H : Host} (W : World) (cfg : Config).










Lemma emits_sweep :
  preserves (emits [MessageType.RECEIPT_FAILED]) (_sweepExpiredHandshakes W cfg).
Proof.
  unfold _sweepExpiredHandshakes, sweep_entry.
  repeat first [ progress cbv beta zeta
               | apply emits_now | apply emits_draw | apply emits_update_book
               | apply emits_send | mstep ].
  apply list_elem_of_here.
Qed.




End Receipts.



Section Routing.
Import ContactBook Agent.
Context {H : Host} (W : World) (cfg : Config).

(** The list that [inbox] returns: for each raw message of the batch, in
    order, the message that [_processInbound] returns for it in the state
    in which the loop takes it up, after the sweep. *)
Lemma inbox_delivered rawMessages st msgs st' :
  inbox W cfg rawMessages st = (Ok msgs, st') →
  msgs = omap (fun '(raw, st0) => delivered W cfg raw st0)
           (zip rawMessages
              (processing_states W cfg rawMessages
                 (_sweepExpiredHandshakes W cfg st).2)).
Proof.
  unfold inbox, bind.
  destruct (_sweepExpiredHandshakes W cfg st) as [[[]|err] st1]; [|done].
  cbn [snd]. by intros ->%inbox_loop_delivered.
Qed.

(** Every message that [inbox] returns is an envelope of the batch that
    passed the tests of [_processInbound] in the state in which the loop
    took it up. *)
Lemma inbox_messages rawMessages st msgs st' :
  inbox W cfg rawMessages st = (Ok msgs, st') →
  ∀ msg, msg ∈ msgs →
    ∃ raw st0 e plaintext,
      (raw, st0) ∈ zip rawMessages
                     (processing_states W cfg rawMessages
                        (_sweepExpiredHandshakes W cfg st).2)
      ∧ accepted W cfg raw st0 e plaintext
      ∧ msg = received e plaintext.
Proof.
  intros ->%inbox_delivered msg ([raw st0] & Hin & Hdel)%list_elem_of_omap.
  apply delivered_Some in Hdel as (e & plaintext & Hacc & ->).
  by exists raw, st0, e, plaintext.
Qed.

End Routing.

(** C5 (as the code behaves): an envelope of one of the three handshake types
    never comes back as a message, and one that passes the block list and
    the signature check is handed to [handleInbound] of the handshake
    manager. An envelope of any other type, the receipt and session types
    included, that in the state of the agent passes the block list, the
    signature check, the trust test and the decryption comes back as a
    [ReceivedMessage] that carries its type, and [_processInbound] returns a
    message for no other envelope. The list that [inbox] returns holds, in
    the order of the batch, the messages that [_processInbound] returns for
    the raw messages, each in the state in which the loop takes it up; so
    each message of the list is an envelope of the batch that passed the
    tests on the agent's contact book at that point. *)
Theorem inbox_returns_all_but_handshakes {H : Host}
    (W : Agent.World) (cfg : Agent.Config) (st : Agent.State) :
  (∀ raw e msg,
     fromWireDict raw = Ok e → is_handshake e = true →
     (Agent._processInbound W cfg raw st).1 ≠ Ok (Some msg))
  ∧ (∀ raw e senderVk,
       routed W raw st e senderVk →
       Agent._processInbound W cfg raw st = Agent.handleInbound W cfg e senderVk st)
  ∧ (∀ raw e plaintext,
       accepted W cfg raw st e plaintext →
       Agent._processInbound W cfg raw st = (Ok (Some (received e plaintext)), st)
       ∧ Agent.msg_type (received e plaintext) = type e
       ∧ is_handshake e = false)
  ∧ (∀ raw msg st',
       Agent._processInbound W cfg raw st = (Ok (Some msg), st') →
       st' = st
       ∧ ∃ e plaintext,
           accepted W cfg raw st e plaintext ∧ msg = received e plaintext)
  ∧ (∀ rawMessages msgs st',
       Agent.inbox W cfg rawMessages st = (Ok msgs, st') →
       msgs = omap (fun '(raw, st0) => delivered W cfg raw st0)
                (zip rawMessages
                   (processing_states W cfg rawMessages
                      (Agent._sweepExpiredHandshakes W cfg st).2))
       ∧ ∀ msg, msg ∈ msgs →
           ∃ raw st0 e plaintext,
             (raw, st0) ∈ zip rawMessages
                            (processing_states W cfg rawMessages
                               (Agent._sweepExpiredHandshakes W cfg st).2)
             ∧ accepted W cfg raw st0 e plaintext
             ∧ msg = received e plaintext).
Proof.
  split_and!.
  - intros raw e msg. apply processInbound_handshake.
  - intros raw e senderVk. apply processInbound_routed.
  - intros raw e plaintext Hacc. split_and!.
    + by apply processInbound_accepted.
    + done.
    + by destruct Hacc as (_ & _ & ? & _).
  - intros raw msg st'. apply processInbound_Some.
  - intros rawMessages msgs st' Hinbox. split.
    + by apply (inbox_delivered W cfg rawMessages st msgs st').
    + by apply (inbox_messages W cfg rawMessages st msgs st').
Qed.

(** C5 fails as stated: under [auto-accept], a [receipt.read] envelope from
    alice with a good signature and payload is in the list that bob's
    [inbox] returns. *)
Lemma receipt_returned_by_inbox :
  match (Agent.inbox (H:=ToyHost.toy) ToyHost.world
           (ToyHost.bob_config (js "auto-accept"))
           [ToyHost.wire_from_alice MessageType.RECEIPT_READ (js "hi")]
           (ToyHost.connected ToyHost.empty_book)).1 with
  | Ok [msg] =>
      Agent.msg_type msg = JStr MessageType.RECEIPT_READ
      ∧ Agent.content msg = text_decode (Host:=ToyHost.toy) (utf8_encode (js "hi"))
  | _ => False
  end.
Proof. vm_compute. split; reflexivity. Qed.

(** C2 (as the code behaves): bob's policy is [approval-required] and alice
    is [pinned] in his book, a state that [isTrustedOrVerified] accepts;
    her message envelope verifies and decrypts; and [inbox] returns the
    empty list for it. *)
Theorem pinned_sender_message_dropped :
  ContactBook.getTrustState ToyHost.pinned_book ToyHost.alice = Some (js "pinned")
  ∧ ContactBook.isTrustedOrVerified ToyHost.pinned_book ToyHost.alice = true
  ∧ match fromWireDict (ToyHost.wire_from_alice MessageType.MESSAGE (js "hi")) with
    | Ok e =>
        type e = JStr MessageType.MESSAGE
        ∧ fromAddress e = JStr ToyHost.alice
        ∧ verifyEnvelope (H:=ToyHost.toy) e ToyHost.alice_verifyKey = Ok tt
        ∧ decryptPayload (H:=ToyHost.toy) (payload e) ToyHost.bob_signingKey
            ToyHost.alice_verifyKey = Ok (utf8_encode (js "hi"))
    | Throw _ => False
    end
  ∧ (Agent.inbox (H:=ToyHost.toy) ToyHost.world
       (ToyHost.bob_config (js "approval-required"))
       [ToyHost.wire_from_alice MessageType.MESSAGE (js "hi")]
       (ToyHost.connected ToyHost.pinned_book)).1 = Ok [].
Proof.
  split_and!.
  - vm_compute. reflexivity.
  - vm_compute. reflexivity.
  - vm_compute. split_and!; reflexivity.
  - vm_compute. reflexivity.
Qed.

(** C1 (as the code behaves): alice is [pinned] in bob's book with her key
    and a [pinned_at] time. [addContact] for her address with another key
    returns without an error, and the other key is then the stored one, with
    the trust state [trusted]. And under [auto-accept], a
    [handshake.request] that mallory sends from her own address, signed with
    her own key, with a contact card that she signed for alice's address:
    [inbox] returns the empty list without an error, a [handshake.accept]
    goes to mallory, and then the key stored for alice is mallory's, with
    the trust state [provisional]. No [KeyPinningError] is raised. *)
Theorem pinned_key_replaced :
  ContactBook.getTrustState ToyHost.pinned_book ToyHost.alice = Some (js "pinned")
  ∧ ContactBook.getPublicKey ToyHost.pinned_book ToyHost.alice
    = Some (serializeVerifyKey (H:=ToyHost.toy) ToyHost.alice_verifyKey)
  ∧ (ContactBook.contacts (ContactBook.db ToyHost.pinned_book) !! ToyHost.alice
       ≫= ContactBook.pinned_at) = Some 2
  ∧ js "other-key" ≠ serializeVerifyKey (H:=ToyHost.toy) ToyHost.alice_verifyKey
  ∧ match ContactBook.addContact 3 ToyHost.pinned_book ToyHost.alice
            (js "other-key") ContactBook.no_options with
    | Ok book' =>
        ContactBook.getPublicKey book' ToyHost.alice = Some (js "other-key")
        ∧ ContactBook.getTrustState book' ToyHost.alice = Some (js "trusted")
    | Throw _ => False
    end
  ∧ serializeVerifyKey (H:=ToyHost.toy) ToyHost.mallory_verifyKey
    ≠ serializeVerifyKey (H:=ToyHost.toy) ToyHost.alice_verifyKey
  ∧ obj_get ToyHost.request_from_mallory (js "from") = JStr ToyHost.mallory
  ∧ obj_get ToyHost.request_from_mallory (js "type")
    = JStr MessageType.HANDSHAKE_REQUEST
  ∧ obj_get ToyHost.forged_card (js "address") = JStr ToyHost.alice
  ∧ match Agent.inbox (H:=ToyHost.reader) ToyHost.open_world
            (ToyHost.bob_config (js "auto-accept"))
            [ToyHost.request_from_mallory]
            (ToyHost.connected ToyHost.pinned_book) with
    | (Ok [], st') =>
        ContactBook.getPublicKey (Agent._contactBook st') ToyHost.alice
        = Some (serializeVerifyKey (H:=ToyHost.toy) ToyHost.mallory_verifyKey)
        ∧ ContactBook.getTrustState (Agent._contactBook st') ToyHost.alice
          = Some (js "provisional")
        ∧ map (fun wire => (obj_get wire (js "type"), obj_get wire (js "to")))
            (Agent.sent st')
          = [(JStr MessageType.HANDSHAKE_ACCEPT, JStr ToyHost.mallory)]
    | _ => False
    end.
Proof.
  split_and!.
  - vm_compute. reflexivity.
  - vm_compute. reflexivity.
  - vm_compute. reflexivity.
  - vm_compute. discriminate.
  - vm_compute. split; reflexivity.
  - vm_compute. discriminate.
  - vm_compute. reflexivity.
  - vm_compute. reflexivity.
  - vm_compute. reflexivity.
  - vm_compute. split_and!; reflexivity.
Qed.


(* ===================================================================== *)
(** * Addresses: the normal form                                          *)
(* ===================================================================== *)

Section AddressNormalForm.

Lemma span_agent_app s a rest :
  span_agent s = (a, rest) → s = a ++ rest ∧ forallb is_agent_char a = true.
Proof.
  revert a rest. induction s as [|c s IH]; intros a rest; cbn [span_agent].
  - by intros [= <- <-].
  - destruct (is_agent_char c) eqn:Ec.
    + destruct (span_agent s) as [a0 r0]. intros [= <- <-].
      destruct (IH a0 r0 eq_refl) as [-> Hall]. split; [done|].
      cbn [forallb]. by rewrite Ec, Hall.
    + by intros [= <- <-].
Qed.

Lemma span_agent_stop a rest :
  forallb is_agent_char a = true →
  span_agent (a ++ 58 :: rest) = (a, 58 :: rest).
Proof.
  induction a as [|c a IH]; cbn [forallb app span_agent]; [done|].
  intros Hall. apply andb_true_iff in Hall as [-> Hall]. by rewrite IH.
Qed.

Lemma ADDRESS_RE_exec_Some s a d :
  ADDRESS_RE_exec s = Some (a, d) →
  s = a ++ js "::" ++ d
  ∧ label is_agent_char 64 a = true ∧ label is_domain_char 255 d = true.
Proof.
  unfold ADDRESS_RE_exec. destruct (span_agent s) as [a0 rest] eqn:Es.
  destruct (label is_agent_char 64 a0) eqn:La; [|done].
  destruct (startsWith (js "::") rest) eqn:Ec; [|done].
  destruct (label is_domain_char 255 (drop 2 rest)) eqn:Ld; [|done].
  cbn [andb]. intros [= <- <-].
  apply span_agent_app in Es as [-> _].
  apply startsWith_true in Ec. split_and!; [|done..]. f_equal. exact Ec.
Qed.

Lemma ADDRESS_RE_exec_label a d :
  label is_agent_char 64 a = true → label is_domain_char 255 d = true →
  ADDRESS_RE_exec (a ++ js "::" ++ d) = Some (a, d).
Proof.
  intros La Ld. unfold ADDRESS_RE_exec.
  change (js "::" ++ d) with (58 :: 58 :: d).
  rewrite span_agent_stop by by apply label_forallb in La.
  rewrite La. change (startsWith (js "::") (58 :: 58 :: d)) with true.
  cbn [andb drop]. rewrite drop_0. by rewrite Ld.
Qed.

Lemma label_length inner max s :
  label inner max s = true → (1 ≤ length s ≤ max)%nat.
Proof.
  unfold label. destruct s as [|c s]; [done|].
  intros Hl. apply andb_true_iff in Hl as [_ Hl].
  apply Nat.leb_le in Hl. cbn [length] in *. lia.
Qed.

Lemma label_ends inner max s :
  label inner max s = true →
  ∃ first, head s = Some first ∧ is_alnum first = true
           ∧ is_alnum (List.last s 0) = true.
Proof.
  unfold label. destruct s as [|c s]; [done|].
  intros Hl. apply andb_true_iff in Hl as [Hl _].
  apply andb_true_iff in Hl as [Hl _].
  apply andb_true_iff in Hl as [Hf Hlast]. by exists c.
Qed.

Lemma is_alnum_range c : is_alnum c = true → 48 ≤ c ≤ 122.
Proof.
  unfold is_alnum. rewrite orb_true_iff, !andb_true_iff, !N.leb_le. lia.
Qed.

Lemma is_alnum_not_white_space c : is_alnum c = true → is_white_space c = false.
Proof.
  intros Hc%is_alnum_range. unfold is_white_space.
  rewrite (proj2 (N.leb_gt c 13)) by lia.
  rewrite (proj2 (N.leb_gt 0x2000 c)) by lia.
  repeat match goal with
         | |- context [c =? ?y] => rewrite (proj2 (N.eqb_neq c y)) by lia
         end.
  by rewrite andb_false_r.
Qed.

Lemma trimStart_head s c :
  head s = Some c → is_white_space c = false → trimStart s = s.
Proof. destruct s as [|c' s]; [done|]. intros [= ->]. cbn. by intros ->. Qed.

Lemma head_rev_last (s : jsstring) c :
  s ≠ [] → head (rev s) = Some (List.last s c).
Proof.
  induction s as [|x s IH] using rev_ind; [done|]. intros _.
  rewrite rev_app_distr, last_last. done.
Qed.

Lemma trim_label_ends s first :
  head s = Some first → is_white_space first = false →
  is_white_space (List.last s 0) = false → trim s = s.
Proof.
  intros Hh Hf Hl. unfold trim. rewrite (trimStart_head s first Hh Hf).
  rewrite (trimStart_head (rev s) (List.last s 0)); [by rewrite rev_involutive| |done].
  apply head_rev_last. by destruct s.
Qed.

Lemma lower_unit_address_char c :
  is_agent_char c || is_domain_char c || (c =? 58) = true → lower_unit c = [c].
Proof.
  intros Hc.
  assert (45 ≤ c ≤ 58 ∨ c = 95 ∨ 97 ≤ c ≤ 122) as Hrange.
  { revert Hc. unfold is_agent_char, is_domain_char, is_alnum.
    rewrite !orb_true_iff, !andb_true_iff, !N.leb_le, !N.eqb_eq. lia. }
  unfold lower_unit.
  assert ((65 <=? c) && (c <=? 90) = false) as ->.
  { apply andb_false_iff. rewrite !N.leb_gt. lia. }
  by rewrite !(proj2 (N.eqb_neq c _)) by lia.
Qed.

Lemma toLowerCase_address_chars s :
  forallb (fun c => is_agent_char c || is_domain_char c || (c =? 58)) s = true →
  toLowerCase s = s.
Proof.
  unfold toLowerCase. induction s as [|c s IH]; [done|].
  cbn [forallb map concat]. intros Hall.
  apply andb_true_iff in Hall as [Hc Hall].
  by rewrite (lower_unit_address_char c Hc), IH.
Qed.

Lemma forallb_weaken {A} (P Q : A → bool) l :
  (∀ x, P x = true → Q x = true) → forallb P l = true → forallb Q l = true.
Proof.
  intros HPQ. rewrite !forallb_forall. auto.
Qed.

Lemma last_app_cons {A} (l1 : list A) x l2 d :
  List.last (l1 ++ x :: l2) d = List.last (x :: l2) d.
Proof.
  induction l1 as [|y l1 IH]; [done|].
  rewrite <- IH. cbn [app]. by destruct l1.
Qed.

(** The full form of a pair of labels is its own normal form. *)
Lemma full_normalized a d :
  label is_agent_char 64 a = true → label is_domain_char 255 d = true →
  toLowerCase (trim (a ++ js "::" ++ d)) = a ++ js "::" ++ d.
Proof.
  intros La Ld.
  destruct (label_ends _ _ _ La) as (fa & Hha & Hfa & _).
  destruct (label_ends _ _ _ Ld) as (fd & Hhd & _ & Hld).
  rewrite (trim_label_ends _ fa).
  - apply toLowerCase_address_chars.
    rewrite !forallb_app. apply label_forallb in La, Ld.
    apply andb_true_iff; split; [|apply andb_true_iff; split; [done|]].
    + revert La. apply forallb_weaken. intros c ->. done.
    + revert Ld. apply forallb_weaken. intros c ->. by rewrite orb_true_r.
  - destruct a; [done|]. done.
  - by apply is_alnum_not_white_space.
  - change (js "::" ++ d) with (58 :: 58 :: d).
    destruct d as [|c d]; [done|].
    rewrite (last_app_cons a 58 (58 :: c :: d)).
    change (List.last (58 :: 58 :: c :: d) 0) with (List.last (c :: d) 0).
    by apply is_alnum_not_white_space.
Qed.

End AddressNormalForm.

(** X1: an address that [parseAddress] returns is the normalized input
    (trimmed and lowercased), its agent has 1 to 64 characters, its domain
    is not empty, its full form has at most 128 characters, and parsing the
    full form again returns the same address. *)
Theorem parseAddress_normal_form (raw : jsstring) (a : Address) :
  parseAddress raw = Ok a →
  full a = toLowerCase (trim raw)
  ∧ (1 ≤ length (agent a) ≤ 64)%nat
  ∧ (1 ≤ length (domain a))%nat
  ∧ (length (full a) ≤ 128)%nat
  ∧ parseAddress (full a) = Ok a.
Proof.
  unfold parseAddress at 1.
  destruct (MAX_ADDRESS_LEN <? length _)%nat eqn:Elen; [done|].
  destruct (ADDRESS_RE_exec _) as [[ag d]|] eqn:E; [|done].
  destruct (MAX_AGENT_LEN <? length ag)%nat; [done|].
  intros [= <-]. unfold full. cbn [agent domain].
  apply ADDRESS_RE_exec_Some in E as (Enorm & La & Ld).
  apply Nat.ltb_ge in Elen. rewrite Enorm in Elen.
  pose proof (label_length _ _ _ La) as Hla.
  pose proof (label_length _ _ _ Ld) as Hld.
  split_and!; try done; try lia.
  unfold parseAddress. rewrite (full_normalized ag d La Ld).
  destruct (Nat.ltb_spec MAX_ADDRESS_LEN (length (ag ++ js "::" ++ d)));
    [unfold MAX_ADDRESS_LEN in *; lia|].
  rewrite (ADDRESS_RE_exec_label ag d La Ld).
  destruct (Nat.ltb_spec MAX_AGENT_LEN (length ag));
    [unfold MAX_AGENT_LEN in *; lia|done].
Qed.

Lemma parseAddress_normal_form_witness :
  parseAddress (full {| agent := js "alice"; domain := js "youam.network" |})
  = Ok {| agent := js "alice"; domain := js "youam.network" |}.
Proof.
  apply (parseAddress_normal_form (js "  Alice::YouAM.network ")).
  vm_compute. reflexivity.
Defined.

(** X2: [parseAddress] throws nothing but [InvalidAddressError], with one of
    two messages: the address is too long, or it does not have the shape
    [agent::domain]. The third message of the source, for an agent of more
    than 64 characters, is never produced: the pattern already limits the
    agent to 64 characters. *)
Theorem parseAddress_throws (raw : jsstring) :
  match parseAddress raw with
  | Ok _ => True
  | Throw (InvalidAddressError message) =>
      (message = js "Address exceeds 128 characters: " ++ quote raw
       ∧ (128 < length (toLowerCase (trim raw)))%nat)
      ∨ (message = js "Invalid UAM address: " ++ quote raw
         ∧ (length (toLowerCase (trim raw)) ≤ 128)%nat)
  | Throw _ => False
  end.
Proof.
  unfold parseAddress.
  destruct (Nat.ltb_spec MAX_ADDRESS_LEN (length (toLowerCase (trim raw))))
    as [Hlong|Hshort]; [left; by split|].
  destruct (ADDRESS_RE_exec _) as [[ag d]|] eqn:E; [|right; by split].
  apply ADDRESS_RE_exec_Some in E as (_ & La & _).
  apply label_length in La.
  destruct (Nat.ltb_spec MAX_AGENT_LEN (length ag));
    [unfold MAX_AGENT_LEN in *; lia|done].
Qed.


(* ===================================================================== *)
(** * The wire format                                                     *)
(* ===================================================================== *)

Section WireRoundTrip.

Lemma obj_get_replace_eq o k v :
  k ∈ obj_keys o → obj_get (obj_replace o k v) k = v.
Proof.
  induction o as [|[k0 v0] o IH]; cbn [obj_keys map fst]; intros Hin.
  - by apply elem_of_nil in Hin.
  - cbn [obj_replace]. destruct (str_eqb k0 k) eqn:E; cbn [obj_get]; rewrite E.
    + done.
    + apply IH. apply elem_of_cons in Hin as [->|Hin]; [|done].
      by rewrite str_eqb_refl in E.
Qed.

Lemma obj_get_app_eq o k v :
  k ∉ obj_keys o → obj_get (o ++ [(k, v)]) k = v.
Proof.
  induction o as [|[k0 v0] o IH]; cbn [obj_keys map fst app obj_get]; intros Hin.
  - by rewrite str_eqb_refl.
  - apply not_elem_of_cons in Hin as [Hne Hin].
    assert (str_eqb k0 k = false) as -> by (apply str_eqb_neq; congruence).
    by apply IH.
Qed.

Lemma obj_get_set_eq o k v :
  k ≠ js "__proto__" → obj_get (obj_set o k v) k = v.
Proof.
  intros Hp. unfold obj_set. apply str_eqb_neq in Hp. rewrite Hp.
  destruct (obj_has o k) eqn:E.
  - apply obj_get_replace_eq. by apply obj_has_true.
  - apply obj_get_app_eq. by apply obj_has_false.
Qed.

Lemma obj_get_set_if_defined_eq o k v :
  k ≠ js "__proto__" → obj_has o k = false →
  obj_get (set_if_defined o k v) k = v.
Proof.
  intros Hp Hk. unfold set_if_defined. destruct v; cbn [is_undefined negb];
    try by apply obj_get_set_eq.
  apply obj_get_absent. by apply obj_has_false.
Qed.

Lemma obj_has_set o k v k' :
  obj_has o k' = true → obj_has (obj_set o k v) k' = true.
Proof.
  rewrite !obj_has_true. unfold obj_set.
  destruct (str_eqb k (js "__proto__")); [done|].
  destruct (obj_has o k).
  - by rewrite obj_replace_keys.
  - rewrite obj_keys_app, elem_of_app. by left.
Qed.

Lemma obj_has_set_eq o k v :
  k ≠ js "__proto__" → obj_has (obj_set o k v) k = true.
Proof.
  intros Hp. rewrite obj_has_true. unfold obj_set.
  apply str_eqb_neq in Hp. rewrite Hp.
  destruct (obj_has o k) eqn:E.
  - rewrite obj_replace_keys. by apply obj_has_true.
  - rewrite obj_keys_app, elem_of_app. right. cbn. by apply list_elem_of_singleton.
Qed.

Lemma obj_has_set_if_defined o k v k' :
  obj_has o k' = true → obj_has (set_if_defined o k v) k' = true.
Proof.
  unfold set_if_defined. destruct (negb (is_undefined v)); [|done].
  apply obj_has_set.
Qed.

Lemma obj_has_set_ne o k v k' :
  k ≠ k' → obj_has o k' = false → obj_has (obj_set o k v) k' = false.
Proof.
  intros Hne. rewrite !obj_has_false. intros Hk Hin.
  apply obj_set_keys in Hin as [Hin| ->]; [by apply Hk|done].
Qed.

Lemma obj_has_set_if_defined_ne o k v k' :
  k ≠ k' → obj_has o k' = false → obj_has (set_if_defined o k v) k' = false.
Proof.
  intros Hne Hk. unfold set_if_defined. destruct (negb (is_undefined v)); [|done].
  by apply obj_has_set_ne.
Qed.

Lemma missing_fields_nil required d :
  forallb (obj_has d) required = true → missing_fields required d = [].
Proof.
  unfold missing_fields. induction required as [|f fs IH]; [done|].
  cbn [forallb List.filter]. intros Hall.
  apply andb_true_iff in Hall as [-> Hall]. cbn [negb]. by apply IH.
Qed.

End WireRoundTrip.

(** Reading a field of a dict that was built by assignments. *)
Ltac has_key :=
  repeat first
    [ apply obj_has_set_if_defined
    | apply obj_has_set_eq; by vm_compute
    | apply obj_has_set ];
  reflexivity.

Ltac lacks_key :=
  repeat first
    [ apply obj_has_set_if_defined_ne; [by vm_compute|]
    | apply obj_has_set_ne; [by vm_compute|] ];
  reflexivity.

Ltac get_key :=
  repeat first
    [ rewrite obj_get_set_if_defined_ne by (by vm_compute)
    | rewrite obj_get_set_ne by (by vm_compute) ];
  first
    [ reflexivity
    | apply obj_get_set_eq; by vm_compute
    | apply obj_get_set_if_defined_eq; [by vm_compute|lacks_key] ].

(** X3: the wire format loses nothing: for every envelope, [fromWireDict]
    of its [toWireDict] returns the envelope itself. *)
Theorem fromWireDict_toWireDict (e : MessageEnvelope) :
  fromWireDict (toWireDict e) = Ok e.
Proof.
  unfold fromWireDict. rewrite missing_fields_nil.
  - cbn [length Nat.ltb Nat.leb]. destruct e. f_equal.
    unfold toWireDict, Envelope.buildSignableDict.
    cbn [uamVersion messageId fromAddress toAddress timestamp type nonce
         payload Envelope.signature threadId replyTo expires mediaType
         metadata attachments].
    f_equal; get_key.
  - unfold toWireDict, Envelope.buildSignableDict, REQUIRED_WIRE_FIELDS.
    cbn [forallb]. repeat (apply andb_true_iff; split); try reflexivity; has_key.
Qed.

(** X4: [createEnvelope] returns only for two valid addresses, and the
    envelope carries the addresses and the type as they were given (the
    addresses are checked, not normalized), the protocol version, the
    identifier and the time drawn for it, and the options. *)
Theorem createEnvelope_fields {H : Host} (rnd : Entropy)
    (fromAddress toAddress messageType : jsstring)
    (plaintext signingKey recipientVerifyKey : bytes)
    (options : EnvelopeOptions) (e : MessageEnvelope) :
  createEnvelope rnd fromAddress toAddress messageType plaintext signingKey
    recipientVerifyKey options = Ok e →
  (∃ a b, parseAddress fromAddress = Ok a ∧ parseAddress toAddress = Ok b)
  ∧ Envelope.fromAddress e = JStr fromAddress
  ∧ Envelope.toAddress e = JStr toAddress
  ∧ type e = JStr messageType
  ∧ uamVersion e = JStr (js "0.1")
  ∧ messageId e = JStr (uuid rnd)
  ∧ timestamp e = JStr (clock_iso rnd)
  ∧ threadId e = opt_threadId options
  ∧ replyTo e = opt_replyTo options
  ∧ expires e = opt_expires options
  ∧ mediaType e = opt_mediaType options
  ∧ metadata e = opt_metadata options
  ∧ attachments e = opt_attachments options.
Proof.
  unfold createEnvelope.
  destruct (parseAddress fromAddress) as [a|]; [|done].
  destruct (parseAddress toAddress) as [b|]; [|done]. cbn [bind_result].
  destruct (if str_eqb messageType MessageType.HANDSHAKE_REQUEST then _ else _);
    [|done].
  cbn [bind_result]. destruct (signMessage _ _); [|done].
  cbn [bind_result]. destruct (validateEnvelopeSize _); [|done].
  cbn [bind_result]. intros [= <-]. split_and!; try done. by exists a, b.
Qed.

Lemma createEnvelope_fields_witness :
  match createEnvelope (H:=ToyHost.toy) ToyHost.draws ToyHost.alice ToyHost.bob
          MessageType.MESSAGE (utf8_encode (js "hello"))
          ToyHost.alice_signingKey ToyHost.bob_verifyKey Envelope.no_options with
  | Ok e => Envelope.fromAddress e = JStr ToyHost.alice
            ∧ type e = JStr MessageType.MESSAGE
  | Throw _ => False
  end.
Proof.
  destruct (createEnvelope (H:=ToyHost.toy) ToyHost.draws ToyHost.alice ToyHost.bob
              MessageType.MESSAGE (utf8_encode (js "hello"))
              ToyHost.alice_signingKey ToyHost.bob_verifyKey Envelope.no_options)
    as [e|err] eqn:E.
  - destruct (createEnvelope_fields _ _ _ _ _ _ _ _ e E) as (_ & Hf & _ & Ht & _).
    by split.
  - vm_compute in E. discriminate E.
Defined.

(* ===================================================================== *)
(** * Contact cards                                                       *)
(* ===================================================================== *)

(** X5: a contact card survives the way through its dict: for every card,
    [contactCardFromDict] of its [contactCardToDict] without verification
    returns the card itself; with verification it returns the card when
    [verifyContactCard] accepts it and throws what [verifyContactCard]
    throws otherwise. *)
Theorem contactCardFromDict_contactCardToDict {H : Host}
    (card : ContactCard.ContactCard) :
  ContactCard.contactCardFromDict (ContactCard.contactCardToDict card) false
  = Ok card
  ∧ ContactCard.contactCardFromDict (ContactCard.contactCardToDict card) true
    = match ContactCard.verifyContactCard card with
      | Ok _ => Ok card
      | Throw err => Throw err
      end.
Proof.
  assert (Hmissing :
            missing_fields ContactCard.required (ContactCard.contactCardToDict card) = []).
  { apply missing_fields_nil.
    unfold ContactCard.contactCardToDict, ContactCard.buildSignableDict,
      ContactCard.required.
    cbn [forallb]. repeat (apply andb_true_iff; split); try reflexivity; has_key. }
  assert ({| ContactCard.version := obj_get (ContactCard.contactCardToDict card) (js "version");
             ContactCard.address := obj_get (ContactCard.contactCardToDict card) (js "address");
             ContactCard.displayName := obj_get (ContactCard.contactCardToDict card) (js "display_name");
             ContactCard.description := obj_get (ContactCard.contactCardToDict card) (js "description");
             ContactCard.system := obj_get (ContactCard.contactCardToDict card) (js "system");
             ContactCard.connectionEndpoint := obj_get (ContactCard.contactCardToDict card) (js "connection_endpoint");
             ContactCard.relay := obj_get (ContactCard.contactCardToDict card) (js "relay");
             ContactCard.publicKey := obj_get (ContactCard.contactCardToDict card) (js "public_key");
             ContactCard.signature := obj_get (ContactCard.contactCardToDict card) (js "signature");
             ContactCard.verifiedDomain := obj_get (ContactCard.contactCardToDict card) (js "verified_domain");
             ContactCard.payloadFormats := obj_get (ContactCard.contactCardToDict card) (js "payload_formats");
             ContactCard.fingerprint := obj_get (ContactCard.contactCardToDict card) (js "fingerprint");
             ContactCard.relays := obj_get (ContactCard.contactCardToDict card) (js "relays") |}
          = card) as Hfields.
  { destruct card.
    unfold ContactCard.contactCardToDict, ContactCard.buildSignableDict.
    cbn [ContactCard.version ContactCard.address ContactCard.displayName
         ContactCard.description ContactCard.system
         ContactCard.connectionEndpoint ContactCard.relay
         ContactCard.publicKey ContactCard.signature
         ContactCard.verifiedDomain ContactCard.payloadFormats
         ContactCard.fingerprint ContactCard.relays].
    f_equal; get_key. }
  unfold ContactCard.contactCardFromDict.
  rewrite Hmissing. cbn [length Nat.ltb Nat.leb].
  rewrite Hfields. split; [done|].
  by destruct (ContactCard.verifyContactCard card) as [[]|].
Qed.



(** X7: when one of the six required fields is missing,
    [contactCardFromDict] throws an [InvalidContactCardError] whose message
    lists the missing names in ascending order, whatever [verify] is; when
    none is missing, it returns the card, or with [verify] what
    [verifyContactCard] throws for it. *)
Theorem contactCardFromDict_missing_sorted {H : Host} (d : object) (verify : bool) :
  ∃ names : list jsstring,
    Sorted key_le names ∧ NoDup names ∧
    (∀ f, f ∈ names ↔ f ∈ ContactCard.required ∧ f ∉ obj_keys d) ∧
    if decide (names = []) then
      ∃ card,
        ContactCard.contactCardFromDict d false = Ok card
        ∧ ContactCard.contactCardFromDict d verify
          = (if verify
             then match ContactCard.verifyContactCard card with
                  | Ok _ => Ok card
                  | Throw err => Throw err
                  end
             else Ok card)
    else
      ContactCard.contactCardFromDict d verify
      = Throw (InvalidContactCardError
                 (js "Missing required fields: " ++
                  js "[" ++ join (js ",") (map quote names) ++ js "]")).
Proof.
  exists (array_sort (missing_fields ContactCard.required d)).
  split_and!.
  - apply array_sort_sorted.
  - apply array_sort_nodup, filter_nodup. by apply (bool_decide_unpack _).
  - intros f. by rewrite array_sort_elem, missing_fields_elem.
  - unfold ContactCard.contactCardFromDict.
    destruct (missing_fields ContactCard.required d) as [|f fs] eqn:E.
    + change (array_sort []) with (@nil jsstring). cbn [length Nat.ltb Nat.leb].
      rewrite decide_True by done. eexists. split; [reflexivity|].
      destruct verify; [|done]. by destruct (ContactCard.verifyContactCard _) as [[]|].
    + cbn [length Nat.ltb Nat.leb]. rewrite decide_False.
      * by rewrite stringify_strings.
      * intros Hnil.
        assert (f ∈ array_sort (f :: fs)) as Hin
          by (apply array_sort_elem, elem_of_cons; by left).
        rewrite Hnil in Hin. by apply elem_of_nil in Hin.
Qed.


(* ===================================================================== *)
(** * Values of any type                                                  *)
(* ===================================================================== *)


(* ===================================================================== *)
(** * Text in the contact book                                            *)
(* ===================================================================== *)

Section StoredText.

Lemma toWellFormed_utf8_length n s :
  (length s ≤ n)%nat →
  utf8_encode (toWellFormed s) = utf8_encode s
  ∧ toWellFormed (toWellFormed s) = toWellFormed s.
Proof.
  revert s. induction n as [|n IH]; intros s Hlen.
  { destruct s; [done|]. cbn [length] in Hlen. lia. }
  destruct s as [|c rest]; [done|]. cbn [length] in Hlen.
  assert (is_high_surrogate 0xFFFD = false) as Hh by reflexivity.
  assert (is_low_surrogate 0xFFFD = false) as Hl by reflexivity.
  cbn [toWellFormed utf8_encode].
  destruct (is_high_surrogate c) eqn:Ehigh.
  - destruct rest as [|lo rest']; [done|]. cbn [length] in Hlen.
    destruct (is_low_surrogate lo) eqn:Elow.
    + destruct (IH rest' ltac:(lia)) as [IH1 IH2].
      cbn [toWellFormed utf8_encode]. rewrite Ehigh, Elow. by rewrite IH1, IH2.
    + destruct (IH (lo :: rest') ltac:(cbn [length]; lia)) as [IH1 IH2].
      remember (toWellFormed (lo :: rest')) as t.
      cbn [toWellFormed utf8_encode]. rewrite Hh, Hl. by rewrite IH1, IH2.
  - destruct (IH rest ltac:(lia)) as [IH1 IH2].
    destruct (is_low_surrogate c) eqn:Elow.
    + cbn [toWellFormed utf8_encode]. rewrite Hh, Hl. by rewrite IH1, IH2.
    + cbn [toWellFormed utf8_encode]. rewrite Ehigh, Elow. by rewrite IH1, IH2.
Qed.

End StoredText.

(** X9: the text that the contact book stores for a string has the UTF-8
    bytes of the string, and storing it again changes nothing; a string
    without surrogates is stored as it is. *)
Theorem TEXT_utf8 (s : jsstring) :
  utf8_encode (ContactBook.TEXT s) = utf8_encode s
  ∧ ContactBook.TEXT (ContactBook.TEXT s) = ContactBook.TEXT s
  ∧ (forallb (fun c => negb (is_high_surrogate c || is_low_surrogate c)) s = true →
     ContactBook.TEXT s = s).
Proof.
  unfold ContactBook.TEXT. split_and!.
  - by apply (toWellFormed_utf8_length (length s)).
  - by apply (toWellFormed_utf8_length (length s)).
  - induction s as [|c s IH]; [done|]. cbn [forallb toWellFormed].
    intros [Hc Hs]%andb_true_iff.
    apply negb_true_iff, orb_false_iff in Hc as [-> ->]. by rewrite IH.
Qed.

(* ===================================================================== *)
(** * The block caches                                                    *)
(* ===================================================================== *)

(** X10: the block caches mirror the table of block patterns after [open];
    [addBlock] and [removeBlock] of a pattern that is stored as it is keep
    them so, and the pattern is in the table after [addBlock] and not in it
    after [removeBlock]. *)
Theorem block_caches_mirror_table (now : N) (book : ContactBook.ContactBook)
    (pattern : jsstring) :
  caches_loaded (ContactBook.open book)
  ∧ (ContactBook.TEXT pattern = pattern → caches_loaded book →
     ∀ book', ContactBook.addBlock now book pattern = Ok book' →
       caches_loaded book'
       ∧ pattern ∈ dom (ContactBook.blocked_patterns (ContactBook.db book')))
  ∧ (ContactBook.TEXT pattern = pattern → caches_loaded book →
     ∀ book', ContactBook.removeBlock book pattern = Ok book' →
       caches_loaded book'
       ∧ pattern ∉ dom (ContactBook.blocked_patterns (ContactBook.db book'))).
Proof.
  split_and!.
  - apply open_caches_loaded.
  - intros Htext Hc book' Hadd. by apply (addBlock_caches_loaded now book).
  - intros Htext Hc book' Hrm. split.
    + by apply (removeBlock_caches_loaded book pattern).
    + revert Hrm. unfold ContactBook.removeBlock.
      destruct (ContactBook._db book); [|done]. cbn [negb]. intros [= <-].
      rewrite Htext. unfold ContactBook._uncacheBlockPattern.
      destruct (startsWith _ _);
        cbn [ContactBook.db ContactBook.with_blocked ContactBook.blocked_patterns];
        rewrite dom_delete_L, elem_of_difference, elem_of_singleton;
        by intros [_ ?].
Qed.

(* ===================================================================== *)
(** * Numbers in canonical JSON                                           *)
(* ===================================================================== *)


(* ===================================================================== *)
(** * Signatures and payloads that are arrays                             *)
(* ===================================================================== *)

Section ByteArrays.

Lemma toUint8_byte (b : N) : b < 256 → Number.toUint8 (int (Z.of_N b)) = b.
Proof.
  intros Hb. unfold Number.toUint8, int.
  destruct (Z.ltb_spec (Z.of_N b) 0) as [?|_]; [lia|].
  cbn [Z.leb Z.compare]. rewrite Z.pow_0_r, Z.mul_1_r.
  rewrite Zabs2N.id_abs, Z.abs_eq by lia.
  rewrite Z.mod_small by lia. apply N2Z.id.
Qed.

Lemma numbers_bytes (data : bytes) :
  numbers (map (fun b => JNum (int (Z.of_N b))) data)
  = Some (map (fun b => int (Z.of_N b)) data).
Proof.
  unfold numbers. induction data as [|b data IH]; [done|].
  cbn [map mapM]. rewrite IH. done.
Qed.

Lemma b64Decode_any_bytes {H : Host} (data : bytes) :
  Forall (fun b => b < 256) data →
  b64Decode_any (JArr (map (fun b => JNum (int (Z.of_N b))) data)) = Ok data.
Proof.
  intros Hall. cbn [b64Decode_any]. rewrite numbers_bytes. f_equal.
  induction Hall as [|b data Hb _ IH]; [done|].
  cbn [map]. by rewrite IH, toUint8_byte.
Qed.

End ByteArrays.

(** X12: a signature or a payload that is a JSON array of bytes is taken as
    the bytes themselves: [verifySignature] accepts the array of the bytes
    of a signature exactly when it accepts their base64url text, and
    [decryptPayload] decrypts the array of the bytes of a ciphertext as it
    decrypts their base64url text. *)
Theorem byte_arrays_accepted {H : Host} {HL : HostLaws H}
    (data sigBytes combined sk vk : bytes) :
  Forall (fun b => b < 256) sigBytes →
  Forall (fun b => b < 256) combined →
  verifySignature data (JArr (map (fun b => JNum (int (Z.of_N b))) sigBytes)) vk
  = verifySignature data (JStr (b64Encode sigBytes)) vk
  ∧ decryptPayload (JArr (map (fun b => JNum (int (Z.of_N b))) combined)) sk vk
    = decryptPayload (JStr (b64Encode combined)) sk vk.
Proof.
  intros Hs Hc. unfold verifySignature, decryptPayload.
  rewrite !b64Decode_any_bytes by done.
  cbn [b64Decode_any]. unfold b64Decode, b64Encode.
  by rewrite !base64url_decode_encode.
Qed.

Lemma byte_arrays_accepted_witness :
  verifySignature (H:=ToyHost.toy) [104; 105]
    (JArr (map (fun b => JNum (int (Z.of_N b))) [7; 104; 105])) [7]
  = Ok tt.
Proof.
  rewrite (proj1 (byte_arrays_accepted (H:=ToyHost.toy) (HL:=toy_laws)
                    [104; 105] [7; 104; 105] [] [] [7]
                    ltac:(repeat constructor) ltac:(constructor))).
  vm_compute. reflexivity.
Defined.

(* ===================================================================== *)
(** * Trust on first use                                                  *)
(* ===================================================================== *)

(** X13: handling a [handshake.accept] from an address that is a string,
    with an open contact book: [_handleAccept] returns, and then the book
    holds for the sender the key that the envelope was verified with, the
    trust state [pinned] and the time of the pin; the sender is known, and
    nothing is sent. *)
Theorem handleAccept_pins_sender {H : Host} (W : Agent.World)
    (e : MessageEnvelope) (vk : bytes) (from : jsstring) (st : Agent.State) :
  fromAddress e = JStr from →
  ContactBook._db (Agent._contactBook st) = true →
  (Agent._handleAccept W e vk st).1 = Ok tt
  ∧ ContactBook.getPublicKey
      (Agent._contactBook (Agent._handleAccept W e vk st).2) from
    = Some (ContactBook.TEXT (serializeVerifyKey vk))
  ∧ ContactBook.getTrustState
      (Agent._contactBook (Agent._handleAccept W e vk st).2) from
    = Some (js "pinned")
  ∧ (ContactBook.contacts
       (ContactBook.db (Agent._contactBook (Agent._handleAccept W e vk st).2))
       !! ContactBook.TEXT from ≫= ContactBook.pinned_at)
    = Some (Agent.clock W (S (Agent.tick st)))
  ∧ ContactBook.isKnown
      (Agent._contactBook (Agent._handleAccept W e vk st).2) from = true
  ∧ Agent.sent (Agent._handleAccept W e vk st).2 = Agent.sent st.
Proof.
  intros Hfrom Hopen.
  unfold Agent._handleAccept, Agent.bind, Agent.now, Agent.update_book.
  rewrite Hfrom. cbn [Agent._contactBook Agent.next_tick Agent.tick].
  change (ContactBook.addContact_any (Agent.clock W (Agent.tick st))
            (Agent._contactBook st) (JStr from) (JStr (serializeVerifyKey vk))
            JUndefined (js "pinned") None)
    with (ContactBook.addContact (Agent.clock W (Agent.tick st))
            (Agent._contactBook st) from (serializeVerifyKey vk)
            {| ContactBook.displayName := None;
               ContactBook.trustState := Some (js "pinned");
               ContactBook.trustSource := None;
               ContactBook.relay_url := None;
               ContactBook.relays := None |}).
  destruct (addContact_upsert (Agent.clock W (Agent.tick st))
              (Agent._contactBook st) from (serializeVerifyKey vk)
              {| ContactBook.displayName := None;
                 ContactBook.trustState := Some (js "pinned");
                 ContactBook.trustSource := None;
                 ContactBook.relay_url := None;
                 ContactBook.relays := None |} Hopen)
    as (book1 & Hadd & Hopen1 & Hkey1 & _).
  rewrite Hadd.
  assert (from ∈ ContactBook._knownAddresses book1) as Hknown.
  { revert Hadd. unfold ContactBook.addContact, ContactBook.upsert_contact.
    rewrite Hopen. cbn [negb bind_result]. intros [= <-].
    cbn [ContactBook._knownAddresses].
    apply elem_of_union. left. by apply elem_of_singleton. }
  cbn [Agent._contactBook Agent.set_book Agent.next_tick Agent.tick Agent.sent].
  change (ContactBook.setPinnedAt_any ?t book1 (JStr from))
    with (ContactBook.setPinnedAt t book1 from).
  unfold ContactBook.setPinnedAt. rewrite Hopen1. cbn [negb].
  cbn [fst snd Agent._contactBook Agent.set_book Agent.sent].
  revert Hkey1.
  unfold ContactBook.getPublicKey, ContactBook.getTrustState,
    ContactBook.isKnown, ContactBook.select_contact, ContactBook.with_contacts,
    ContactBook.update_pinned.
  cbn [ContactBook._db ContactBook.db ContactBook.contacts
       ContactBook._knownAddresses mbind option_bind].
  rewrite Hopen1. cbn [negb]. rewrite !lookup_alter_eq.
  destruct (ContactBook.contacts (ContactBook.db book1) !! ContactBook.TEXT from)
    as [row|]; [|done].
  cbn [fmap option_fmap option_map ContactBook.public_key
       ContactBook.trust_state ContactBook.pinned_at mbind option_bind].
  intros [= Hkey]. split_and!; try done.
  - by rewrite Hkey.
  - by apply bool_decide_eq_true.
Qed.

Lemma handleAccept_pins_sender_witness :
  ContactBook.getTrustState
    (Agent._contactBook
       (Agent._handleAccept (H:=ToyHost.toy) ToyHost.world
          {| uamVersion := JStr UAM_VERSION; messageId := JStr [];
             fromAddress := JStr ToyHost.alice; toAddress := JStr ToyHost.bob;
             timestamp := JStr []; type := JStr MessageType.HANDSHAKE_ACCEPT;
             nonce := JStr []; payload := JStr []; Envelope.signature := JStr [];
             threadId := JUndefined; replyTo := JUndefined;
             expires := JUndefined; mediaType := JUndefined;
             metadata := JUndefined; attachments := JUndefined |}
          ToyHost.alice_verifyKey (ToyHost.connected ToyHost.empty_book)).2)
    ToyHost.alice
  = Some (js "pinned").
Proof.
  exact (proj1 (proj2 (proj2 (handleAccept_pins_sender (H:=ToyHost.toy)
                                ToyHost.world
                                {| uamVersion := JStr UAM_VERSION;
                                   messageId := JStr [];
                                   fromAddress := JStr ToyHost.alice;
                                   toAddress := JStr ToyHost.bob;
                                   timestamp := JStr [];
                                   type := JStr MessageType.HANDSHAKE_ACCEPT;
                                   nonce := JStr []; payload := JStr [];
                                   Envelope.signature := JStr [];
                                   threadId := JUndefined;
                                   replyTo := JUndefined;
                                   expires := JUndefined;
                                   mediaType := JUndefined;
                                   metadata := JUndefined;
                                   attachments := JUndefined |}
                                ToyHost.alice_verifyKey
                                ToyHost.alice
                                (ToyHost.connected ToyHost.empty_book)
                                eq_refl eq_refl)))).
Defined.

(* ===================================================================== *)
(** * What a call of inbox sends and keeps                                *)
(* ===================================================================== *)

Ltac sublist :=
  let t := fresh "t" in
  let Ht := fresh "Ht" in
  intros t Ht;
  repeat (apply elem_of_cons in Ht as [->|Ht]);
  [..|by apply elem_of_nil in Ht];
  repeat first [ apply list_elem_of_here | apply list_elem_of_further ].

Section InboxEffects.
Import ContactBook Agent.
Context {H : Host} (W : World) (cfg : Config).

Lemma emits_mono types types' st st' :
  (∀ t, t ∈ types → t ∈ types') → emits types st st' → emits types' st st'.
Proof.
  intros Hsub (new & Hsent & Hall). exists new. split; [done|].
  eapply Forall_impl; [exact Hall|]. intros wire (t & Ht & Hin).
  exists t. auto.
Qed.

Lemma preserves_emits_mono {A} types types' (m : M A) :
  (∀ t, t ∈ types → t ∈ types') →
  preserves (emits types) m → preserves (emits types') m.
Proof. intros Hsub Hm st. by apply (emits_mono types). Qed.

Lemma emits_readReceipt msg :
  preserves (emits [MessageType.RECEIPT_READ]) (_sendReadReceipt W cfg msg).
Proof.
  unfold _sendReadReceipt.
  repeat first [ progress cbv beta zeta
               | apply emits_now | apply emits_draw | apply emits_update_book
               | apply emits_send | mstep ].
  apply list_elem_of_here.
Qed.

Lemma emits_inbox_loop rawMessages result :
  preserves
    (emits [MessageType.HANDSHAKE_ACCEPT; MessageType.HANDSHAKE_DENY;
            MessageType.RECEIPT_READ])
    (inbox_loop W cfg rawMessages result).
Proof.
  revert result. induction rawMessages as [|raw rest IH]; intros result;
    cbn [inbox_loop].
  - apply preserves_ret. apply _.
  - apply preserves_seq; [apply _| |done].
    unfold inbox_step. apply preserves_seq; [apply _| |].
    + eapply preserves_emits_mono; [|apply emits_processInbound].
      unfold handshake_replies. sublist.
    + intros [msg|]; [|apply preserves_ret; apply _].
      apply preserves_seq; [apply _| |intros _; apply preserves_ret; apply _].
      eapply preserves_emits_mono; [|apply emits_readReceipt].
      sublist.
Qed.


End InboxEffects.

(** X14: whatever a call of [inbox] sends is an envelope of type
    [receipt.failed] (from the sweep of expired handshakes),
    [handshake.accept] or [handshake.deny] (from handling a handshake
    request) or [receipt.read]; what was sent before stays. *)
Theorem inbox_sends_protocol_replies {H : Host} (W : Agent.World)
    (cfg : Agent.Config) (rawMessages : list object) (st : Agent.State) :
  ∃ new,
    Agent.sent (Agent.inbox W cfg rawMessages st).2 = Agent.sent st ++ new
    ∧ ∀ wire, wire ∈ new →
        ∃ t, obj_get wire (js "type") = JStr t
             ∧ t ∈ [MessageType.RECEIPT_FAILED; MessageType.HANDSHAKE_ACCEPT;
                    MessageType.HANDSHAKE_DENY; MessageType.RECEIPT_READ].
Proof.
  assert (preserves
            (emits [MessageType.RECEIPT_FAILED; MessageType.HANDSHAKE_ACCEPT;
                    MessageType.HANDSHAKE_DENY; MessageType.RECEIPT_READ])
            (Agent.inbox W cfg rawMessages)) as Hp.
  { unfold Agent.inbox. apply preserves_seq; [apply _| |intros _].
    - eapply preserves_emits_mono; [|apply emits_sweep]. sublist.
    - eapply preserves_emits_mono; [|apply emits_inbox_loop].
      sublist. }
  destruct (Hp st) as (new & Hsent & Hall). exists new. split; [done|].
  by apply Forall_forall.
Qed.


(* ===================================================================== *)
(** * Malformed input and the sweep                                       *)
(* ===================================================================== *)

Section InboxErrors.
Import ContactBook Agent.
Context {H : Host} (W : World) (cfg : Config).



Lemma removePending_any_entry b e :
  ∃ b', removePending_any b (address_of e) = Ok b'
        ∧ _db b' = _db b ∧ contacts (db b') = contacts (db b).
Proof.
  unfold removePending_any, address_of.
  destruct (_db b) eqn:Hopen; cbn [negb]; [|by exists b].
  destruct (entry_address e); cbn; eauto.
Qed.

Lemma sweep_entry_returns e st :
  ∃ st', sweep_entry W cfg e st = (Ok tt, st')
         ∧ _db (_contactBook st') = _db (_contactBook st)
         ∧ contacts (db (_contactBook st')) = contacts (db (_contactBook st)).
Proof.
  unfold sweep_entry. unfold bind at 1.
  match goal with
  | |- context [try_ignore ?m st] =>
      assert (∃ st1, try_ignore m st = (Ok tt, st1)
                     ∧ _contactBook st1 = _contactBook st) as (st1 & -> & Hb)
  end.
  { unfold try_ignore, bind, lift.
    destruct (parse_dict _) as [cardDict|]; [|eauto].
    destruct (ContactCard.contactCardFromDict _ _) as [card|]; [|eauto].
    destruct (deserializeVerifyKey_any _) as [vk|]; [|eauto].
    unfold createEnvelopeM, bind, draw, lift.
    destruct (createEnvelope_any _ _ _ _ _ _ _ _) as [envelope|]; [|eauto].
    unfold transport_send. cbn [tick next_tick].
    destruct (delivers W _ _); eauto. }
  unfold update_book. rewrite Hb.
  destruct (removePending_any_entry (_contactBook st) e) as (b' & -> & Ho & Hc).
  eexists. split; [reflexivity|]. by cbn [set_book _contactBook].
Qed.

Lemma sweep_loop_returns entries st :
  ∃ st', for_each entries (sweep_entry W cfg) st = (Ok tt, st')
         ∧ _db (_contactBook st') = _db (_contactBook st)
         ∧ contacts (db (_contactBook st')) = contacts (db (_contactBook st)).
Proof.
  revert st. induction entries as [|e entries IH]; intros st; cbn [for_each].
  - by exists st.
  - destruct (sweep_entry_returns e st) as (st1 & E1 & Ho1 & Hc1).
    destruct (IH st1) as (st' & E' & Ho' & Hc').
    exists st'. unfold bind. rewrite E1, E'. split_and!; [done|congruence..].
Qed.

End InboxErrors.



(** X17: [_sweepExpiredHandshakes] never throws: what goes wrong while a
    [receipt.failed] is made or sent is ignored, and removing the entry
    does not fail. It leaves the contacts as they are and the book open or
    closed as it was. *)
Theorem sweep_never_throws {H : Host} (W : Agent.World) (cfg : Agent.Config)
    (st : Agent.State) :
  ∃ st',
    Agent._sweepExpiredHandshakes W cfg st = (Ok tt, st')
    ∧ ContactBook._db (Agent._contactBook st')
      = ContactBook._db (Agent._contactBook st)
    ∧ ContactBook.contacts (ContactBook.db (Agent._contactBook st'))
      = ContactBook.contacts (ContactBook.db (Agent._contactBook st)).
Proof.
  unfold Agent._sweepExpiredHandshakes, Agent.bind, Agent.now, Agent.book.
  cbn [Agent._contactBook Agent.next_tick].
  destruct (sweep_loop_returns W cfg
              (ContactBook.getExpiredPending (Agent.clock W (Agent.tick st))
                 (Agent._contactBook st) 7)
              (Agent.next_tick st)) as (st' & E & Ho & Hc).
  exists st'. by split_and!.
Qed.
